(** * Shashki: Russian checkers rule engine, bot evaluation and game store

    A shallow embedding of [src/types.ts], [src/rules/checkersRules.ts],
    the static evaluation and the search of the bot and the transactional
    operations of [src/services/gameService.ts], together with the
    properties the specification states about them and further properties
    of the code.

    Conventions.
    - JavaScript numbers that hold board coordinates, scores, versions and
      clocks are integers in every use below; they are modelled by [Z].
    - A cell of the board is [Piece | null]; it is modelled by
      [option Piece] ([None] is [null]).
    - A [BoardState] is an array of row arrays, modelled by a list of lists.
      The rule engine only reads [board[r][c]] under the guard
      [0 <= r < 8 && 0 <= c < 8] (or, for the jumped square of a man, between
      two guarded squares), so on the 8x8 boards of the game no read leaves
      the arrays. *)

From stdpp Require Import gmap strings list fin_maps.
From Stdlib Require Import ZArith Lia.

Local Open Scope Z_scope.

(** ** Data model ([src/types.ts]) *)

Inductive PlayerColor := WHITE | BLACK.

Inductive GameStatus := WAITING | ACTIVE | FINISHED | DRAW.

Record Position := { row : Z; col : Z }.

Record Piece := { color : PlayerColor; isKing : bool }.

Abbreviation BoardState := (list (list (option Piece))).

Record Move := {
  from : Position;
  to : Position;
  captures : list Position;
  path : list Position;
  becomesKing : bool
}.

#[global] Instance PlayerColor_eq_dec : EqDecision PlayerColor.
Proof. solve_decision. Defined.

#[global] Instance GameStatus_eq_dec : EqDecision GameStatus.
Proof. solve_decision. Defined.

#[global] Instance Position_eq_dec : EqDecision Position.
Proof. solve_decision. Defined.

#[global] Instance Piece_eq_dec : EqDecision Piece.
Proof. solve_decision. Defined.

#[global] Instance Move_eq_dec : EqDecision Move.
Proof. solve_decision. Defined.

(** [a === b] on colours. *)
Definition colorEqb (a b : PlayerColor) : bool :=
  match a, b with
  | WHITE, WHITE | BLACK, BLACK => true
  | _, _ => false
  end.

(** ** Rule engine ([src/rules/checkersRules.ts]) *)

Definition BOARD_SIZE : Z := 8.

(** [r >= 0 && r < BOARD_SIZE && c >= 0 && c < BOARD_SIZE] *)
Definition inBoard (r c : Z) : bool :=
  (0 <=? r) && (r <? BOARD_SIZE) && (0 <=? c) && (c <? BOARD_SIZE).

(** The read [board[r][c]]. *)
Definition cellAt (board : BoardState) (r c : Z) : option Piece :=
  if (0 <=? r) && (0 <=? c) then
    match board !! Z.to_nat r with
    | Some cells =>
        match cells !! Z.to_nat c with
        | Some cell => cell
        | None => None
        end
    | None => None
    end
  else None.

(** The write [board[r][c] = v] on a value board.  Writes of the engine
    target squares of the 8x8 grid; a write outside the lists leaves the
    value unchanged. *)
Definition setCell (board : BoardState) (r c : Z) (v : option Piece) : BoardState :=
  if (0 <=? r) && (0 <=? c) then
    match board !! Z.to_nat r with
    | Some cells => <[Z.to_nat r := <[Z.to_nat c := v]> cells]> board
    | None => board
    end
  else board.

(** The index pairs visited by
    [for (r = 0; r < 8; r++) for (c = 0; c < 8; c++)]. *)
Definition squares : list (Z * Z) :=
  r ← seqZ 0 BOARD_SIZE; (λ c, (r, c)) <$> seqZ 0 BOARD_SIZE.

Definition emptyBoard : BoardState :=
  replicate (Z.to_nat BOARD_SIZE) (replicate (Z.to_nat BOARD_SIZE) None).

Definition initializeBoard : BoardState :=
  foldl (λ board '(row, col),
    if Z.rem (row + col) 2 =? 1 then
      if row <? 3 then
        setCell board row col (Some {| color := BLACK; isKing := false |})
      else if row >? 4 then
        setCell board row col (Some {| color := WHITE; isKing := false |})
      else board
    else board) emptyBoard squares.

Definition directions : list (Z * Z) := [(-1, -1); (-1, 1); (1, -1); (1, 1)].

(** [(piece.color === WHITE && r === 0) || (piece.color === BLACK && r === 7)] *)
Definition promotionRow (c : PlayerColor) (r : Z) : bool :=
  (colorEqb c WHITE && (r =? 0)) || (colorEqb c BLACK && (r =? 7)).

(** *** Simple moves *)

(** The [while] loop of a flying king along one diagonal; [n] bounds the
    number of iterations. *)
Fixpoint kingSlide (n : nat) (board : BoardState) (from : Position)
    (dr dc r c : Z) : list Move :=
  match n with
  | O => []
  | S n' =>
      if inBoard r c then
        match cellAt board r c with
        | Some _ => []
        | None =>
            {| from := from; to := {| row := r; col := c |}; captures := [];
               path := [{| row := r; col := c |}]; becomesKing := false |}
            :: kingSlide n' board from dr dc (r + dr) (c + dc)
        end
      else []
  end.

Definition getSimpleMoves (board : BoardState) (from : Position) (piece : Piece)
    : list Move :=
  let directions :=
    if isKing piece then directions
    else match color piece with
         | WHITE => [(-1, -1); (-1, 1)]
         | BLACK => [(1, -1); (1, 1)]
         end in
  '(dr, dc) ← directions;
  let r := row from + dr in
  let c := col from + dc in
  if isKing piece then kingSlide (Z.to_nat BOARD_SIZE) board from dr dc r c
  else if inBoard r c && bool_decide (cellAt board r c = None) then
    [{| from := from; to := {| row := r; col := c |}; captures := [];
        path := [{| row := r; col := c |}];
        becomesKing := promotionRow (color piece) r |}]
  else [].

(** *** Capture chains *)

(** [capturedInPath.some(p => p.row === r && p.col === c)] *)
Definition alreadyCaptured (capturedInPath : list Position) (r c : Z) : bool :=
  existsb (λ p, (row p =? r) && (col p =? c)) capturedInPath.

(** The simulated piece after landing on row [landR]: a man that reaches
    its promotion row becomes a king ([nextPieceState]); a king stays one. *)
Definition nextPieceState (piece : Piece) (landR : Z) : Piece :=
  {| color := color piece;
     isKing := if promotionRow (color piece) landR then true else isKing piece |}.

Section CaptureStep.
(** The body of [getCaptureMoves], with the recursive call abstracted
    as [recur]. *)
Variable board : BoardState.
Variable originalStart : Position.
Variable recur :
  Position → Piece → list Position → list Position → list Position → list Move.

(** What one successful jump over [(r, c)] to [(landR, landC)] pushes on
    [moves]: the longer chains if there are any, else the chain ending
    here. *)
Definition continueOrStop (next : Piece) (currentCaptures capturedInPath
    currentPath : list Position) (r c landR landC : Z) (king : bool) : list Move :=
  let newCaptures := currentCaptures ++ [{| row := r; col := c |}] in
  let newCapturedInPath := capturedInPath ++ [{| row := r; col := c |}] in
  let newPath := currentPath ++ [{| row := landR; col := landC |}] in
  let subsequentMoves :=
    recur {| row := landR; col := landC |} next newCaptures newCapturedInPath
      newPath in
  if (0 <? Z.of_nat (length subsequentMoves)) then subsequentMoves
  else [{| from := originalStart; to := {| row := landR; col := landC |};
           captures := newCaptures; path := newPath; becomesKing := king |}].

(** Inner [while] of the king: the landing squares behind the enemy at
    [(r, c)]. *)
Fixpoint kingLandings (n : nat) (piece : Piece) (currentCaptures capturedInPath
    currentPath : list Position) (dr dc r c landR landC : Z) : list Move :=
  match n with
  | O => []
  | S n' =>
      if inBoard landR landC then
        let destCell := cellAt board landR landC in
        let isStart :=
          (landR =? row originalStart) && (landC =? col originalStart) in
        if bool_decide (destCell ≠ None) && negb isStart then []
        else
          continueOrStop piece currentCaptures capturedInPath currentPath
            r c landR landC true
          ++ kingLandings n' piece currentCaptures capturedInPath currentPath
               dr dc r c (landR + dr) (landC + dc)
      else []
  end.

(** Outer [while] of the king: scan along the diagonal for the first
    piece. *)
Fixpoint kingScan (n : nat) (piece : Piece) (currentCaptures capturedInPath
    currentPath : list Position) (dr dc r c : Z) : list Move :=
  match n with
  | O => []
  | S n' =>
      if inBoard r c then
        match cellAt board r c with
        | Some cell =>
            let isEnemy := negb (colorEqb (color cell) (color piece)) in
            if negb isEnemy || alreadyCaptured capturedInPath r c then []
            else kingLandings (Z.to_nat BOARD_SIZE) piece currentCaptures
                   capturedInPath currentPath dr dc r c (r + dr) (c + dc)
        | None =>
            kingScan n' piece currentCaptures capturedInPath currentPath
              dr dc (r + dr) (c + dc)
        end
      else []
  end.

(** The jump of a man in direction [(dr, dc)]. *)
Definition manCapture (currentPos : Position) (piece : Piece)
    (currentCaptures capturedInPath currentPath : list Position)
    (dr dc : Z) : list Move :=
  let captureR := row currentPos + dr in
  let captureC := col currentPos + dc in
  let landR := row currentPos + 2 * dr in
  let landC := col currentPos + 2 * dc in
  if inBoard landR landC then
    let midPiece := cellAt board captureR captureC in
    let destCell := cellAt board landR landC in
    let isEnemy :=
      match midPiece with
      | Some mid => negb (colorEqb (color mid) (color piece))
      | None => false
      end in
    let isStart :=
      (landR =? row originalStart) && (landC =? col originalStart) in
    let isOpen := bool_decide (destCell = None) || isStart in
    if isEnemy && negb (alreadyCaptured capturedInPath captureR captureC)
       && isOpen then
      let reachedPromotionRow := promotionRow (color piece) landR in
      continueOrStop (nextPieceState piece landR) currentCaptures
        capturedInPath currentPath captureR captureC landR landC
        (reachedPromotionRow || isKing piece)
    else []
  else [].

Definition captureStep (currentPos : Position) (piece : Piece)
    (currentCaptures capturedInPath currentPath : list Position) : list Move :=
  '(dr, dc) ← directions;
  if isKing piece then
    kingScan (Z.to_nat BOARD_SIZE) piece currentCaptures capturedInPath
      currentPath dr dc (row currentPos + dr) (col currentPos + dc)
  else
    manCapture currentPos piece currentCaptures capturedInPath currentPath
      dr dc.
End CaptureStep.

(** The recursion of [getCaptureMoves], unrolled [fuel] times. *)
Fixpoint getCaptureMoves_fuel (fuel : nat) (board : BoardState)
    (originalStart : Position) (currentPos : Position) (piece : Piece)
    (currentCaptures capturedInPath currentPath : list Position) : list Move :=
  match fuel with
  | O => []
  | S fuel' =>
      captureStep board originalStart (getCaptureMoves_fuel fuel' board originalStart)
        currentPos piece currentCaptures capturedInPath currentPath
  end.

(** The squares of the board that hold a piece. *)
Definition occupiedSquares (board : BoardState) : list Position :=
  mjoin (imap (λ r cells,
    mjoin (imap (λ c (cell : option Piece),
      match cell with
      | Some _ => [{| row := Z.of_nat r; col := Z.of_nat c |}]
      | None => []
      end) cells)) board).

(** Every recursive call captures one more piece of the board, so the
    depth of the recursion is at most the number of pieces;
    [getCaptureMoves_fuel_enough] below shows that this many unrollings
    reach the result of the recursion. *)
Definition getCaptureMoves (board : BoardState) (currentPos : Position)
    (piece : Piece) (currentCaptures capturedInPath currentPath : list Position)
    (originalStart : Position) : list Move :=
  getCaptureMoves_fuel (S (length (occupiedSquares board))) board originalStart
    currentPos piece currentCaptures capturedInPath currentPath.

(** One iteration of the double loop of [calculateAllowedMoves] on the
    accumulator [(allMoves, hasCaptures)]. *)
Definition allowedStep (board : BoardState) (turn : PlayerColor)
    (acc : list Move * bool) (rc : Z * Z) : list Move * bool :=
  let '(allMoves, hasCaptures) := acc in
  let '(r, c) := rc in
  match cellAt board r c with
  | None => acc
  | Some piece =>
      if negb (colorEqb (color piece) turn) then acc
      else
        let pos := {| row := r; col := c |} in
        let captures := getCaptureMoves board pos piece [] [] [] pos in
        let simple := getSimpleMoves board pos piece in
        if 0 <? Z.of_nat (length captures) then (allMoves ++ captures, true)
        else (allMoves ++ simple, hasCaptures)
  end.

Definition calculateAllowedMoves (board : BoardState) (turn : PlayerColor)
    : list Move :=
  let '(allMoves, hasCaptures) := foldl (allowedStep board turn) ([], false) squares in
  if hasCaptures then
    List.filter (λ m, 0 <? Z.of_nat (length (captures m))) allMoves
  else allMoves.

(** [applyMove] on board values.  [cloneBoard] is the identity on values;
    its effect on the object graph is the subject of module [Heap]. *)
Definition applyMove (board : BoardState) (move : Move) : BoardState :=
  let newBoard := board in
  match cellAt newBoard (row (from move)) (col (from move)) with
  | None => newBoard
  | Some p =>
      let newBoard := setCell newBoard (row (from move)) (col (from move)) None in
      let newBoard :=
        setCell newBoard (row (to move)) (col (to move))
          (Some {| color := color p; isKing := isKing p || becomesKing move |}) in
      foldl (λ b c, setCell b (row c) (col c) None) newBoard (captures move)
  end.

(** ** Auxiliary notions used to state and prove the properties *)

(** The pieces of the board that the chain has not captured yet: the
    measure that bounds the recursion. *)
Definition remaining (board : BoardState) (capturedInPath : list Position) : nat :=
  length (filter (λ p, p ∉ capturedInPath) (occupiedSquares board)).

(** The number of iterations a diagonal walk from row [r] in direction
    [dr] can make before it leaves the board. *)
Definition stepsLeft (dr r : Z) : nat :=
  if (0 <=? r) && (r <? 8) then Z.to_nat (if dr =? 1 then 8 - r else r + 1)
  else O.

(** What the body of [getCaptureMoves] has checked when it jumps from
    [pos] over [cap] to [land]. *)
Record jump (board : BoardState) (originalStart pos : Position) (piece : Piece)
    (capturedInPath : list Position) (cap land : Position) : Prop := {
  jump_enemy :
    ∃ enemy, cellAt board (row cap) (col cap) = Some enemy
             ∧ color enemy ≠ color piece;
  jump_fresh : cap ∉ capturedInPath;
  jump_inBoard : inBoard (row land) (col land) = true;
  jump_open :
    cellAt board (row land) (col land) = None ∨ land = originalStart;
  jump_diag : Z.odd (row land + col land) = Z.odd (row pos + col pos)
}.

(** Two candidates for the recursive call agree on every call that the body
    makes after capturing one more piece of the board. *)
Definition agreeAfterJump (board : BoardState) (cip : list Position)
    (rec1 rec2 : Position → Piece → list Position → list Position
                 → list Position → list Move) : Prop :=
  ∀ r c p, cellAt board r c = Some p → alreadyCaptured cip r c = false →
  ∀ pos' piece' caps' path',
    rec1 pos' piece' caps' (cip ++ [{| row := r; col := c |}]) path' =
    rec2 pos' piece' caps' (cip ++ [{| row := r; col := c |}]) path'.

(** The leaf that ends a chain on [land] after the capture of [cap]. *)
Definition chainEnd (start : Position) (piece : Piece)
    (caps path : list Position) (cap land : Position) : Move :=
  {| from := start; to := land; captures := caps ++ [cap];
     path := path ++ [land];
     becomesKing := isKing (nextPieceState piece (row land)) |}.

(** The moves that [f] gives for the piece of [turn] on square [rc], if
    there is one. *)
Definition pieceMoves (board : BoardState) (turn : PlayerColor)
    (f : Position → Piece → list Move) (rc : Z * Z) : list Move :=
  match cellAt board rc.1 rc.2 with
  | Some piece =>
      if colorEqb (color piece) turn then f {| row := rc.1; col := rc.2 |} piece
      else []
  | None => []
  end.

Definition chainsFrom (board : BoardState) (pos : Position) (piece : Piece)
    : list Move :=
  getCaptureMoves board pos piece [] [] [] pos.

Definition captureMovesOf (board : BoardState) (turn : PlayerColor) : list Move :=
  squares ≫= pieceMoves board turn (chainsFrom board).

Definition simpleMovesOf (board : BoardState) (turn : PlayerColor) : list Move :=
  squares ≫= pieceMoves board turn (getSimpleMoves board).

Definition isCaptureMove (m : Move) : bool := 0 <? Z.of_nat (length (captures m)).


(** Some piece of [turn] on the board has at least one capture chain. *)
Definition hasAvailableCapture (board : BoardState) (turn : PlayerColor) : Prop :=
  ∃ r c piece,
    inBoard r c = true ∧ cellAt board r c = Some piece ∧ color piece = turn
    ∧ getCaptureMoves board {| row := r; col := c |} piece [] [] []
        {| row := r; col := c |} ≠ [].

(** Pieces stand on dark squares only: squares whose [row + col] is odd. *)
Definition darkSquaresOnly (board : BoardState) : Prop :=
  ∀ r c p, cellAt board r c = Some p → Z.odd (r + c) = true.

(** The boards of a game: the initial board, and every board obtained by
    applying, with [applyMove], a move that [calculateAllowedMoves]
    returns for the board at hand. *)
Inductive reachable : BoardState → Prop :=
  | reachable_init : reachable initializeBoard
  | reachable_move board turn move :
      reachable board →
      move ∈ calculateAllowedMoves board turn →
      reachable (applyMove board move).

(** An 8x8 grid. *)
Definition wellFormed (board : BoardState) : Prop :=
  length board = 8%nat ∧ Forall (λ cells, length cells = 8%nat) board.

(** The square [(r, c)] exists in the lists of the board. *)
Definition hasCell (board : BoardState) (r c : Z) : Prop :=
  0 <= r ∧ 0 <= c
  ∧ ∃ cells, board !! Z.to_nat r = Some cells ∧ (Z.to_nat c < length cells)%nat.

(** What [applyMove] leaves on square [(r, c)] when it moves the piece [p]:
    the assignments in the order of the source, the last one winning. *)
Definition squareAfterMove (board : BoardState) (move : Move) (p : Piece)
    (r c : Z) : option Piece :=
  if bool_decide ({| row := r; col := c |} ∈ captures move) then None
  else if bool_decide ({| row := r; col := c |} = to move) then
    Some {| color := color p; isKing := isKing p || becomesKing move |}
  else if bool_decide ({| row := r; col := c |} = from move) then None
  else cellAt board r c.

(** No man stands on the row where it would have been crowned. *)
Definition noManOnPromotionRow (board : BoardState) : Prop :=
  ∀ r c p, cellAt board r c = Some p → isKing p = false →
           promotionRow (color p) r = false.

(** 1 if the cell holds a piece that satisfies [f], else 0. *)
Definition indicator (f : Piece → bool) (cell : option Piece) : Z :=
  match cell with
  | Some p => if f p then 1 else 0
  | None => 0
  end.

(** The number of squares of [l] that hold a piece satisfying [f]. *)
Definition countWhere (f : Piece → bool) (board : BoardState)
    (l : list (Z * Z)) : Z :=
  foldr (λ rc n, indicator f (cellAt board rc.1 rc.2) + n) 0 l.

(** The same sum over a list of positions. *)
Definition countAt (f : Piece → bool) (board : BoardState)
    (l : list Position) : Z :=
  foldr (λ pos n, indicator f (cellAt board (row pos) (col pos)) + n) 0 l.

Definition isOf (side : PlayerColor) (p : Piece) : bool :=
  colorEqb (color p) side.

Definition isKingOf (side : PlayerColor) (p : Piece) : bool :=
  colorEqb (color p) side && isKing p.

(** The jumps that the body of [getCaptureMoves] makes from [pos].

    A man jumps, in one of the four directions, over the adjacent square
    [cap] to the square [land] right behind it, when [land] is on the
    board, [cap] holds an enemy piece that the chain has not captured yet,
    and [land] is empty or is the start square of the chain. *)
Definition manJump (board : BoardState) (originalStart pos : Position)
    (piece : Piece) (capturedInPath : list Position) (cap land : Position)
    : Prop :=
  isKing piece = false
  ∧ ∃ dr dc,
      (dr, dc) ∈ directions
      ∧ cap = {| row := row pos + dr; col := col pos + dc |}
      ∧ land = {| row := row pos + 2 * dr; col := col pos + 2 * dc |}
      ∧ inBoard (row land) (col land) = true
      ∧ (∃ enemy, cellAt board (row cap) (col cap) = Some enemy
                  ∧ color enemy ≠ color piece)
      ∧ cap ∉ capturedInPath
      ∧ (cellAt board (row land) (col land) = None ∨ land = originalStart).

(** A king walks, in one of the four directions, over [j] empty squares
    of the board to the first piece [cap], an enemy piece that the chain
    has not captured yet, and lands on the [i]-th square behind it, the
    squares behind [cap] up to [land] being on the board and each empty or
    the start square of the chain. *)
Definition kingJump (board : BoardState) (originalStart pos : Position)
    (piece : Piece) (capturedInPath : list Position) (cap land : Position)
    : Prop :=
  isKing piece = true
  ∧ ∃ dr dc j i,
      (dr, dc) ∈ directions ∧ 0 <= j ∧ 1 <= i
      ∧ (∀ k, 1 <= k <= j →
           inBoard (row pos + k * dr) (col pos + k * dc) = true
           ∧ cellAt board (row pos + k * dr) (col pos + k * dc) = None)
      ∧ cap = {| row := row pos + (j + 1) * dr; col := col pos + (j + 1) * dc |}
      ∧ inBoard (row cap) (col cap) = true
      ∧ (∃ enemy, cellAt board (row cap) (col cap) = Some enemy
                  ∧ color enemy ≠ color piece)
      ∧ cap ∉ capturedInPath
      ∧ (∀ k, 1 <= k <= i →
           inBoard (row cap + k * dr) (col cap + k * dc) = true
           ∧ (cellAt board (row cap + k * dr) (col cap + k * dc) = None
              ∨ {| row := row cap + k * dr; col := col cap + k * dc |}
                = originalStart))
      ∧ land = {| row := row cap + i * dr; col := col cap + i * dc |}.

Definition acceptedJump (board : BoardState) (originalStart pos : Position)
    (piece : Piece) (capturedInPath : list Position) (cap land : Position)
    : Prop :=
  manJump board originalStart pos piece capturedInPath cap land
  ∨ kingJump board originalStart pos piece capturedInPath cap land.

(** ** Static evaluation of the search bot ([evaluateBoard]) *)

Module SCORES.
Definition WIN : Z := 100000.
Definition KING : Z := 800.
Definition PIECE : Z := 100.
Definition BACK_ROW : Z := 40.
Definition CENTER : Z := 15.
Definition MOBILITY : Z := 2.
Definition ADVANCE : Z := 8.
Definition DEFENSE : Z := 10.
End SCORES.

(** The [value] of the piece [p] standing on [(r, c)]. *)
Definition pieceValue (p : Piece) (r c : Z) : Z :=
  let value := 0 in
  let value := value + (if isKing p then SCORES.KING else SCORES.PIECE) in
  let value :=
    if (c >=? 2) && (c <=? 5) && (r >=? 2) && (r <=? 5) then value + SCORES.CENTER
    else value in
  let value :=
    if negb (isKing p) then
      if colorEqb (color p) WHITE then value + (7 - r) * SCORES.ADVANCE
      else value + r * SCORES.ADVANCE
    else value in
  let value :=
    if colorEqb (color p) WHITE && (r =? 7) && negb (isKing p)
    then value + SCORES.BACK_ROW else value in
  let value :=
    if colorEqb (color p) BLACK && (r =? 0) && negb (isKing p)
    then value + SCORES.BACK_ROW else value in
  value.

(** One iteration of the double loop of [evaluateBoard] on [score]. *)
Definition evaluateStep (board : BoardState) (perspectiveColor : PlayerColor)
    (score : Z) (rc : Z * Z) : Z :=
  let '(r, c) := rc in
  match cellAt board r c with
  | None => score
  | Some p =>
      let value := pieceValue p r c in
      if colorEqb (color p) perspectiveColor then score + value else score - value
  end.

Definition evaluateBoard (board : BoardState) (perspectiveColor : PlayerColor) : Z :=
  foldl (evaluateStep board perspectiveColor) 0 squares.

(** ** The search of the bot ([quiescence], [minimax], [getSmartBotMove])

    The repository holds the search in two versions: without a time limit
    (module [BotPlain]) and with one (module [BotTimed]).  What the two
    share is defined first. *)

Definition MAX_DEPTH : nat := 3.
Definition INFINITY : Z := 1000000.

(** [isMaximizing ? botColor
       : (botColor === PlayerColor.WHITE ? PlayerColor.BLACK : PlayerColor.WHITE)] *)
Definition sideToMove (isMaximizing : bool) (botColor : PlayerColor) : PlayerColor :=
  if isMaximizing then botColor
  else if colorEqb botColor WHITE then BLACK else WHITE.

(** [allMoves.length > 0 && allMoves[0].captures.length > 0] *)
Definition isCaptureAvailable (allMoves : list Move) : bool :=
  (0 <? Z.of_nat (length allMoves))
  && match allMoves with
     | m :: _ => 0 <? Z.of_nat (length (captures m))
     | [] => false
     end.

(** [moves.sort((a, b) => b.captures.length - a.captures.length)]: the
    moves in descending order of their number of captures.
    [Array.prototype.sort] is stable, so moves with the same number of
    captures keep their order, and the result is the one of inserting each
    move, from the last to the first, before the first move that has no
    more captures than it. *)
Fixpoint insertByCaptures (m : Move) (sorted : list Move) : list Move :=
  match sorted with
  | [] => [m]
  | x :: rest =>
      if (length (captures m) <? length (captures x))%nat
      then x :: insertByCaptures m rest
      else m :: x :: rest
  end.

Definition sortByCaptures (moves : list Move) : list Move :=
  foldr insertByCaptures [] moves.

Module BotPlain.

Definition MAX_Q_DEPTH : nat := 4.

(** The [for] loop of a maximizing node over the moves that are left;
    [child] is the recursive call on [nextBoard] with the window of the
    iteration. *)
Fixpoint maximize (child : BoardState → Z → Z → Z) (board : BoardState)
    (moves : list Move) (maxEval alpha beta : Z) : Z :=
  match moves with
  | [] => maxEval
  | move :: rest =>
      let nextBoard := applyMove board move in
      let evalScore := child nextBoard alpha beta in
      let maxEval := Z.max maxEval evalScore in
      let alpha := Z.max alpha evalScore in
      if beta <=? alpha then maxEval
      else maximize child board rest maxEval alpha beta
  end.

(** The [for] loop of a minimizing node. *)
Fixpoint minimize (child : BoardState → Z → Z → Z) (board : BoardState)
    (moves : list Move) (minEval alpha beta : Z) : Z :=
  match moves with
  | [] => minEval
  | move :: rest =>
      let nextBoard := applyMove board move in
      let evalScore := child nextBoard alpha beta in
      let minEval := Z.min minEval evalScore in
      let beta := Z.min beta evalScore in
      if beta <=? alpha then minEval
      else minimize child board rest minEval alpha beta
  end.

Fixpoint quiescence (qDepth : nat) (board : BoardState) (alpha beta : Z)
    (isMaximizing : bool) (botColor : PlayerColor) : Z :=
  let turn := sideToMove isMaximizing botColor in
  let allMoves := calculateAllowedMoves board turn in
  match qDepth with
  | O => evaluateBoard board botColor
  | S qDepth' =>
      if negb (isCaptureAvailable allMoves) then evaluateBoard board botColor
      else if isMaximizing then
        maximize (λ nextBoard alpha beta,
                    quiescence qDepth' nextBoard alpha beta false botColor)
          board (sortByCaptures allMoves) (- INFINITY) alpha beta
      else
        minimize (λ nextBoard alpha beta,
                    quiescence qDepth' nextBoard alpha beta true botColor)
          board (sortByCaptures allMoves) INFINITY alpha beta
  end.

Fixpoint minimax (depth : nat) (board : BoardState) (alpha beta : Z)
    (isMaximizing : bool) (botColor : PlayerColor) : Z :=
  match depth with
  | O => quiescence MAX_Q_DEPTH board alpha beta isMaximizing botColor
  | S depth' =>
      let turn := sideToMove isMaximizing botColor in
      let validMoves := calculateAllowedMoves board turn in
      if Z.of_nat (length validMoves) =? 0 then
        if isMaximizing then - SCORES.WIN + Z.of_nat depth
        else SCORES.WIN - Z.of_nat depth
      else if isMaximizing then
        maximize (λ nextBoard alpha beta,
                    minimax depth' nextBoard alpha beta false botColor)
          board (sortByCaptures validMoves) (- INFINITY) alpha beta
      else
        minimize (λ nextBoard alpha beta,
                    minimax depth' nextBoard alpha beta true botColor)
          board (sortByCaptures validMoves) INFINITY alpha beta
  end.

(** The value that the root loop of [getSmartBotMove] gives to [move]. *)
Definition moveValue (board : BoardState) (botColor : PlayerColor)
    (move : Move) : Z :=
  let nextBoard := applyMove board move in
  minimax (MAX_DEPTH - 1) nextBoard (- INFINITY) INFINITY false botColor.

(** One iteration of the root loop on [(bestMove, bestValue)]. *)
Definition rootStep (board : BoardState) (botColor : PlayerColor)
    (best : option Move * Z) (move : Move) : option Move * Z :=
  let '(bestMove, bestValue) := best in
  let moveValue := moveValue board botColor move in
  if moveValue >? bestValue then (Some move, moveValue)
  else (bestMove, bestValue).

(** [shuffle] is the effect of [validMoves.sort(() => Math.random() - 0.5)]. *)
Definition getSmartBotMove (shuffle : list Move → list Move)
    (board : BoardState) (botColor : PlayerColor) : option Move :=
  let validMoves := calculateAllowedMoves board botColor in
  if Z.of_nat (length validMoves) =? 0 then None
  else if Z.of_nat (length validMoves) =? 1 then head validMoves
  else
    let validMoves := sortByCaptures (shuffle validMoves) in
    let '(bestMove, bestValue) :=
      foldl (rootStep board botColor) (None, - INFINITY) validMoves in
    match bestMove with
    | Some move => Some move
    | None => head validMoves
    end.

(** The value of a position by exhaustive search to the same depth: the
    maximum, or minimum, over all moves, with no window and no cut. *)
Fixpoint exhaustiveQuiescence (qDepth : nat) (board : BoardState)
    (isMaximizing : bool) (botColor : PlayerColor) : Z :=
  let turn := sideToMove isMaximizing botColor in
  let allMoves := calculateAllowedMoves board turn in
  match qDepth with
  | O => evaluateBoard board botColor
  | S qDepth' =>
      if negb (isCaptureAvailable allMoves) then evaluateBoard board botColor
      else if isMaximizing then
        foldr Z.max (- INFINITY)
          ((λ move, exhaustiveQuiescence qDepth' (applyMove board move) false
                      botColor) <$> allMoves)
      else
        foldr Z.min INFINITY
          ((λ move, exhaustiveQuiescence qDepth' (applyMove board move) true
                      botColor) <$> allMoves)
  end.

Fixpoint exhaustiveMinimax (depth : nat) (board : BoardState)
    (isMaximizing : bool) (botColor : PlayerColor) : Z :=
  match depth with
  | O => exhaustiveQuiescence MAX_Q_DEPTH board isMaximizing botColor
  | S depth' =>
      let turn := sideToMove isMaximizing botColor in
      let validMoves := calculateAllowedMoves board turn in
      if Z.of_nat (length validMoves) =? 0 then
        if isMaximizing then - SCORES.WIN + Z.of_nat depth
        else SCORES.WIN - Z.of_nat depth
      else if isMaximizing then
        foldr Z.max (- INFINITY)
          ((λ move, exhaustiveMinimax depth' (applyMove board move) false
                      botColor) <$> validMoves)
      else
        foldr Z.min INFINITY
          ((λ move, exhaustiveMinimax depth' (applyMove board move) true
                      botColor) <$> validMoves)
  end.

(** What a search with the window [(alpha, beta)] tells about the value
    [exact] of the position: a result at or below [alpha] bounds the value
    from above, a result at or above [beta] bounds it from below, a result
    inside the window is the value. *)
Definition windowed (alpha beta exact result : Z) : Prop :=
  (result <= alpha → exact <= result)
  ∧ (beta <= result → result <= exact)
  ∧ (alpha < result < beta → result = exact).

End BotPlain.

(** The search with a time limit.  [Date.now()] is an input from outside:
    [now n] is what the [n]-th call of the run returns.  The state of a
    run is the number of calls so far and the module variable
    [searchStartTime]. *)
Module BotTimed.

Definition MAX_Q_DEPTH : nat := 2.
Definition TIMEOUT_MS : Z := 500.

Record SearchState := {
  reads : nat;
  searchStartTime : Z
}.

Definition Search (A : Type) : Type := SearchState → A * SearchState.

Definition ret {A} (a : A) : Search A := λ s, (a, s).

Definition bind {A B} (m : Search A) (f : A → Search B) : Search B :=
  λ s, let '(a, s') := m s in f a s'.

Notation "'do!' x := m 'in' k" := (bind m (λ x, k))
  (at level 10, x name, m at level 100, k at level 200).

Section Clock.
Variable now : nat → Z.

(** [Date.now()] *)
Definition dateNow : Search Z :=
  λ s, (now (reads s),
        {| reads := S (reads s); searchStartTime := searchStartTime s |}).

(** [Date.now() - searchStartTime > TIMEOUT_MS] *)
Definition timedOut : Search bool :=
  do! t := dateNow in
  λ s, (t - searchStartTime s >? TIMEOUT_MS, s).

(** [searchStartTime = Date.now()] *)
Definition startClock : Search unit :=
  do! t := dateNow in
  λ s, (tt, {| reads := reads s; searchStartTime := t |}).

Fixpoint maximize (child : BoardState → Z → Z → Search Z) (board : BoardState)
    (moves : list Move) (maxEval alpha beta : Z) : Search Z :=
  match moves with
  | [] => ret maxEval
  | move :: rest =>
      let nextBoard := applyMove board move in
      do! evalScore := child nextBoard alpha beta in
      let maxEval := Z.max maxEval evalScore in
      let alpha := Z.max alpha evalScore in
      if beta <=? alpha then ret maxEval
      else maximize child board rest maxEval alpha beta
  end.

Fixpoint minimize (child : BoardState → Z → Z → Search Z) (board : BoardState)
    (moves : list Move) (minEval alpha beta : Z) : Search Z :=
  match moves with
  | [] => ret minEval
  | move :: rest =>
      let nextBoard := applyMove board move in
      do! evalScore := child nextBoard alpha beta in
      let minEval := Z.min minEval evalScore in
      let beta := Z.min beta evalScore in
      if beta <=? alpha then ret minEval
      else minimize child board rest minEval alpha beta
  end.

Fixpoint quiescence (qDepth : nat) (board : BoardState) (alpha beta : Z)
    (isMaximizing : bool) (botColor : PlayerColor) : Search Z :=
  do! late := timedOut in
  if late then ret (evaluateBoard board botColor)
  else
    let turn := sideToMove isMaximizing botColor in
    let allMoves := calculateAllowedMoves board turn in
    match qDepth with
    | O => ret (evaluateBoard board botColor)
    | S qDepth' =>
        if negb (isCaptureAvailable allMoves) then
          ret (evaluateBoard board botColor)
        else if isMaximizing then
          maximize (λ nextBoard alpha beta,
                      quiescence qDepth' nextBoard alpha beta false botColor)
            board (sortByCaptures allMoves) (- INFINITY) alpha beta
        else
          minimize (λ nextBoard alpha beta,
                      quiescence qDepth' nextBoard alpha beta true botColor)
            board (sortByCaptures allMoves) INFINITY alpha beta
    end.

Fixpoint minimax (depth : nat) (board : BoardState) (alpha beta : Z)
    (isMaximizing : bool) (botColor : PlayerColor) : Search Z :=
  do! late := timedOut in
  if late then ret (evaluateBoard board botColor)
  else
    match depth with
    | O => quiescence MAX_Q_DEPTH board alpha beta isMaximizing botColor
    | S depth' =>
        let turn := sideToMove isMaximizing botColor in
        let validMoves := calculateAllowedMoves board turn in
        if Z.of_nat (length validMoves) =? 0 then
          ret (if isMaximizing then - SCORES.WIN + Z.of_nat depth
               else SCORES.WIN - Z.of_nat depth)
        else if isMaximizing then
          maximize (λ nextBoard alpha beta,
                      minimax depth' nextBoard alpha beta false botColor)
            board (sortByCaptures validMoves) (- INFINITY) alpha beta
        else
          minimize (λ nextBoard alpha beta,
                      minimax depth' nextBoard alpha beta true botColor)
            board (sortByCaptures validMoves) INFINITY alpha beta
    end.

(** The root loop over the moves that are left, with its [break] when the
    time is up. *)
Fixpoint rootLoop (board : BoardState) (botColor : PlayerColor)
    (moves : list Move) (bestMove : option Move) (bestValue : Z)
    : Search (option Move) :=
  match moves with
  | [] => ret bestMove
  | move :: rest =>
      do! late := timedOut in
      if late then ret bestMove
      else
        let nextBoard := applyMove board move in
        do! moveValue :=
          minimax (MAX_DEPTH - 1) nextBoard (- INFINITY) INFINITY false botColor in
        if moveValue >? bestValue then rootLoop board botColor rest (Some move) moveValue
        else rootLoop board botColor rest bestMove bestValue
  end.

(** [shuffle] is the effect of [validMoves.sort(() => Math.random() - 0.5)]. *)
Definition getSmartBotMove (shuffle : list Move → list Move)
    (board : BoardState) (botColor : PlayerColor) : Search (option Move) :=
  let validMoves := calculateAllowedMoves board botColor in
  if Z.of_nat (length validMoves) =? 0 then ret None
  else if Z.of_nat (length validMoves) =? 1 then ret (head validMoves)
  else
    do! _ := startClock in
    let validMoves := sortByCaptures (shuffle validMoves) in
    do! bestMove := rootLoop board botColor validMoves None (- INFINITY) in
    ret match bestMove with
        | Some move => Some move
        | None => head validMoves
        end.

(** From the state [s] on, no reading of the clock is more than
    [TIMEOUT_MS] after [searchStartTime]. *)
Definition inTime (s : SearchState) : Prop :=
  ∀ n, (reads s ≤ n)%nat → now n - searchStartTime s <= TIMEOUT_MS.

(** [m] returns [a] whenever it is started in time, and is then still in
    time. *)
Definition returnsInTime {A} (m : Search A) (a : A) : Prop :=
  ∀ s, inTime s → ∃ s', m s = (a, s') ∧ inTime s'.

End Clock.

(** [minimax] without its readings of the clock. *)
Fixpoint minimaxInTime (depth : nat) (board : BoardState) (alpha beta : Z)
    (isMaximizing : bool) (botColor : PlayerColor) : Z :=
  match depth with
  | O => BotPlain.quiescence MAX_Q_DEPTH board alpha beta isMaximizing botColor
  | S depth' =>
      let turn := sideToMove isMaximizing botColor in
      let validMoves := calculateAllowedMoves board turn in
      if Z.of_nat (length validMoves) =? 0 then
        if isMaximizing then - SCORES.WIN + Z.of_nat depth
        else SCORES.WIN - Z.of_nat depth
      else if isMaximizing then
        BotPlain.maximize (λ nextBoard alpha beta,
                    minimaxInTime depth' nextBoard alpha beta false botColor)
          board (sortByCaptures validMoves) (- INFINITY) alpha beta
      else
        BotPlain.minimize (λ nextBoard alpha beta,
                    minimaxInTime depth' nextBoard alpha beta true botColor)
          board (sortByCaptures validMoves) INFINITY alpha beta
  end.

(** The value of a position by exhaustive search to the depth of this
    version. *)
Fixpoint exhaustiveMinimax (depth : nat) (board : BoardState)
    (isMaximizing : bool) (botColor : PlayerColor) : Z :=
  match depth with
  | O => BotPlain.exhaustiveQuiescence MAX_Q_DEPTH board isMaximizing botColor
  | S depth' =>
      let turn := sideToMove isMaximizing botColor in
      let validMoves := calculateAllowedMoves board turn in
      if Z.of_nat (length validMoves) =? 0 then
        if isMaximizing then - SCORES.WIN + Z.of_nat depth
        else SCORES.WIN - Z.of_nat depth
      else if isMaximizing then
        foldr Z.max (- INFINITY)
          ((λ move, exhaustiveMinimax depth' (applyMove board move) false
                      botColor) <$> validMoves)
      else
        foldr Z.min INFINITY
          ((λ move, exhaustiveMinimax depth' (applyMove board move) true
                      botColor) <$> validMoves)
  end.

End BotTimed.

(** ** Game store ([src/services/gameService.ts])

    The collection [games] of the document store is a finite map from game
    ids to records.  The [board] field holds [JSON.stringify(board)] in the
    source; the model keeps the board itself ([JSON.parse] of that
    string). *)

Record LastMove := {
  lastMove_from : Position;
  lastMove_to : Position;
  lastMove_path : option (list Position);
  lastMove_ts : Z
}.

Record Players := { white : option string; black : option string }.

Record PreviousState := {
  previous_board : BoardState;
  previous_turn : PlayerColor;
  previous_halfMoveClock : Z;
  previous_lastMove : option LastMove
}.

Record TakebackRequest := { requesterId : string; requestedAt : Z }.

Record Metadata := { isRandomColor : bool }.

Record GameData := {
  board : BoardState;
  turn : PlayerColor;
  players : Players;
  status : GameStatus;
  winner : option PlayerColor;
  version : Z;
  lastMove : option LastMove;
  halfMoveClock : Z;
  rematchId : option string;
  createdAt : Z;
  expireAt : Z;
  metadata : option Metadata;
  previousState : option PreviousState;
  takebackRequest : option TakebackRequest
}.

(** How the promise of an operation settles. *)
Inductive outcome (A : Type) :=
  | Resolved (a : A)
  | Rejected (message : string).
Arguments Resolved {A} a.
Arguments Rejected {A} message.

(** The function passed to [db.runTransaction]: it reads the store the
    transaction started from and either throws ([inl]) or returns a value
    with the store as its buffered [transaction.update]s leave it. *)
Definition Transaction (A : Type) : Type :=
  gmap string GameData → string + (A * gmap string GameData).

(** The writes of a transaction are committed when its function returns,
    and dropped when it throws. *)
Definition runTransaction {A} (db : gmap string GameData) (body : Transaction A)
    : outcome A * gmap string GameData :=
  match body db with
  | inl message => (Rejected message, db)
  | inr (a, db') => (Resolved a, db')
  end.

Definition joinGame (db : gmap string GameData) (gameId playerId : string)
    : outcome unit * gmap string GameData :=
  runTransaction db (λ tx,
    match tx !! gameId with
    | None => inl "Game not found"%string
    | Some data =>
        if bool_decide (white (players data) = Some playerId)
           || bool_decide (black (players data) = Some playerId)
        then inr (tt, tx)
        else if bool_decide (black (players data) = None)
                && bool_decide (white (players data) ≠ None) then
          inr (tt, <[gameId :=
            {| board := board data; turn := turn data;
               players := {| white := white (players data);
                             black := Some playerId |};
               status := ACTIVE; winner := winner data;
               version := version data + 1; lastMove := lastMove data;
               halfMoveClock := halfMoveClock data;
               rematchId := rematchId data; createdAt := createdAt data;
               expireAt := expireAt data; metadata := metadata data;
               previousState := previousState data;
               takebackRequest := takebackRequest data |}]> tx)
        else if bool_decide (white (players data) = None)
                && bool_decide (black (players data) ≠ None) then
          inr (tt, <[gameId :=
            {| board := board data; turn := turn data;
               players := {| white := Some playerId;
                             black := black (players data) |};
               status := ACTIVE; winner := winner data;
               version := version data + 1; lastMove := lastMove data;
               halfMoveClock := halfMoveClock data;
               rematchId := rematchId data; createdAt := createdAt data;
               expireAt := expireAt data; metadata := metadata data;
               previousState := previousState data;
               takebackRequest := takebackRequest data |}]> tx)
        else inl "Game is full"%string
    end).

(** The piece counts of the 1v1 king draw check:
    [(whiteCount, whiteKings, blackCount, blackKings)]. *)
Definition countPieces (newBoard : BoardState) : Z * Z * Z * Z :=
  foldl (λ '(whiteCount, whiteKings, blackCount, blackKings) '(r, c),
    match cellAt newBoard r c with
    | Some p =>
        if colorEqb (color p) WHITE then
          (whiteCount + 1, if isKing p then whiteKings + 1 else whiteKings,
           blackCount, blackKings)
        else
          (whiteCount, whiteKings,
           blackCount + 1, if isKing p then blackKings + 1 else blackKings)
    | None => (whiteCount, whiteKings, blackCount, blackKings)
    end) (0, 0, 0, 0) squares.

Definition oneDayMs : Z := 24 * 60 * 60 * 1000.

(** [performMove]; [now] and [ts] are the two readings of [Date.now()].
    Before the transaction the source reads
    [currentBoard[move.from.row][move.from.col]] and runs [applyMove]; the
    model follows it for a move whose squares lie on the 8x8 board of
    [gameData] (for a row outside the board these reads throw a
    [TypeError] before the transaction starts, and the store stays as it
    is). *)
Definition performMove (db : gmap string GameData) (gameId : string)
    (gameData : GameData) (move : Move) (nextTurn : PlayerColor) (now ts : Z)
    : outcome unit * gmap string GameData :=
  let currentBoard := board gameData in
  let movingPiece := cellAt currentBoard (row (from move)) (col (from move)) in
  let isPawnMove :=
    match movingPiece with Some p => negb (isKing p) | None => false end in
  let isCapture := 0 <? Z.of_nat (length (captures move)) in
  let newBoard := applyMove currentBoard move in
  let nextPlayerMoves := calculateAllowedMoves newBoard nextTurn in
  let '(status1, winner1) :=
    if Z.of_nat (length nextPlayerMoves) =? 0
    then (FINISHED, Some (turn gameData))
    else (status gameData, None) in
  let '(whiteCount, whiteKings, blackCount, blackKings) := countPieces newBoard in
  let status2 :=
    if bool_decide (status1 ≠ FINISHED) && (whiteCount =? 1) && (whiteKings =? 1)
       && (blackCount =? 1) && (blackKings =? 1)
    then DRAW else status1 in
  runTransaction db (λ tx,
    match tx !! gameId with
    | None => inl "Game missing"%string
    | Some freshData =>
        if negb (version freshData =? version gameData) then
          inl "Game state has changed, reload recommended"%string
        else
          let newHalfMoveClock :=
            if isPawnMove || isCapture then 0 else halfMoveClock freshData + 1 in
          let status3 :=
            if bool_decide (status2 ≠ FINISHED) && bool_decide (status2 ≠ DRAW)
            then if newHalfMoveClock >=? 60 then DRAW else status2
            else status2 in
          let newExpireAt := now + oneDayMs in
          let previousState :=
            {| previous_board := board freshData;
               previous_turn := turn freshData;
               previous_halfMoveClock := halfMoveClock freshData;
               previous_lastMove := lastMove freshData |} in
          inr (tt, <[gameId :=
            {| board := newBoard; turn := nextTurn;
               players := players freshData; status := status3;
               winner := winner1; version := version freshData + 1;
               lastMove :=
                 Some {| lastMove_from := from move; lastMove_to := to move;
                         lastMove_path := Some (path move); lastMove_ts := ts |};
               halfMoveClock := newHalfMoveClock;
               rematchId := rematchId freshData;
               createdAt := createdAt freshData; expireAt := newExpireAt;
               metadata := metadata freshData;
               previousState := Some previousState;
               takebackRequest := None |}]> tx)
    end).

(** The update [{ takebackRequest: null }]. *)
Definition clearTakebackRequest (data : GameData) : GameData :=
  {| board := board data; turn := turn data; players := players data;
     status := status data; winner := winner data; version := version data;
     lastMove := lastMove data; halfMoveClock := halfMoveClock data;
     rematchId := rematchId data; createdAt := createdAt data;
     expireAt := expireAt data; metadata := metadata data;
     previousState := previousState data; takebackRequest := None |}.

Definition resolveTakeback (db : gmap string GameData) (gameId : string)
    (accepted : bool) : outcome unit * gmap string GameData :=
  runTransaction db (λ tx,
    match tx !! gameId with
    | None => inr (tt, tx)
    | Some data =>
        if negb accepted then
          inr (tt, <[gameId := clearTakebackRequest data]> tx)
        else
          match previousState data with
          | Some previous =>
              inr (tt, <[gameId :=
                {| board := previous_board previous;
                   turn := previous_turn previous;
                   players := players data; status := status data;
                   winner := winner data; version := version data + 1;
                   lastMove := previous_lastMove previous;
                   halfMoveClock := previous_halfMoveClock previous;
                   rematchId := rematchId data; createdAt := createdAt data;
                   expireAt := expireAt data; metadata := metadata data;
                   previousState := None; takebackRequest := None |}]> tx)
          | None => inr (tt, <[gameId := clearTakebackRequest data]> tx)
          end
    end).

(** The later revision of [resolveTakeback] kept in the same file, which
    also writes [version: data.version + 1] when the request is only
    cleared. *)
Module LaterRevision.

Definition clearTakebackRequest (data : GameData) : GameData :=
  {| board := board data; turn := turn data; players := players data;
     status := status data; winner := winner data; version := version data + 1;
     lastMove := lastMove data; halfMoveClock := halfMoveClock data;
     rematchId := rematchId data; createdAt := createdAt data;
     expireAt := expireAt data; metadata := metadata data;
     previousState := previousState data; takebackRequest := None |}.

Definition resolveTakeback (db : gmap string GameData) (gameId : string)
    (accepted : bool) : outcome unit * gmap string GameData :=
  runTransaction db (λ tx,
    match tx !! gameId with
    | None => inr (tt, tx)
    | Some data =>
        if negb accepted then
          inr (tt, <[gameId := clearTakebackRequest data]> tx)
        else
          match previousState data with
          | Some previous =>
              inr (tt, <[gameId :=
                {| board := previous_board previous;
                   turn := previous_turn previous;
                   players := players data; status := status data;
                   winner := winner data; version := version data + 1;
                   lastMove := previous_lastMove previous;
                   halfMoveClock := previous_halfMoveClock previous;
                   rematchId := rematchId data; createdAt := createdAt data;
                   expireAt := expireAt data; metadata := metadata data;
                   previousState := None; takebackRequest := None |}]> tx)
          | None => inr (tt, <[gameId := clearTakebackRequest data]> tx)
          end
    end).

End LaterRevision.

(** ** The other operations of the game store

    [generateId()] draws the id of a new game at random and [Date.now()]
    reads the clock; the id drawn and the clock readings are arguments of
    the models, in the order in which the source obtains them. *)

(** [preferredColor === color ? playerId : null] *)
Definition seatFor (preferredColor color : PlayerColor) (playerId : string)
    : option string :=
  if colorEqb preferredColor color then Some playerId else None.

(** [createGame]: [gameId] is the id drawn by [generateId()], [nowExpire]
    and [nowCreated] the two readings of the clock.  [set] stores the
    record under the id, replacing a record that has it. *)
Definition createGame (db : gmap string GameData) (gameId playerId : string)
    (preferredColor : PlayerColor) (isRandomColor : bool)
    (initialBoard : option BoardState) (nowExpire nowCreated : Z)
    : outcome string * gmap string GameData :=
  let board := match initialBoard with Some b => b | None => initializeBoard end in
  let gameData :=
    {| board := board; turn := WHITE;
       players := {| white := seatFor preferredColor WHITE playerId;
                     black := seatFor preferredColor BLACK playerId |};
       status := WAITING; winner := None; version := 0; lastMove := None;
       halfMoveClock := 0; rematchId := None; createdAt := nowCreated;
       expireAt := nowExpire + oneDayMs;
       metadata := Some {| isRandomColor := isRandomColor |};
       previousState := None; takebackRequest := None |} in
  (Resolved gameId, <[gameId := gameData]> db).

(** [doc(gameId).update(fields)] outside a transaction: the store rejects
    the update of a document that does not exist. *)
Definition updateDoc (db : gmap string GameData) (gameId : string)
    (fields : GameData → GameData) : outcome unit * gmap string GameData :=
  match db !! gameId with
  | Some data => (Resolved tt, <[gameId := fields data]> db)
  | None => (Rejected "not-found", db)
  end.

Definition requestTakeback (db : gmap string GameData) (gameId playerId : string)
    (now : Z) : outcome unit * gmap string GameData :=
  updateDoc db gameId (λ data,
    {| board := board data; turn := turn data; players := players data;
       status := status data; winner := winner data; version := version data;
       lastMove := lastMove data; halfMoveClock := halfMoveClock data;
       rematchId := rematchId data; createdAt := createdAt data;
       expireAt := expireAt data; metadata := metadata data;
       previousState := previousState data;
       takebackRequest :=
         Some {| requesterId := playerId; requestedAt := now |} |}).

(** The update [{ status: FINISHED, winner, version: version + 1 }] of
    [resignGame] and [declareWinner]. *)
Definition finishWith (winner : PlayerColor) (data : GameData) : GameData :=
  {| board := board data; turn := turn data; players := players data;
     status := FINISHED; winner := Some winner; version := version data + 1;
     lastMove := lastMove data; halfMoveClock := halfMoveClock data;
     rematchId := rematchId data; createdAt := createdAt data;
     expireAt := expireAt data; metadata := metadata data;
     previousState := previousState data;
     takebackRequest := takebackRequest data |}.

Definition resignGame (db : gmap string GameData) (gameId playerId : string)
    : outcome unit * gmap string GameData :=
  runTransaction db (λ tx,
    match tx !! gameId with
    | None => inr (tt, tx)
    | Some data =>
        let winner := None in
        let winner :=
          if bool_decide (white (players data) = Some playerId) then Some BLACK
          else winner in
        let winner :=
          if bool_decide (black (players data) = Some playerId) then Some WHITE
          else winner in
        match winner with
        | Some winner => inr (tt, <[gameId := finishWith winner data]> tx)
        | None => inr (tt, tx)
        end
    end).

Definition declareWinner (db : gmap string GameData) (gameId : string)
    (winner : PlayerColor) : outcome unit * gmap string GameData :=
  updateDoc db gameId (finishWith winner).

(** [myOldColor === WHITE ? BLACK : WHITE] *)
Definition otherColor (c : PlayerColor) : PlayerColor :=
  if colorEqb c WHITE then BLACK else WHITE.

(** [proposeRematch]; [newGameId], [nowExpire] and [nowCreated] are what
    the inner [createGame] draws and reads.  [if (data.rematchId)] holds
    for a stored id other than the empty string. *)
Definition proposeRematch (db : gmap string GameData)
    (oldGameId myPlayerId : string) (myOldColor : PlayerColor) (isRandom : bool)
    (newGameId : string) (nowExpire nowCreated : Z)
    : outcome string * gmap string GameData :=
  runTransaction db (λ tx,
    match tx !! oldGameId with
    | None => inl "Game not found"%string
    | Some data =>
        match rematchId data with
        | Some existing =>
            if bool_decide (existing ≠ ""%string) then inr (existing, tx)
            else
              let newColor := otherColor myOldColor in
              let tx' := (createGame tx newGameId myPlayerId newColor isRandom
                            None nowExpire nowCreated).2 in
              inr (newGameId,
                   alter (λ d,
                     {| board := board d; turn := turn d; players := players d;
                        status := status d; winner := winner d;
                        version := version d; lastMove := lastMove d;
                        halfMoveClock := halfMoveClock d;
                        rematchId := Some newGameId; createdAt := createdAt d;
                        expireAt := expireAt d; metadata := metadata d;
                        previousState := previousState d;
                        takebackRequest := takebackRequest d |}) oldGameId tx')
        | None =>
            let newColor := otherColor myOldColor in
            let tx' := (createGame tx newGameId myPlayerId newColor isRandom
                          None nowExpire nowCreated).2 in
            inr (newGameId,
                 alter (λ d,
                   {| board := board d; turn := turn d; players := players d;
                      status := status d; winner := winner d;
                      version := version d; lastMove := lastMove d;
                      halfMoveClock := halfMoveClock d;
                      rematchId := Some newGameId; createdAt := createdAt d;
                      expireAt := expireAt d; metadata := metadata d;
                      previousState := previousState d;
                      takebackRequest := takebackRequest d |}) oldGameId tx')
        end
    end).

(** What every operation of the store keeps of a stored game: the version
    does not go down, the creation time stays, and a seat that is taken
    keeps its player. *)
Definition gameKept (d d' : GameData) : Prop :=
  version d <= version d'
  ∧ createdAt d' = createdAt d
  ∧ (∀ p, white (players d) = Some p → white (players d') = Some p)
  ∧ (∀ p, black (players d) = Some p → black (players d') = Some p).

(** One operation of a client on the store.  The id of a created game is
    new: [generateId()] is assumed not to draw an id already in use. *)
Inductive storeStep (db : gmap string GameData) : gmap string GameData → Prop :=
  | step_createGame gameId playerId preferredColor isRandomColor initialBoard
      nowExpire nowCreated :
      db !! gameId = None →
      storeStep db (createGame db gameId playerId preferredColor isRandomColor
                      initialBoard nowExpire nowCreated).2
  | step_joinGame gameId playerId :
      storeStep db (joinGame db gameId playerId).2
  | step_performMove gameId gameData move nextTurn now ts :
      storeStep db (performMove db gameId gameData move nextTurn now ts).2
  | step_requestTakeback gameId playerId now :
      storeStep db (requestTakeback db gameId playerId now).2
  | step_resolveTakeback gameId accepted :
      storeStep db (resolveTakeback db gameId accepted).2
  | step_resignGame gameId playerId :
      storeStep db (resignGame db gameId playerId).2
  | step_declareWinner gameId winner :
      storeStep db (declareWinner db gameId winner).2
  | step_proposeRematch oldGameId myPlayerId myOldColor isRandom newGameId
      nowExpire nowCreated :
      db !! newGameId = None →
      storeStep db (proposeRematch db oldGameId myPlayerId myOldColor isRandom
                      newGameId nowExpire nowCreated).2.

(** The stores reached from [db] by any number of operations. *)
Inductive storeSteps (db : gmap string GameData) : gmap string GameData → Prop :=
  | steps_refl : storeSteps db db
  | steps_step db' db'' :
      storeSteps db db' → storeStep db' db'' → storeSteps db db''.

(** ** [applyMove] on the object graph

    [applyMove] works on JavaScript objects: the board is an array of row
    arrays whose elements are [null] or piece objects, all reached through
    references, and [cloneBoard] and the assignments of [applyMove]
    allocate and mutate such objects.  Module [Heap] models the objects in
    a store, so that what the function leaves untouched can be stated. *)

Module Heap.

(** [applyMove] on board values, as opposed to [Heap.applyMove] below. *)
Abbreviation applyMoveValue := applyMove.

Abbreviation loc := positive.

(** A value held by an array element or a variable. *)
Inductive value :=
  | VNull
  | VRef (l : loc).

Inductive object :=
  | OArray (elems : list value)
  | OPiece (p : Piece).

Abbreviation heap := (gmap loc object).

(** Computations on the heap.  [None]: the run leaves the modelled
    fragment, that is, an index is applied to [null] or [undefined] (a
    [TypeError] in the source) or lies outside its array (where JavaScript
    would read [undefined] or grow the array). *)
Definition M (A : Type) : Type := heap → option (A * heap).

Definition ret {A} (a : A) : M A := λ h, Some (a, h).

Definition bind {A B} (m : M A) (f : A → M B) : M B :=
  λ h, match m h with Some (a, h') => f a h' | None => None end.

Definition fail {A} : M A := λ _, None.

Notation "'let!' x := m 'in' k" := (bind m (λ x, k))
  (at level 10, x name, m at level 100, k at level 200).

(** A new object. *)
Definition alloc (o : object) : M loc :=
  λ h, let l := fresh (dom h) in Some (l, <[l := o]> h).

Definition readArray (v : value) : M (list value) :=
  λ h, match v with
       | VRef l => match h !! l with
                   | Some (OArray elems) => Some (elems, h)
                   | _ => None
                   end
       | VNull => None
       end.

Definition readPiece (l : loc) : M Piece :=
  λ h, match h !! l with
       | Some (OPiece p) => Some (p, h)
       | _ => None
       end.

(** [array[i]] *)
Definition getIndex (array : value) (i : Z) : M value :=
  let! elems := readArray array in
  if 0 <=? i then
    match elems !! Z.to_nat i with Some v => ret v | None => fail end
  else fail.

(** [array[i] = v] *)
Definition setIndex (array : value) (i : Z) (v : value) : M unit :=
  let! elems := readArray array in
  match array with
  | VRef l =>
      if (0 <=? i) && (i <? Z.of_nat (length elems)) then
        λ h, Some (tt, <[l := OArray (<[Z.to_nat i := v]> elems)]> h)
      else fail
  | VNull => fail
  end.

(** [xs.map(f)] and [xs.forEach(f)] *)
Fixpoint arrayMap {A B} (f : A → M B) (xs : list A) : M (list B) :=
  match xs with
  | [] => ret []
  | x :: xs' => let! y := f x in let! ys := arrayMap f xs' in ret (y :: ys)
  end.

Fixpoint forEach {A} (f : A → M unit) (xs : list A) : M unit :=
  match xs with
  | [] => ret tt
  | x :: xs' => let! _ := f x in forEach f xs'
  end.

(** [p ? { ...p } : null] *)
Definition cloneCell (p : value) : M value :=
  match p with
  | VNull => ret VNull
  | VRef l => let! piece := readPiece l in 
      let! l' := alloc (OPiece piece) in ret (VRef l')
  end.

(** [row.map(p => p ? { ...p } : null)] *)
Definition cloneRow (row : value) : M value :=
  let! cells := readArray row in
  let! cells' := arrayMap cloneCell cells in
  let! l := alloc (OArray cells') in
  ret (VRef l).

Definition cloneBoard (board : value) : M value :=
  let! rows := readArray board in
  let! rows' := arrayMap cloneRow rows in
  let! l := alloc (OArray rows') in
  ret (VRef l).

(** [newBoard[r][c] = v] *)
Definition setSquare (newBoard : value) (r c : Z) (v : value) : M unit :=
  let! cells := getIndex newBoard r in
  setIndex cells c v.

Definition applyMove (board : value) (move : Move) : M value :=
  let! newBoard := cloneBoard board in
  let! fromRow := getIndex newBoard (row (from move)) in
  let! p := getIndex fromRow (col (from move)) in
  match p with
  | VNull => ret newBoard
  | VRef pl =>
      let! piece := readPiece pl in
      let! _ := setSquare newBoard (row (from move)) (col (from move)) VNull in
      let! toRow := getIndex newBoard (row (to move)) in
      let! moved := alloc (OPiece {| color := color piece;
                                     isKing := isKing piece || becomesKing move |}) in
      let! _ := setIndex toRow (col (to move)) (VRef moved) in
      let! _ := forEach (λ c, setSquare newBoard (row c) (col c) VNull)
                  (captures move) in
      ret newBoard
  end.

(** The board value that a reference denotes in a heap. *)
Definition readCell (h : heap) (v : value) : option (option Piece) :=
  match v with
  | VNull => Some None
  | VRef l => match h !! l with
              | Some (OPiece p) => Some (Some p)
              | _ => None
              end
  end.

Definition readRow (h : heap) (v : value) : option (list (option Piece)) :=
  match v with
  | VRef l => match h !! l with
              | Some (OArray cells) => mapM (readCell h) cells
              | _ => None
              end
  | VNull => None
  end.

Definition readBoard (h : heap) (v : value) : option BoardState :=
  match v with
  | VRef l => match h !! l with
              | Some (OArray rows) => mapM (readRow h) rows
              | _ => None
              end
  | VNull => None
  end.

(** The objects of a board value, allocated in row-major order. *)
Definition storeCell (cell : option Piece) : M value :=
  match cell with
  | None => ret VNull
  | Some p => let! l := alloc (OPiece p) in ret (VRef l)
  end.

Definition storeRow (cells : list (option Piece)) : M value :=
  let! cells' := arrayMap storeCell cells in
  let! l := alloc (OArray cells') in
  ret (VRef l).

Definition storeBoard (B : BoardState) : M value :=
  let! rows := arrayMap storeRow B in
  let! l := alloc (OArray rows) in
  ret (VRef l).

(** The array at [l] denotes the row [cellsB]. *)
Definition rowDenotes (h : heap) (l : loc) (cellsB : list (option Piece)) : Prop :=
  ∃ cells, h !! l = Some (OArray cells)
           ∧ Forall2 (λ v cB, readCell h v = Some cB) cells cellsB.

(** The board at [lb] with row arrays [rows] was built by [cloneBoard] in
    a run that started from [h0]: its arrays are new objects, pairwise
    distinct, nothing of [h0] has changed, and it denotes [B]. *)
Record ownsBoard (h0 h : heap) (lb : loc) (rows : list loc) (B : BoardState)
    : Prop := {
  owns_frame : h0 ⊆ h;
  owns_board : h !! lb = Some (OArray (VRef <$> rows));
  owns_board_new : h0 !! lb = None;
  owns_board_row : lb ∉ rows;
  owns_rows_distinct : NoDup rows;
  owns_rows_new : Forall (λ l, h0 !! l = None) rows;
  owns_cells : Forall2 (rowDenotes h) rows B
}.

End Heap.

(** ** Positions used in the examples *)

Definition whiteMan : Piece := {| color := WHITE; isKing := false |}.
Definition blackMan : Piece := {| color := BLACK; isKing := false |}.

(** The double capture of the specification: a white man on (5,4), black
    men on (4,3) and (2,1). *)
Definition doubleCaptureBoard : BoardState :=
  setCell (setCell (setCell emptyBoard 5 4 (Some whiteMan)) 4 3 (Some blackMan))
    2 1 (Some blackMan).

Definition doubleCaptureMove : Move :=
  {| from := {| row := 5; col := 4 |}; to := {| row := 1; col := 0 |};
     captures := [{| row := 4; col := 3 |}; {| row := 2; col := 1 |}];
     path := [{| row := 3; col := 2 |}; {| row := 1; col := 0 |}];
     becomesKing := false |}.

(** A white man on (2,1) jumps the black man on (1,2), lands on its
    promotion row on (0,3) and goes on, as a king, over the distant black
    man on (3,6). *)
Definition promotionBoard : BoardState :=
  setCell (setCell (setCell emptyBoard 2 1 (Some whiteMan)) 1 2 (Some blackMan))
    3 6 (Some blackMan).

Definition promotionMove : Move :=
  {| from := {| row := 2; col := 1 |}; to := {| row := 4; col := 7 |};
     captures := [{| row := 1; col := 2 |}; {| row := 3; col := 6 |}];
     path := [{| row := 0; col := 3 |}; {| row := 4; col := 7 |}];
     becomesKing := true |}.

(** The first move of the specification's scenario: (5,0) to (4,1). *)
Definition openingMove : Move :=
  {| from := {| row := 5; col := 0 |}; to := {| row := 4; col := 1 |};
     captures := []; path := [{| row := 4; col := 1 |}]; becomesKing := false |}.

(** The objects of [doubleCaptureBoard] in an empty heap, and the reference
    to the board. *)
Definition doubleCaptureHeap : Heap.heap * Heap.value :=
  match Heap.storeBoard doubleCaptureBoard ∅ with
  | Some (b, h) => (h, b)
  | None => (∅, Heap.VNull)
  end.

(** A stored game at version 5 with a pending takeback request. *)
Definition gameWithRequest (previous : option PreviousState) : GameData :=
  {| board := initializeBoard; turn := WHITE;
     players := {| white := Some "alice"%string; black := Some "bob"%string |};
     status := ACTIVE; winner := None; version := 5; lastMove := None;
     halfMoveClock := 3; rematchId := None; createdAt := 0; expireAt := 86400000;
     metadata := Some {| isRandomColor := false |};
     previousState := previous;
     takebackRequest := Some {| requesterId := "alice"%string; requestedAt := 10 |} |}.

(** A game whose two player slots are empty. *)
Definition gameWithoutPlayers : GameData :=
  {| board := initializeBoard; turn := WHITE;
     players := {| white := None; black := None |};
     status := WAITING; winner := None; version := 0; lastMove := None;
     halfMoveClock := 0; rematchId := None; createdAt := 0; expireAt := 86400000;
     metadata := None; previousState := None; takebackRequest := None |}.

(** A game created by the white player, waiting for an opponent. *)
Definition gameWaitingForBlack : GameData :=
  {| board := initializeBoard; turn := WHITE;
     players := {| white := Some "alice"%string; black := None |};
     status := WAITING; winner := None; version := 0; lastMove := None;
     halfMoveClock := 0; rematchId := None; createdAt := 0; expireAt := 86400000;
     metadata := None; previousState := None; takebackRequest := None |}.
(** ** Basic facts about boards *)

Lemma inBoard_spec r c :
  inBoard r c = true ↔ 0 <= r < 8 ∧ 0 <= c < 8.
Proof. unfold inBoard, BOARD_SIZE. lia. Qed.

Lemma elem_of_squares r c : (r, c) ∈ squares ↔ inBoard r c = true.
Proof.
  rewrite inBoard_spec. unfold squares, BOARD_SIZE. rewrite list_elem_of_bind.
  split.
  - intros (r' & Hc & Hr). apply list_elem_of_fmap in Hc as (c' & Heq & Hc).
    inversion Heq; subst. apply elem_of_seqZ in Hr, Hc. lia.
  - intros [Hr Hc]. exists r. split.
    + apply list_elem_of_fmap. exists c. split; [done|]. apply elem_of_seqZ. lia.
    + apply elem_of_seqZ. lia.
Qed.

Lemma cellAt_occupied board r c p :
  cellAt board r c = Some p → {| row := r; col := c |} ∈ occupiedSquares board.
Proof.
  unfold cellAt, occupiedSquares. intros H.
  destruct ((0 <=? r) && (0 <=? c)) eqn:Hrc; [|done].
  destruct (board !! Z.to_nat r) as [cells|] eqn:Hr; [|done].
  destruct (cells !! Z.to_nat c) as [cell|] eqn:Hc; [|done]. subst cell.
  apply list_elem_of_join. eexists. split; last first.
  { apply (elem_of_lookup_imap_2 _ _ _ _ Hr). }
  apply list_elem_of_join. eexists. split; last first.
  { apply (elem_of_lookup_imap_2 _ _ _ _ Hc). }
  simpl. apply list_elem_of_singleton. f_equal; lia.
Qed.

Lemma alreadyCaptured_true cip r c :
  alreadyCaptured cip r c = true ↔ {| row := r; col := c |} ∈ cip.
Proof.
  unfold alreadyCaptured. rewrite existsb_exists. split.
  - intros ([r' c'] & Hin & Heq). simpl in Heq.
    apply list_elem_of_In in Hin.
    replace r with r' by lia. replace c with c' by lia. done.
  - intros Hin. exists {| row := r; col := c |}. split.
    + by apply list_elem_of_In.
    + simpl. lia.
Qed.

Lemma alreadyCaptured_false cip r c :
  alreadyCaptured cip r c = false ↔ {| row := r; col := c |} ∉ cip.
Proof.
  rewrite <- alreadyCaptured_true. destruct (alreadyCaptured cip r c); naive_solver.
Qed.

Lemma remaining_le board cip : (remaining board cip ≤ length (occupiedSquares board))%nat.
Proof. apply length_filter. Qed.

Lemma filter_length_lt_snoc (l cip : list Position) x :
  x ∈ l → x ∉ cip →
  (length (filter (λ p, p ∉ cip ++ [x]) l) < length (filter (λ p, p ∉ cip) l))%nat.
Proof.
  intros Hin Hx.
  assert (Hle : ∀ k : list Position,
    (length (filter (λ p, p ∉ cip ++ [x]) k) ≤ length (filter (λ p, p ∉ cip) k))%nat).
  { induction k as [|y k IH]; [done|].
    rewrite !filter_cons. repeat case_decide; simpl; try lia.
    exfalso. set_solver. }
  induction l as [|y l IH]; [by apply elem_of_nil in Hin|].
  apply elem_of_cons in Hin as [<-|Hin].
  - rewrite !filter_cons. rewrite (decide_False (P := x ∉ cip ++ [x])) by set_solver.
    rewrite decide_True by done. simpl. specialize (Hle l). lia.
  - specialize (IH Hin). rewrite !filter_cons.
    repeat case_decide; simpl; try lia. exfalso. set_solver.
Qed.

Lemma remaining_snoc board cip r c p :
  cellAt board r c = Some p → alreadyCaptured cip r c = false →
  (remaining board (cip ++ [{| row := r; col := c |}]) < remaining board cip)%nat.
Proof.
  intros Hcell Hcap. apply filter_length_lt_snoc.
  - by eapply cellAt_occupied.
  - by apply alreadyCaptured_false.
Qed.

(** ** The loops run to completion

    Each [while] loop walks a diagonal in unit steps and stops when it
    leaves the board, so it makes at most 8 iterations: the bound
    [BOARD_SIZE] of the loop models never cuts a loop short. *)

Lemma stepsLeft_le dr r : (stepsLeft dr r ≤ 8)%nat.
Proof. unfold stepsLeft. destruct (dr =? 1); case_match; lia. Qed.

Lemma stepsLeft_0 dr r c : stepsLeft dr r = O → inBoard r c = false.
Proof.
  unfold stepsLeft, inBoard, BOARD_SIZE.
  destruct (dr =? 1); destruct ((0 <=? r) && (r <? 8)) eqn:E; lia.
Qed.

Lemma stepsLeft_next dr r c n :
  dr = 1 ∨ dr = -1 → inBoard r c = true →
  (stepsLeft dr r ≤ S n)%nat → (stepsLeft dr (r + dr) ≤ n)%nat.
Proof.
  unfold stepsLeft, inBoard, BOARD_SIZE. intros [-> | ->] Hin; simpl;
    destruct ((0 <=? r) && (r <? 8)) eqn:E; try lia; case_match; lia.
Qed.

Lemma kingSlide_steps board pos dr dc n m r c :
  dr = 1 ∨ dr = -1 → (stepsLeft dr r ≤ n)%nat → (stepsLeft dr r ≤ m)%nat →
  kingSlide n board pos dr dc r c = kingSlide m board pos dr dc r c.
Proof.
  intros Hdr. revert m r c. induction n as [|n IH]; intros [|m] r c Hn Hm; simpl; try done.
  - by rewrite (stepsLeft_0 dr r c) by lia.
  - by rewrite (stepsLeft_0 dr r c) by lia.
  - destruct (inBoard r c) eqn:Hin; [|done].
    destruct (cellAt board r c); [done|]. f_equal.
    apply IH; by eapply stepsLeft_next.
Qed.

Lemma kingLandings_steps board start recur piece caps cip path dr dc r c n m lr lc :
  dr = 1 ∨ dr = -1 → (stepsLeft dr lr ≤ n)%nat → (stepsLeft dr lr ≤ m)%nat →
  kingLandings board start recur n piece caps cip path dr dc r c lr lc =
  kingLandings board start recur m piece caps cip path dr dc r c lr lc.
Proof.
  intros Hdr. revert m lr lc.
  induction n as [|n IH]; intros [|m] lr lc Hn Hm; simpl; try done.
  - by rewrite (stepsLeft_0 dr lr lc) by lia.
  - by rewrite (stepsLeft_0 dr lr lc) by lia.
  - destruct (inBoard lr lc) eqn:Hin; [|done].
    case_match; [done|]. f_equal. apply IH; by eapply stepsLeft_next.
Qed.

Lemma kingScan_steps board start recur piece caps cip path dr dc n m r c :
  dr = 1 ∨ dr = -1 → (stepsLeft dr r ≤ n)%nat → (stepsLeft dr r ≤ m)%nat →
  kingScan board start recur n piece caps cip path dr dc r c =
  kingScan board start recur m piece caps cip path dr dc r c.
Proof.
  intros Hdr. revert m r c.
  induction n as [|n IH]; intros [|m] r c Hn Hm; cbn [kingScan]; try done.
  - by rewrite (stepsLeft_0 dr r c) by lia.
  - by rewrite (stepsLeft_0 dr r c) by lia.
  - destruct (inBoard r c) eqn:Hin; [|done].
    destruct (cellAt board r c); [done|]. apply IH; by eapply stepsLeft_next.
Qed.

Lemma stepsLeft_BOARD_SIZE dr r n :
  (Z.to_nat BOARD_SIZE ≤ n)%nat → (stepsLeft dr r ≤ n)%nat.
Proof. pose proof (stepsLeft_le dr r). unfold BOARD_SIZE. lia. Qed.

Lemma directions_unit dr dc :
  (dr, dc) ∈ directions → (dr = 1 ∨ dr = -1) ∧ (dc = 1 ∨ dc = -1).
Proof.
  unfold directions. rewrite !elem_of_cons, elem_of_nil.
  intros [H|[H|[H|[H|[]]]]]; inversion H; lia.
Qed.

(** With the bound [BOARD_SIZE] each loop gives what it gives with any
    larger bound. *)
Lemma kingSlide_bound_enough board pos dr dc n r c :
  (dr, dc) ∈ directions → (Z.to_nat BOARD_SIZE ≤ n)%nat →
  kingSlide n board pos dr dc r c
  = kingSlide (Z.to_nat BOARD_SIZE) board pos dr dc r c.
Proof.
  intros [Hdr _]%directions_unit Hn.
  apply kingSlide_steps; [done|by apply stepsLeft_BOARD_SIZE..].
Qed.

Lemma kingLandings_bound_enough board start recur piece caps cip currentPath
    dr dc r c n lr lc :
  (dr, dc) ∈ directions → (Z.to_nat BOARD_SIZE ≤ n)%nat →
  kingLandings board start recur n piece caps cip currentPath dr dc r c lr lc
  = kingLandings board start recur (Z.to_nat BOARD_SIZE) piece caps cip
      currentPath dr dc r c lr lc.
Proof.
  intros [Hdr _]%directions_unit Hn.
  apply kingLandings_steps; [done|by apply stepsLeft_BOARD_SIZE..].
Qed.

Lemma kingScan_bound_enough board start recur piece caps cip currentPath
    dr dc n r c :
  (dr, dc) ∈ directions → (Z.to_nat BOARD_SIZE ≤ n)%nat →
  kingScan board start recur n piece caps cip currentPath dr dc r c
  = kingScan board start recur (Z.to_nat BOARD_SIZE) piece caps cip
      currentPath dr dc r c.
Proof.
  intros [Hdr _]%directions_unit Hn.
  apply kingScan_steps; [done|by apply stepsLeft_BOARD_SIZE..].
Qed.

(** ** One jump of a chain *)

Lemma odd_shift a b : Z.even b = true → Z.odd (a + b) = Z.odd a.
Proof.
  intros Hb. rewrite Z.odd_add, <- (Z.negb_even b), Hb. simpl.
  by destruct (Z.odd a).
Qed.

Lemma directions_even dr dc : (dr, dc) ∈ directions → Z.even (dr + dc) = true.
Proof.
  intros H. apply directions_unit in H as [[-> | ->] [-> | ->]]; done.
Qed.

Lemma isStart_spec r c (start : Position) :
  (r =? row start) && (c =? col start) = true ↔ {| row := r; col := c |} = start.
Proof.
  destruct start as [sr sc]; simpl. split.
  - intros H. f_equal; lia.
  - intros [= -> ->]. lia.
Qed.

Lemma colorEqb_true a b : colorEqb a b = true ↔ a = b.
Proof. by destruct a, b. Qed.

Lemma colorEqb_false a b : negb (colorEqb a b) = true ↔ a ≠ b.
Proof. by destruct a, b. Qed.

Section CaptureStepFacts.
Variable board : BoardState.
Variable originalStart : Position.

Local Abbreviation recursion :=
  (Position → Piece → list Position → list Position → list Position → list Move).

Lemma continueOrStop_elem (recur : recursion) next caps cip path r c lr lc k m :
  m ∈ continueOrStop originalStart recur next caps cip path r c lr lc k →
  let sub := recur {| row := lr; col := lc |} next
               (caps ++ [{| row := r; col := c |}])
               (cip ++ [{| row := r; col := c |}])
               (path ++ [{| row := lr; col := lc |}]) in
  (sub ≠ [] ∧ m ∈ sub)
  ∨ (sub = [] ∧
     m = {| from := originalStart; to := {| row := lr; col := lc |};
            captures := caps ++ [{| row := r; col := c |}];
            path := path ++ [{| row := lr; col := lc |}];
            becomesKing := k |}).
Proof.
  unfold continueOrStop. simpl.
  destruct (recur _ _ _ _ _) as [|m' sub] eqn:Hsub; simpl.
  - rewrite list_elem_of_singleton. by right.
  - intros Hm. by left.
Qed.

Lemma kingLandings_elem (recur : recursion) piece caps cip path dr dc r c n lr lc m :
  Z.even (dr + dc) = true →
  m ∈ kingLandings board originalStart recur n piece caps cip path dr dc r c lr lc →
  ∃ lr' lc',
    inBoard lr' lc' = true
    ∧ (cellAt board lr' lc' = None ∨ {| row := lr'; col := lc' |} = originalStart)
    ∧ Z.odd (lr' + lc') = Z.odd (lr + lc)
    ∧ m ∈ continueOrStop originalStart recur piece caps cip path r c lr' lc' true.
Proof.
  intros Hd. revert lr lc. induction n as [|n IH]; intros lr lc; simpl.
  { by intros ?%elem_of_nil. }
  destruct (inBoard lr lc) eqn:Hin; [|by intros ?%elem_of_nil].
  destruct (bool_decide (cellAt board lr lc ≠ None)
            && negb ((lr =? row originalStart) && (lc =? col originalStart)))
    eqn:Hblocked; [by intros ?%elem_of_nil|].
  rewrite elem_of_app. intros [Hm | Hm].
  - exists lr, lc. repeat split; try done.
    apply andb_false_iff in Hblocked as [Hb | Hb].
    + left. apply bool_decide_eq_false in Hb.
      by destruct (cellAt board lr lc); [destruct Hb|].
    + right. apply isStart_spec. by apply negb_false_iff in Hb.
  - apply IH in Hm as (lr' & lc' & ? & ? & Hodd & ?).
    exists lr', lc'. repeat split; try done.
    rewrite Hodd. replace (lr + dr + (lc + dc)) with (lr + lc + (dr + dc)) by lia.
    by apply odd_shift.
Qed.

Lemma kingScan_elem (recur : recursion) piece caps cip path dr dc n r c m :
  Z.even (dr + dc) = true →
  m ∈ kingScan board originalStart recur n piece caps cip path dr dc r c →
  ∃ cap land,
    jump board originalStart {| row := r; col := c |} piece cip cap land
    ∧ m ∈ continueOrStop originalStart recur piece caps cip path
            (row cap) (col cap) (row land) (col land) true.
Proof.
  intros Hd. revert r c. induction n as [|n IH]; intros r c; cbn [kingScan].
  { by intros ?%elem_of_nil. }
  destruct (inBoard r c) eqn:Hin; [|by intros ?%elem_of_nil].
  destruct (cellAt board r c) as [cell|] eqn:Hcell.
  - destruct (negb (negb (colorEqb (color cell) (color piece)))
              || alreadyCaptured cip r c) eqn:Hstop; [by intros ?%elem_of_nil|].
    apply orb_false_iff in Hstop as [Henemy Hcap].
    apply negb_false_iff, colorEqb_false in Henemy.
    intros Hm. apply kingLandings_elem in Hm as (lr & lc & ? & ? & Hodd & ?); [|done].
    exists {| row := r; col := c |}, {| row := lr; col := lc |}.
    split; [|done]. split; simpl; try done.
    + by exists cell.
    + by apply alreadyCaptured_false.
    + rewrite Hodd. replace (r + dr + (c + dc)) with (r + c + (dr + dc)) by lia.
      by apply odd_shift.
  - intros Hm. apply IH in Hm as (cap & land & [] & ?).
    exists cap, land. split; [|done]. split; try done. simpl in *.
    etrans; [done|].
    replace (r + dr + (c + dc)) with (r + c + (dr + dc)) by lia.
    by apply odd_shift.
Qed.

Lemma nextPieceState_king piece lr :
  isKing piece = true → nextPieceState piece lr = piece.
Proof.
  destruct piece as [pc k]; unfold nextPieceState; simpl. intros ->.
  by destruct (promotionRow pc lr).
Qed.

Lemma isKing_nextPieceState piece lr :
  isKing (nextPieceState piece lr) = promotionRow (color piece) lr || isKing piece.
Proof. unfold nextPieceState; simpl. by destruct (promotionRow _ _). Qed.

(** Every move produced by one run of the body comes from one jump,
    followed either by the longer chains or, when there are none, by the
    chain that ends on the landing square. *)
Lemma captureStep_elem (recur : recursion) pos piece caps cip path m :
  m ∈ captureStep board originalStart recur pos piece caps cip path →
  ∃ cap land,
    jump board originalStart pos piece cip cap land
    ∧ m ∈ continueOrStop originalStart recur (nextPieceState piece (row land))
            caps cip path (row cap) (col cap) (row land) (col land)
            (isKing (nextPieceState piece (row land))).
Proof.
  unfold captureStep. rewrite list_elem_of_bind. intros ([dr dc] & Hm & Hd).
  pose proof (directions_even _ _ Hd) as Heven.
  destruct (isKing piece) eqn:Hking.
  - apply kingScan_elem in Hm as (cap & land & [] & Hm); [|done].
    exists cap, land. rewrite nextPieceState_king, Hking by done.
    split; [|done]. split; try done. simpl in *. etrans; [done|].
    replace (row pos + dr + (col pos + dc)) with (row pos + col pos + (dr + dc)) by lia.
    by apply odd_shift.
  - unfold manCapture in Hm.
    destruct (inBoard _ _) eqn:Hin; [|by apply elem_of_nil in Hm].
    cbv zeta in Hm.
    destruct (cellAt board (row pos + dr) (col pos + dc)) as [mid|] eqn:Hmid;
      [|by apply elem_of_nil in Hm].
    match type of Hm with context [if ?b then _ else _] => destruct b eqn:Hcond end;
      [|by apply elem_of_nil in Hm].
    apply andb_true_iff in Hcond as [Hcond Hopen].
    apply andb_true_iff in Hcond as [Henemy Hcap].
    apply colorEqb_false in Henemy. apply negb_true_iff in Hcap.
    exists {| row := row pos + dr; col := col pos + dc |},
           {| row := row pos + 2 * dr; col := col pos + 2 * dc |}.
    cbn [row col]. rewrite isKing_nextPieceState. split; [|done].
    split; cbn [row col]; try done.
    + by exists mid.
    + by apply alreadyCaptured_false.
    + apply orb_true_iff in Hopen as [Hopen | Hopen].
      * left. by apply bool_decide_eq_true in Hopen.
      * right. by apply isStart_spec.
    + replace (row pos + 2 * dr + (col pos + 2 * dc))
        with (row pos + col pos + 2 * (dr + dc)) by lia.
      apply odd_shift. by rewrite Z.even_mul.
Qed.

(** The body consults the recursive call only after a jump. *)
Lemma continueOrStop_ext (rec1 rec2 : recursion) next caps cip path r c lr lc k :
  (∀ pos' piece' caps' path',
     rec1 pos' piece' caps' (cip ++ [{| row := r; col := c |}]) path' =
     rec2 pos' piece' caps' (cip ++ [{| row := r; col := c |}]) path') →
  continueOrStop originalStart rec1 next caps cip path r c lr lc k =
  continueOrStop originalStart rec2 next caps cip path r c lr lc k.
Proof. intros H. unfold continueOrStop. by rewrite H. Qed.

Lemma kingLandings_ext (rec1 rec2 : recursion) piece caps cip path dr dc r c n lr lc :
  (∀ pos' piece' caps' path',
     rec1 pos' piece' caps' (cip ++ [{| row := r; col := c |}]) path' =
     rec2 pos' piece' caps' (cip ++ [{| row := r; col := c |}]) path') →
  kingLandings board originalStart rec1 n piece caps cip path dr dc r c lr lc =
  kingLandings board originalStart rec2 n piece caps cip path dr dc r c lr lc.
Proof.
  intros H. revert lr lc. induction n as [|n IH]; intros lr lc; simpl; [done|].
  destruct (inBoard lr lc); [|done]. case_match; [done|].
  by rewrite IH, (continueOrStop_ext rec1 rec2).
Qed.

Lemma kingScan_ext (rec1 rec2 : recursion) piece caps cip path dr dc n r c :
  agreeAfterJump board cip rec1 rec2 →
  kingScan board originalStart rec1 n piece caps cip path dr dc r c =
  kingScan board originalStart rec2 n piece caps cip path dr dc r c.
Proof.
  intros H. revert r c. induction n as [|n IH]; intros r c; cbn [kingScan]; [done|].
  destruct (inBoard r c); [|reflexivity].
  destruct (cellAt board r c) as [cell|] eqn:Hcell; [|apply IH].
  destruct (negb _ || alreadyCaptured cip r c) eqn:Hstop; [reflexivity|].
  apply orb_false_iff in Hstop as [_ Hcap].
  apply kingLandings_ext. intros. eapply H; eassumption.
Qed.

Lemma manCapture_ext (rec1 rec2 : recursion) pos piece caps cip path dr dc :
  agreeAfterJump board cip rec1 rec2 →
  manCapture board originalStart rec1 pos piece caps cip path dr dc =
  manCapture board originalStart rec2 pos piece caps cip path dr dc.
Proof.
  intros H. unfold manCapture. destruct (inBoard _ _); [|done].
  destruct (cellAt board (row pos + dr) (col pos + dc)) as [mid|] eqn:Hmid; [|done].
  destruct (alreadyCaptured cip _ _) eqn:Hcap.
  { by rewrite andb_false_r. }
  case_match; [|done]. apply continueOrStop_ext. by eapply H.
Qed.

Lemma captureStep_ext (rec1 rec2 : recursion) pos piece caps cip path :
  agreeAfterJump board cip rec1 rec2 →
  captureStep board originalStart rec1 pos piece caps cip path =
  captureStep board originalStart rec2 pos piece caps cip path.
Proof.
  intros H. unfold captureStep. apply list_bind_ext; [|done]. intros [dr dc].
  destruct (isKing piece).
  - by apply kingScan_ext.
  - by apply manCapture_ext.
Qed.
End CaptureStepFacts.

(** ** The recursion of [getCaptureMoves] terminates *)

Lemma getCaptureMoves_fuel_stable board start n m pos piece caps cip path :
  (remaining board cip < n)%nat → (remaining board cip < m)%nat →
  getCaptureMoves_fuel n board start pos piece caps cip path =
  getCaptureMoves_fuel m board start pos piece caps cip path.
Proof.
  revert m pos piece caps cip path.
  induction n as [|n IH]; intros [|m] pos piece caps cip path Hn Hm; try lia.
  cbn [getCaptureMoves_fuel]. apply captureStep_ext.
  intros r c p Hcell Hcap pos' piece' caps' path'.
  pose proof (remaining_snoc board cip r c p Hcell Hcap).
  apply IH; lia.
Qed.

(** Any number of unrollings above the number of pieces gives the result
    of [getCaptureMoves]. *)
Lemma getCaptureMoves_fuel_enough board start fuel pos piece caps cip path :
  (length (occupiedSquares board) < fuel)%nat →
  getCaptureMoves_fuel fuel board start pos piece caps cip path =
  getCaptureMoves board pos piece caps cip path start.
Proof.
  intros Hfuel. unfold getCaptureMoves.
  pose proof (remaining_le board cip).
  apply getCaptureMoves_fuel_stable; lia.
Qed.

(** [getCaptureMoves] satisfies the recursive equation of the source
    function. *)
Lemma getCaptureMoves_unfold board pos piece caps cip path start :
  getCaptureMoves board pos piece caps cip path start =
  captureStep board start
    (λ pos' piece' caps' cip' path',
       getCaptureMoves board pos' piece' caps' cip' path' start)
    pos piece caps cip path.
Proof.
  unfold getCaptureMoves at 1. cbn [getCaptureMoves_fuel].
  apply captureStep_ext.
  intros r c p Hcell Hcap pos' piece' caps' path'.
  pose proof (remaining_snoc board cip r c p Hcell Hcap).
  pose proof (remaining_le board cip).
  unfold getCaptureMoves. apply getCaptureMoves_fuel_stable; lia.
Qed.

(** Induction over the chains of [getCaptureMoves]: a property of the
    returned moves holds if it holds of every chain end and is carried
    back over every jump. *)
Lemma getCaptureMoves_ind board start
    (Q : Position → Piece → list Position → list Position → list Position
         → Move → Prop) :
  (∀ pos piece caps cip path cap land,
     jump board start pos piece cip cap land →
     getCaptureMoves board land (nextPieceState piece (row land))
       (caps ++ [cap]) (cip ++ [cap]) (path ++ [land]) start = [] →
     Q pos piece caps cip path (chainEnd start piece caps path cap land)) →
  (∀ pos piece caps cip path cap land m,
     jump board start pos piece cip cap land →
     m ∈ getCaptureMoves board land (nextPieceState piece (row land))
           (caps ++ [cap]) (cip ++ [cap]) (path ++ [land]) start →
     Q land (nextPieceState piece (row land)) (caps ++ [cap]) (cip ++ [cap])
       (path ++ [land]) m →
     Q pos piece caps cip path m) →
  ∀ pos piece caps cip path m,
    m ∈ getCaptureMoves board pos piece caps cip path start →
    Q pos piece caps cip path m.
Proof.
  intros Hend Hjump pos piece caps cip path.
  remember (remaining board cip) as k eqn:Hk.
  revert pos piece caps cip path Hk.
  induction (lt_wf k) as [k _ IH]. intros pos piece caps cip path -> m Hm.
  rewrite getCaptureMoves_unfold in Hm.
  apply captureStep_elem in Hm as (cap & land & Hj & Hm).
  apply continueOrStop_elem in Hm. destruct cap as [r c], land as [lr lc].
  cbn [row col] in *. destruct Hm as [[_ Hm] | [Hnil ->]].
  - eapply Hjump; [done..|].
    destruct Hj as [(enemy & Hcell & _) Hfresh _ _ _].
    eapply IH; [|reflexivity|done].
    eapply remaining_snoc; [done|]. by apply alreadyCaptured_false.
  - by apply (Hend pos piece caps cip path {| row := r; col := c |}
                {| row := lr; col := lc |}).
Qed.

(** ** Shape of the generated moves *)

Lemma kingSlide_elem board pos dr dc n r c m :
  Z.even (dr + dc) = true → m ∈ kingSlide n board pos dr dc r c →
  captures m = [] ∧ from m = pos
  ∧ inBoard (row (to m)) (col (to m)) = true
  ∧ cellAt board (row (to m)) (col (to m)) = None
  ∧ Z.odd (row (to m) + col (to m)) = Z.odd (r + c).
Proof.
  intros Hd. revert r c. induction n as [|n IH]; intros r c; simpl.
  { by intros ?%elem_of_nil. }
  destruct (inBoard r c) eqn:Hin; [|by intros ?%elem_of_nil].
  destruct (cellAt board r c) eqn:Hcell; [by intros ?%elem_of_nil|].
  rewrite elem_of_cons. intros [-> | Hm]; [done|].
  apply IH in Hm as (? & ? & ? & ? & Hodd). repeat split; try done.
  rewrite Hodd. replace (r + dr + (c + dc)) with (r + c + (dr + dc)) by lia.
  by apply odd_shift.
Qed.

(** A simple move has no captures, starts on the piece's square and ends
    on an empty square of the same colour of the board. *)
Lemma getSimpleMoves_elem board pos piece m :
  m ∈ getSimpleMoves board pos piece →
  captures m = [] ∧ from m = pos
  ∧ inBoard (row (to m)) (col (to m)) = true
  ∧ cellAt board (row (to m)) (col (to m)) = None
  ∧ Z.odd (row (to m) + col (to m)) = Z.odd (row pos + col pos).
Proof.
  unfold getSimpleMoves. rewrite list_elem_of_bind. intros ([dr dc] & Hm & Hd).
  assert (Heven : Z.even (dr + dc) = true).
  { destruct (isKing piece); [by apply directions_even|].
    destruct (color piece);
      repeat (apply elem_of_cons in Hd as [[= -> ->]|Hd]; [done|]);
      by apply elem_of_nil in Hd. }
  assert (Hodd : Z.odd (row pos + dr + (col pos + dc)) = Z.odd (row pos + col pos)).
  { replace (row pos + dr + (col pos + dc)) with (row pos + col pos + (dr + dc)) by lia.
    by apply odd_shift. }
  destruct (isKing piece).
  - apply kingSlide_elem in Hm as (? & ? & ? & ? & ?); [|done].
    repeat split; try done. congruence.
  - destruct (inBoard _ _ && _) eqn:Hok; [|by apply elem_of_nil in Hm].
    apply andb_true_iff in Hok as [Hin Hempty].
    apply bool_decide_eq_true in Hempty.
    apply list_elem_of_singleton in Hm as ->. done.
Qed.

(** A capture move extends the captures it was started with by at least
    one square. *)
Lemma getCaptureMoves_captures board pos piece caps cip path start m :
  m ∈ getCaptureMoves board pos piece caps cip path start →
  ∃ ext, ext ≠ [] ∧ captures m = caps ++ ext.
Proof.
  revert pos piece caps cip path m.
  apply (getCaptureMoves_ind board start
           (λ _ _ caps _ _ m, ∃ ext, ext ≠ [] ∧ captures m = caps ++ ext)).
  - intros _ piece caps _ path cap land _ _. by exists [cap].
  - intros _ _ caps _ _ cap _ m _ _ (ext & _ & ->). exists (cap :: ext).
    split; [done|]. by rewrite <- app_assoc.
Qed.

Lemma getCaptureMoves_captures_nonempty board pos piece caps cip path start m :
  m ∈ getCaptureMoves board pos piece caps cip path start → captures m ≠ [].
Proof.
  intros (ext & Hext & ->)%getCaptureMoves_captures.
  destruct ext; [done|]. by destruct caps.
Qed.

(** ** [calculateAllowedMoves] as two unions *)

Lemma isCaptureMove_true m : isCaptureMove m = true ↔ captures m ≠ [].
Proof. unfold isCaptureMove. destruct (captures m); simpl; split; (done || lia). Qed.

Lemma filter_all {A} (f : A → bool) (l : list A) :
  (∀ x, x ∈ l → f x = true) → List.filter f l = l.
Proof.
  induction l as [|x l IH]; intros H; simpl; [done|].
  rewrite (H x) by set_solver. f_equal. apply IH. intros; apply H; set_solver.
Qed.

Lemma filter_none {A} (f : A → bool) (l : list A) :
  (∀ x, x ∈ l → f x = false) → List.filter f l = [].
Proof.
  induction l as [|x l IH]; intros H; simpl; [done|].
  rewrite (H x) by set_solver. apply IH. intros; apply H; set_solver.
Qed.

Lemma nonempty_length {A} (l : list A) :
  (0 <? Z.of_nat (length l)) = bool_decide (l ≠ []).
Proof. by destruct l. Qed.

(** One iteration of the double loop, in terms of [pieceMoves]. *)
Lemma allowedStep_eq board turn allMoves hasCaptures rc :
  allowedStep board turn (allMoves, hasCaptures) rc =
  if bool_decide (pieceMoves board turn (chainsFrom board) rc ≠ []) then
    (allMoves ++ pieceMoves board turn (chainsFrom board) rc, true)
  else (allMoves ++ pieceMoves board turn (getSimpleMoves board) rc, hasCaptures).
Proof.
  destruct rc as [r c]. unfold allowedStep, pieceMoves. cbn [fst snd].
  destruct (cellAt board r c) as [piece|].
  - destruct (colorEqb (color piece) turn); simpl.
    + by rewrite nonempty_length.
    + by rewrite app_nil_r.
  - simpl. by rewrite app_nil_r.
Qed.

(** The accumulator of the double loop after the squares [l]. *)
Lemma allowedStep_foldl board turn l allMoves hasCaptures :
  ∃ mixed,
    foldl (allowedStep board turn) (allMoves, hasCaptures) l =
      (allMoves ++ mixed,
       hasCaptures || bool_decide (l ≫= pieceMoves board turn (chainsFrom board) ≠ []))
    ∧ List.filter isCaptureMove mixed = l ≫= pieceMoves board turn (chainsFrom board)
    ∧ (l ≫= pieceMoves board turn (chainsFrom board) = [] →
       mixed = l ≫= pieceMoves board turn (getSimpleMoves board)).
Proof.
  revert allMoves hasCaptures.
  induction l as [|rc l IH]; intros allMoves hasCaptures.
  { exists []. simpl. by rewrite app_nil_r, orb_false_r. }
  cbn [foldl]. rewrite !bind_cons, allowedStep_eq.
  assert (Hchains : ∀ m, m ∈ pieceMoves board turn (chainsFrom board) rc →
                         isCaptureMove m = true).
  { intros m Hm. apply isCaptureMove_true. unfold pieceMoves in Hm.
    destruct (cellAt board rc.1 rc.2); [|by apply elem_of_nil in Hm].
    destruct (colorEqb _ _); [|by apply elem_of_nil in Hm].
    by eapply getCaptureMoves_captures_nonempty. }
  assert (Hsimples : ∀ m, m ∈ pieceMoves board turn (getSimpleMoves board) rc →
                          isCaptureMove m = false).
  { intros m Hm. unfold pieceMoves in Hm.
    destruct (cellAt board rc.1 rc.2); [|by apply elem_of_nil in Hm].
    destruct (colorEqb _ _); [|by apply elem_of_nil in Hm].
    apply getSimpleMoves_elem in Hm as [Hm _]. unfold isCaptureMove. by rewrite Hm. }
  destruct (pieceMoves board turn (chainsFrom board) rc) as [|m0 chains] eqn:Hpc.
  - rewrite bool_decide_eq_false_2 by naive_solver.
    destruct (IH (allMoves ++ pieceMoves board turn (getSimpleMoves board) rc)
                hasCaptures) as (mixed & -> & Hfilter & Hsimple).
    exists (pieceMoves board turn (getSimpleMoves board) rc ++ mixed).
    rewrite <- app_assoc. split; [done|]. split.
    + by rewrite List.filter_app, filter_none.
    + intros Hnil. by rewrite Hsimple.
  - rewrite bool_decide_eq_true_2 by done.
    destruct (IH (allMoves ++ m0 :: chains) true) as (mixed & -> & Hfilter & _).
    exists ((m0 :: chains) ++ mixed). rewrite <- app_assoc.
    split; [|split].
    + f_equal. by rewrite orb_true_r.
    + by rewrite List.filter_app, filter_all, Hfilter.
    + done.
Qed.

(** [calculateAllowedMoves] returns the capture chains of all pieces of
    the side if there is any, else the simple moves of all its pieces. *)
Lemma calculateAllowedMoves_spec board turn :
  calculateAllowedMoves board turn =
  if bool_decide (captureMovesOf board turn ≠ []) then captureMovesOf board turn
  else simpleMovesOf board turn.
Proof.
  unfold calculateAllowedMoves.
  destruct (allowedStep_foldl board turn squares [] false)
    as (mixed & -> & Hfilter & Hsimple).
  cbn [orb app]. fold (captureMovesOf board turn) in *.
  fold (simpleMovesOf board turn) in *.
  case_bool_decide as Hany.
  - done.
  - apply Hsimple. by destruct (captureMovesOf board turn); [|destruct Hany].
Qed.

Lemma elem_of_pieceMoves_squares board turn f m :
  m ∈ squares ≫= pieceMoves board turn f ↔
  ∃ r c piece, inBoard r c = true ∧ cellAt board r c = Some piece
               ∧ color piece = turn ∧ m ∈ f {| row := r; col := c |} piece.
Proof.
  rewrite list_elem_of_bind. split.
  - intros ([r c] & Hm & Hrc). apply elem_of_squares in Hrc.
    unfold pieceMoves in Hm. cbn [fst snd] in Hm.
    destruct (cellAt board r c) as [piece|] eqn:Hcell; [|by apply elem_of_nil in Hm].
    destruct (colorEqb _ _) eqn:Hturn; [|by apply elem_of_nil in Hm].
    apply colorEqb_true in Hturn. by exists r, c, piece.
  - intros (r & c & piece & Hin & Hcell & Hturn & Hm). exists (r, c).
    split; [|by apply elem_of_squares].
    unfold pieceMoves. cbn [fst snd]. rewrite Hcell.
    by rewrite (proj2 (colorEqb_true _ _) Hturn).
Qed.

(** ** The jumps of the capture search *)

Lemma continueOrStop_spec start recur next caps cip currentPath r c lr lc k m :
  let sub := recur {| row := lr; col := lc |} next
               (caps ++ [{| row := r; col := c |}])
               (cip ++ [{| row := r; col := c |}])
               (currentPath ++ [{| row := lr; col := lc |}]) in
  m ∈ continueOrStop start recur next caps cip currentPath r c lr lc k ↔
  (sub ≠ [] ∧ m ∈ sub)
  ∨ (sub = [] ∧
     m = {| from := start; to := {| row := lr; col := lc |};
            captures := caps ++ [{| row := r; col := c |}];
            path := currentPath ++ [{| row := lr; col := lc |}];
            becomesKing := k |}).
Proof.
  intros sub. split; [apply continueOrStop_elem|].
  unfold continueOrStop. fold sub. destruct sub as [|m' l].
  - intros [[Hne _] | [_ ->]]; [done|]. cbn. apply list_elem_of_here.
  - intros [[_ Hm] | [Hnil _]]; [|done]. done.
Qed.

Ltac shift_ray :=
  repeat match goal with
  | |- context [?r + ?d + Z.of_nat ?k * ?d] =>
      replace (r + d + Z.of_nat k * d) with (r + Z.of_nat (S k) * d) by lia
  end.

Ltac expand_bound Hd :=
  first
    [ rewrite (kingScan_steps _ _ _ _ _ _ _ _ _ _ (S (Z.to_nat BOARD_SIZE)))
        by first [by apply directions_unit in Hd as [? _]
                 |apply stepsLeft_BOARD_SIZE; lia]
    | rewrite (kingLandings_steps _ _ _ _ _ _ _ _ _ _ _ _ (S (Z.to_nat BOARD_SIZE)))
        by first [by apply directions_unit in Hd as [? _]
                 |apply stepsLeft_BOARD_SIZE; lia] ].

(** The landing loop of a king reaches the [i]-th square behind the
    enemy when the squares up to it are open. *)
Lemma kingLandings_member board start recur piece caps cip currentPath dr dc r c
    (i : nat) lr lc m :
  (dr, dc) ∈ directions →
  (∀ k : nat, (k ≤ i)%nat →
     inBoard (lr + Z.of_nat k * dr) (lc + Z.of_nat k * dc) = true
     ∧ (cellAt board (lr + Z.of_nat k * dr) (lc + Z.of_nat k * dc) = None
        ∨ {| row := lr + Z.of_nat k * dr; col := lc + Z.of_nat k * dc |} = start)) →
  m ∈ continueOrStop start recur piece caps cip currentPath r c
        (lr + Z.of_nat i * dr) (lc + Z.of_nat i * dc) true →
  m ∈ kingLandings board start recur (Z.to_nat BOARD_SIZE) piece caps cip
        currentPath dr dc r c lr lc.
Proof.
  intros Hd. revert lr lc.
  induction i as [|i IH]; intros lr lc Hopen Hm.
  - destruct (Hopen 0%nat) as [Hin Hcell]; [lia|].
    replace (lr + Z.of_nat 0 * dr) with lr in * by lia.
    replace (lc + Z.of_nat 0 * dc) with lc in * by lia.
    expand_bound Hd. cbn [kingLandings]. rewrite Hin.
    assert (bool_decide (cellAt board lr lc ≠ None)
            && negb ((lr =? row start) && (lc =? col start)) = false) as ->.
    { destruct Hcell as [-> | Hstart].
      - by rewrite (bool_decide_eq_false_2 (None ≠ None)) by (intros H; by apply H).
      - apply isStart_spec in Hstart. rewrite Hstart. apply andb_false_r. }
    apply elem_of_app. by left.
  - destruct (Hopen 0%nat) as [Hin Hcell]; [lia|].
    replace (lr + Z.of_nat 0 * dr) with lr in * by lia.
    replace (lc + Z.of_nat 0 * dc) with lc in * by lia.
    expand_bound Hd. cbn [kingLandings]. rewrite Hin.
    assert (bool_decide (cellAt board lr lc ≠ None)
            && negb ((lr =? row start) && (lc =? col start)) = false) as ->.
    { destruct Hcell as [-> | Hstart].
      - by rewrite (bool_decide_eq_false_2 (None ≠ None)) by (intros H; by apply H).
      - apply isStart_spec in Hstart. rewrite Hstart. apply andb_false_r. }
    apply elem_of_app. right. apply IH.
    + intros k Hk. shift_ray. apply Hopen. lia.
    + shift_ray. exact Hm.
Qed.

Lemma kingLandings_inv board start recur piece caps cip currentPath dr dc r c
    n lr lc m :
  m ∈ kingLandings board start recur n piece caps cip currentPath dr dc r c lr lc →
  ∃ i : nat,
    (∀ k : nat, (k ≤ i)%nat →
       inBoard (lr + Z.of_nat k * dr) (lc + Z.of_nat k * dc) = true
       ∧ (cellAt board (lr + Z.of_nat k * dr) (lc + Z.of_nat k * dc) = None
          ∨ {| row := lr + Z.of_nat k * dr; col := lc + Z.of_nat k * dc |} = start))
    ∧ m ∈ continueOrStop start recur piece caps cip currentPath r c
            (lr + Z.of_nat i * dr) (lc + Z.of_nat i * dc) true.
Proof.
  revert lr lc. induction n as [|n IH]; intros lr lc; cbn [kingLandings].
  { by intros ?%elem_of_nil. }
  destruct (inBoard lr lc) eqn:Hin; [|by intros ?%elem_of_nil].
  destruct (bool_decide (cellAt board lr lc ≠ None)
            && negb ((lr =? row start) && (lc =? col start)))
    eqn:Hblocked; [by intros ?%elem_of_nil|].
  assert (Hopen : cellAt board lr lc = None ∨ {| row := lr; col := lc |} = start).
  { apply andb_false_iff in Hblocked as [Hcell | Hstart].
    - left. apply bool_decide_eq_false in Hcell.
      destruct (cellAt board lr lc); [|done]. by destruct Hcell.
    - right. apply isStart_spec. by apply negb_false_iff in Hstart. }
  intros [Hm | Hm]%elem_of_app.
  - exists 0%nat. split.
    + intros k Hk. assert (k = 0%nat) as -> by lia.
      by replace (lr + Z.of_nat 0 * dr) with lr by lia;
         replace (lc + Z.of_nat 0 * dc) with lc by lia.
    + by replace (lr + Z.of_nat 0 * dr) with lr by lia;
         replace (lc + Z.of_nat 0 * dc) with lc by lia.
  - apply IH in Hm as (i & Hopens & Hm). exists (S i). split.
    + intros [|k] Hk.
      * by replace (lr + Z.of_nat 0 * dr) with lr by lia;
           replace (lc + Z.of_nat 0 * dc) with lc by lia.
      * destruct (Hopens k) as [? ?]; [lia|].
        by replace (lr + Z.of_nat (S k) * dr) with (lr + dr + Z.of_nat k * dr) by lia;
           replace (lc + Z.of_nat (S k) * dc) with (lc + dc + Z.of_nat k * dc) by lia.
    + by replace (lr + Z.of_nat (S i) * dr) with (lr + dr + Z.of_nat i * dr) by lia;
         replace (lc + Z.of_nat (S i) * dc) with (lc + dc + Z.of_nat i * dc) by lia.
Qed.

(** The scan of a king reaches the first piece behind [j] empty squares
    and, when it is an enemy piece not captured yet, runs the landing
    loop behind it. *)
Lemma kingScan_member board start recur piece caps cip currentPath dr dc
    (j : nat) r c enemy m :
  (dr, dc) ∈ directions →
  (∀ k : nat, (k < j)%nat →
     inBoard (r + Z.of_nat k * dr) (c + Z.of_nat k * dc) = true
     ∧ cellAt board (r + Z.of_nat k * dr) (c + Z.of_nat k * dc) = None) →
  inBoard (r + Z.of_nat j * dr) (c + Z.of_nat j * dc) = true →
  cellAt board (r + Z.of_nat j * dr) (c + Z.of_nat j * dc) = Some enemy →
  color enemy ≠ color piece →
  alreadyCaptured cip (r + Z.of_nat j * dr) (c + Z.of_nat j * dc) = false →
  m ∈ kingLandings board start recur (Z.to_nat BOARD_SIZE) piece caps cip
        currentPath dr dc (r + Z.of_nat j * dr) (c + Z.of_nat j * dc)
        (r + Z.of_nat j * dr + dr) (c + Z.of_nat j * dc + dc) →
  m ∈ kingScan board start recur (Z.to_nat BOARD_SIZE) piece caps cip
        currentPath dr dc r c.
Proof.
  intros Hd. revert r c.
  induction j as [|j IH]; intros r c Hempty Hin Henemy Hcolor Hfresh Hm.
  - replace (r + Z.of_nat 0 * dr) with r in * by lia.
    replace (c + Z.of_nat 0 * dc) with c in * by lia.
    expand_bound Hd. cbn [kingScan].
    rewrite Hin, Henemy, Hfresh, (proj2 (colorEqb_false _ _) Hcolor).
    exact Hm.
  - destruct (Hempty 0%nat) as [Hin0 Hcell0]; [lia|].
    replace (r + Z.of_nat 0 * dr) with r in * by lia.
    replace (c + Z.of_nat 0 * dc) with c in * by lia.
    expand_bound Hd. cbn [kingScan]. rewrite Hin0, Hcell0.
    apply IH.
    + intros k Hk. shift_ray. apply Hempty. lia.
    + by shift_ray.
    + by shift_ray.
    + done.
    + by shift_ray.
    + shift_ray. exact Hm.
Qed.

Lemma kingScan_inv board start recur piece caps cip currentPath dr dc n r c m :
  m ∈ kingScan board start recur n piece caps cip currentPath dr dc r c →
  ∃ (j : nat) enemy,
    (∀ k : nat, (k < j)%nat →
       inBoard (r + Z.of_nat k * dr) (c + Z.of_nat k * dc) = true
       ∧ cellAt board (r + Z.of_nat k * dr) (c + Z.of_nat k * dc) = None)
    ∧ inBoard (r + Z.of_nat j * dr) (c + Z.of_nat j * dc) = true
    ∧ cellAt board (r + Z.of_nat j * dr) (c + Z.of_nat j * dc) = Some enemy
    ∧ color enemy ≠ color piece
    ∧ alreadyCaptured cip (r + Z.of_nat j * dr) (c + Z.of_nat j * dc) = false
    ∧ m ∈ kingLandings board start recur (Z.to_nat BOARD_SIZE) piece caps cip
            currentPath dr dc (r + Z.of_nat j * dr) (c + Z.of_nat j * dc)
            (r + Z.of_nat j * dr + dr) (c + Z.of_nat j * dc + dc).
Proof.
  revert r c. induction n as [|n IH]; intros r c; cbn [kingScan].
  { by intros ?%elem_of_nil. }
  destruct (inBoard r c) eqn:Hin; [|by intros ?%elem_of_nil].
  destruct (cellAt board r c) as [cell|] eqn:Hcell.
  - destruct (negb (negb (colorEqb (color cell) (color piece)))
              || alreadyCaptured cip r c) eqn:Hstop; [by intros ?%elem_of_nil|].
    apply orb_false_iff in Hstop as [Henemy Hcap].
    apply negb_false_iff, colorEqb_false in Henemy.
    intros Hm. exists 0%nat, cell.
    replace (r + Z.of_nat 0 * dr) with r by lia.
    replace (c + Z.of_nat 0 * dc) with c by lia.
    split; [intros k Hk; lia|]. done.
  - intros Hm. apply IH in Hm as (j & enemy & Hempty & Hinj & Henemy & Hcolor & Hfresh & Hm).
    exists (S j), enemy.
    replace (r + Z.of_nat (S j) * dr) with (r + dr + Z.of_nat j * dr) by lia.
    replace (c + Z.of_nat (S j) * dc) with (c + dc + Z.of_nat j * dc) by lia.
    split; [|done]. intros [|k] Hk.
    + by replace (r + Z.of_nat 0 * dr) with r by lia;
         replace (c + Z.of_nat 0 * dc) with c by lia.
    + destruct (Hempty k) as [? ?]; [lia|].
      by replace (r + Z.of_nat (S k) * dr) with (r + dr + Z.of_nat k * dr) by lia;
         replace (c + Z.of_nat (S k) * dc) with (c + dc + Z.of_nat k * dc) by lia.
Qed.

(** The body of [getCaptureMoves] pushes on [moves], for each jump it
    makes and for nothing else, what [continueOrStop] gives for it. *)
Lemma captureStep_jumps board start recur pos piece caps cip currentPath m :
  m ∈ captureStep board start recur pos piece caps cip currentPath ↔
  ∃ cap land,
    acceptedJump board start pos piece cip cap land
    ∧ m ∈ continueOrStop start recur (nextPieceState piece (row land))
            caps cip currentPath (row cap) (col cap) (row land) (col land)
            (isKing (nextPieceState piece (row land))).
Proof.
  unfold captureStep. rewrite list_elem_of_bind. split.
  - intros ([dr dc] & Hm & Hd). destruct (isKing piece) eqn:Hking.
    + apply kingScan_inv in Hm
        as (j & enemy & Hempty & Hin & Henemy & Hcolor & Hfresh & Hm).
      apply kingLandings_inv in Hm as (i & Hopen & Hm).
      exists {| row := row pos + (Z.of_nat j + 1) * dr;
                col := col pos + (Z.of_nat j + 1) * dc |},
             {| row := row pos + (Z.of_nat j + 1) * dr + (Z.of_nat i + 1) * dr;
                col := col pos + (Z.of_nat j + 1) * dc + (Z.of_nat i + 1) * dc |}.
      cbn [row col].
      replace (row pos + dr + Z.of_nat j * dr)
        with (row pos + (Z.of_nat j + 1) * dr) in * by lia.
      replace (col pos + dc + Z.of_nat j * dc)
        with (col pos + (Z.of_nat j + 1) * dc) in * by lia.
      split.
      * right. split; [done|]. exists dr, dc, (Z.of_nat j), (Z.of_nat i + 1).
        cbn [row col]. split; [done|]. split; [lia|]. split; [lia|].
        split.
        { intros k Hk. destruct (Hempty (Z.to_nat (k - 1))) as [? ?]; [lia|].
          rewrite Z2Nat.id in * by lia.
          by replace (row pos + k * dr) with (row pos + dr + (k - 1) * dr) by lia;
             replace (col pos + k * dc) with (col pos + dc + (k - 1) * dc) by lia. }
        split; [done|]. split; [done|]. split; [by exists enemy|].
        split; [by apply alreadyCaptured_false|]. split; [|done].
        intros k Hk. destruct (Hopen (Z.to_nat (k - 1))) as [? ?]; [lia|].
        rewrite Z2Nat.id in * by lia.
        by replace (row pos + (Z.of_nat j + 1) * dr + k * dr)
             with (row pos + (Z.of_nat j + 1) * dr + dr + (k - 1) * dr) by lia;
           replace (col pos + (Z.of_nat j + 1) * dc + k * dc)
             with (col pos + (Z.of_nat j + 1) * dc + dc + (k - 1) * dc) by lia.
      * rewrite nextPieceState_king, Hking by done.
        by replace (row pos + (Z.of_nat j + 1) * dr + (Z.of_nat i + 1) * dr)
             with (row pos + (Z.of_nat j + 1) * dr + dr + Z.of_nat i * dr) by lia;
           replace (col pos + (Z.of_nat j + 1) * dc + (Z.of_nat i + 1) * dc)
             with (col pos + (Z.of_nat j + 1) * dc + dc + Z.of_nat i * dc) by lia.
    + unfold manCapture in Hm.
      destruct (inBoard _ _) eqn:Hin; [|by apply elem_of_nil in Hm].
      cbv zeta in Hm.
      destruct (cellAt board (row pos + dr) (col pos + dc)) as [mid|] eqn:Hmid;
        [|by apply elem_of_nil in Hm].
      match type of Hm with context [if ?b then _ else _] => destruct b eqn:Hcond end;
        [|by apply elem_of_nil in Hm].
      apply andb_true_iff in Hcond as [Hcond Hopen].
      apply andb_true_iff in Hcond as [Henemy Hcap].
      apply colorEqb_false in Henemy. apply negb_true_iff in Hcap.
      exists {| row := row pos + dr; col := col pos + dc |},
             {| row := row pos + 2 * dr; col := col pos + 2 * dc |}.
      cbn [row col]. rewrite isKing_nextPieceState. split; [|done].
      left. split; [done|]. exists dr, dc. cbn [row col].
      do 4 (split; [done|]). split; [by exists mid|].
      split; [by apply alreadyCaptured_false|].
      apply orb_true_iff in Hopen as [Hopen | Hopen].
      * left. by apply bool_decide_eq_true in Hopen.
      * right. by apply isStart_spec.
  - intros (cap & land & [Hjump | Hjump] & Hm).
    + destruct Hjump as (Hking & dr & dc & Hd & -> & -> & Hin & (mid & Hmid & Hcolor)
                         & Hfresh & Hopen).
      cbn [row col] in *. exists (dr, dc). split; [|done]. rewrite Hking.
      unfold manCapture. rewrite Hin. cbv zeta. rewrite Hmid.
      rewrite (proj2 (colorEqb_false _ _) Hcolor).
      rewrite (proj2 (alreadyCaptured_false _ _ _) Hfresh). cbn [negb andb].
      assert (bool_decide (cellAt board (row pos + 2 * dr) (col pos + 2 * dc) = None)
              || (row pos + 2 * dr =? row start) && (col pos + 2 * dc =? col start)
              = true) as ->.
      { destruct Hopen as [Hnone | Hstart].
        - by rewrite bool_decide_eq_true_2.
        - apply isStart_spec in Hstart. rewrite Hstart. apply orb_true_r. }
      by rewrite isKing_nextPieceState in Hm.
    + destruct Hjump as (Hking & dr & dc & j & i & Hd & Hj & Hi & Hempty & -> & Hin
                         & (enemy & Henemy & Hcolor) & Hfresh & Hopen & ->).
      cbn [row col] in *. exists (dr, dc). split; [|done]. rewrite Hking.
      rewrite nextPieceState_king, Hking in Hm by done.
      apply (kingScan_member board start recur piece caps cip currentPath dr dc
               (Z.to_nat j) _ _ enemy); try done.
      * intros k Hk. destruct (Hempty (Z.of_nat k + 1)) as [? ?]; [lia|].
        by replace (row pos + dr + Z.of_nat k * dr)
             with (row pos + (Z.of_nat k + 1) * dr) by lia;
           replace (col pos + dc + Z.of_nat k * dc)
             with (col pos + (Z.of_nat k + 1) * dc) by lia.
      * rewrite Z2Nat.id by lia.
        by replace (row pos + dr + j * dr) with (row pos + (j + 1) * dr) by lia;
           replace (col pos + dc + j * dc) with (col pos + (j + 1) * dc) by lia.
      * rewrite Z2Nat.id by lia.
        by replace (row pos + dr + j * dr) with (row pos + (j + 1) * dr) by lia;
           replace (col pos + dc + j * dc) with (col pos + (j + 1) * dc) by lia.
      * rewrite Z2Nat.id by lia.
        replace (row pos + dr + j * dr) with (row pos + (j + 1) * dr) by lia.
        replace (col pos + dc + j * dc) with (col pos + (j + 1) * dc) by lia.
        by apply alreadyCaptured_false.
      * rewrite Z2Nat.id by lia.
        replace (row pos + dr + j * dr) with (row pos + (j + 1) * dr) by lia.
        replace (col pos + dc + j * dc) with (col pos + (j + 1) * dc) by lia.
        apply (kingLandings_member board start recur piece caps cip currentPath
                 dr dc _ _ (Z.to_nat (i - 1))); [done| |].
        -- intros k Hk. destruct (Hopen (Z.of_nat k + 1)) as [? ?]; [lia|].
           by replace (row pos + (j + 1) * dr + dr + Z.of_nat k * dr)
                with (row pos + (j + 1) * dr + (Z.of_nat k + 1) * dr) by lia;
              replace (col pos + (j + 1) * dc + dc + Z.of_nat k * dc)
                with (col pos + (j + 1) * dc + (Z.of_nat k + 1) * dc) by lia.
        -- rewrite Z2Nat.id by lia.
           by replace (row pos + (j + 1) * dr + dr + (i - 1) * dr)
                with (row pos + (j + 1) * dr + i * dr) by lia;
              replace (col pos + (j + 1) * dc + dc + (i - 1) * dc)
                with (col pos + (j + 1) * dc + i * dc) by lia.
Qed.

(** The moves of [getCaptureMoves]: for each jump the body makes, the
    chains that the recursive call from the landing square returns if
    there are any, and otherwise the chain that ends on the landing
    square. *)
Lemma getCaptureMoves_jumps board pos piece caps cip currentPath start m :
  m ∈ getCaptureMoves board pos piece caps cip currentPath start ↔
  ∃ cap land,
    acceptedJump board start pos piece cip cap land
    ∧ ((getCaptureMoves board land (nextPieceState piece (row land))
          (caps ++ [cap]) (cip ++ [cap]) (currentPath ++ [land]) start ≠ []
        ∧ m ∈ getCaptureMoves board land (nextPieceState piece (row land))
                (caps ++ [cap]) (cip ++ [cap]) (currentPath ++ [land]) start)
       ∨ (getCaptureMoves board land (nextPieceState piece (row land))
            (caps ++ [cap]) (cip ++ [cap]) (currentPath ++ [land]) start = []
          ∧ m = chainEnd start piece caps currentPath cap land)).
Proof.
  rewrite getCaptureMoves_unfold, captureStep_jumps.
  split; intros (cap & land & Hjump & Hm); exists cap, land; (split; [done|]);
    destruct cap as [r c], land as [lr lc]; cbn [row col] in *;
    by apply continueOrStop_spec in Hm.
Qed.

(** ** Mandatory capture *)

Lemma captureMovesOf_nonempty board turn :
  captureMovesOf board turn ≠ [] ↔ hasAvailableCapture board turn.
Proof.
  unfold hasAvailableCapture. split.
  - intros Hne. destruct (captureMovesOf board turn) as [|m l] eqn:Hl; [done|].
    assert (Hm : m ∈ captureMovesOf board turn) by (rewrite Hl; left).
    apply elem_of_pieceMoves_squares in Hm as (r & c & piece & ? & ? & ? & Hm).
    exists r, c, piece. repeat split; try done.
    unfold chainsFrom in Hm. intros Hnil. rewrite Hnil in Hm.
    by apply elem_of_nil in Hm.
  - intros (r & c & piece & Hin & Hcell & Hturn & Hne).
    destruct (getCaptureMoves _ _ _ _ _ _ _) as [|m l] eqn:Hl; [done|]. clear Hne.
    assert (Hm : m ∈ captureMovesOf board turn).
    { apply elem_of_pieceMoves_squares. exists r, c, piece.
      repeat split; try done. unfold chainsFrom. rewrite Hl. left. }
    intros Hnil. rewrite Hnil in Hm. by apply elem_of_nil in Hm.
Qed.

(** C1. If any piece of the side to move has a capture chain, every move
    that [calculateAllowedMoves] returns has a non-empty [captures] list;
    otherwise every returned move has an empty [captures] list. *)
Theorem calculateAllowedMoves_mandatory_capture board turn :
  (hasAvailableCapture board turn →
   ∀ m, m ∈ calculateAllowedMoves board turn → captures m ≠ [])
  ∧ (¬ hasAvailableCapture board turn →
     ∀ m, m ∈ calculateAllowedMoves board turn → captures m = []).
Proof.
  rewrite calculateAllowedMoves_spec, <- captureMovesOf_nonempty. split.
  - intros Hany m. rewrite bool_decide_eq_true_2 by done.
    intros (r & c & piece & _ & _ & _ & Hm)%elem_of_pieceMoves_squares.
    by eapply getCaptureMoves_captures_nonempty.
  - intros Hnone m. rewrite bool_decide_eq_false_2 by done.
    intros (r & c & piece & _ & _ & _ & Hm)%elem_of_pieceMoves_squares.
    by apply getSimpleMoves_elem in Hm as [? _].
Qed.

(** ** Chains end at leaves *)

Lemma nextPieceState_color piece lr : color (nextPieceState piece lr) = color piece.
Proof. done. Qed.

Lemma nextPieceState_eta piece lr :
  {| color := color piece; isKing := isKing (nextPieceState piece lr) |}
  = nextPieceState piece lr.
Proof. done. Qed.

(** Every returned move ends on a square from which the search, run with
    the piece as it is at the end of the chain and with the captures of the
    chain, finds no further capture. *)
Lemma getCaptureMoves_leaf board pos piece caps cip currentPath start m :
  m ∈ getCaptureMoves board pos piece caps cip currentPath start →
  ∃ ext, ext ≠ [] ∧ captures m = caps ++ ext
    ∧ getCaptureMoves board (to m)
        {| color := color piece; isKing := becomesKing m |}
        (captures m) (cip ++ ext) (path m) start = [].
Proof.
  revert pos piece caps cip currentPath m.
  apply (getCaptureMoves_ind board start
    (λ _ piece caps cip _ m,
       ∃ ext, ext ≠ [] ∧ captures m = caps ++ ext
         ∧ getCaptureMoves board (to m)
             {| color := color piece; isKing := becomesKing m |}
             (captures m) (cip ++ ext) (path m) start = [])).
  - intros _ piece caps cip cpath cap land _ Hnil. exists [cap].
    split; [done|]. split; [done|]. unfold chainEnd. cbn [to captures path becomesKing].
    by rewrite nextPieceState_eta.
  - intros _ piece caps cip _ cap land m _ _ (ext & _ & Hcaps & Hnil).
    exists (cap :: ext). split; [done|].
    rewrite nextPieceState_color in Hnil.
    rewrite <- !app_assoc in *. done.
Qed.

(** C5. The capture search emits a move only at a leaf.  For every jump
    that the body makes from the current square: when the recursive call
    from the landing square returns some chains, the search returns every
    one of them and does not return the chain that would stop on the
    landing square; when it returns none, the search returns the chain
    that stops there.  The search returns nothing else, and every move it
    returns ends where no further capture is possible. *)
Theorem getCaptureMoves_emits_only_leaves
    board currentPos piece currentCaptures capturedInPath currentPath
    originalStart :
  let result :=
    getCaptureMoves board currentPos piece currentCaptures capturedInPath
      currentPath originalStart in
  let subsequentMoves cap land :=
    getCaptureMoves board land (nextPieceState piece (row land))
      (currentCaptures ++ [cap]) (capturedInPath ++ [cap])
      (currentPath ++ [land]) originalStart in
  let shorterChain cap land :=
    chainEnd originalStart piece currentCaptures currentPath cap land in
  (∀ cap land,
     acceptedJump board originalStart currentPos piece capturedInPath cap land →
     (subsequentMoves cap land ≠ [] →
      (∀ m, m ∈ subsequentMoves cap land → m ∈ result)
      ∧ shorterChain cap land ∉ result)
     ∧ (subsequentMoves cap land = [] → shorterChain cap land ∈ result))
  ∧ (∀ m, m ∈ result →
       ∃ cap land,
         acceptedJump board originalStart currentPos piece capturedInPath cap land
         ∧ ((subsequentMoves cap land ≠ [] ∧ m ∈ subsequentMoves cap land)
            ∨ (subsequentMoves cap land = [] ∧ m = shorterChain cap land)))
  ∧ (∀ m, m ∈ result →
       ∃ ext, ext ≠ [] ∧ captures m = currentCaptures ++ ext
         ∧ getCaptureMoves board (to m)
             {| color := color piece; isKing := becomesKing m |}
             (captures m) (capturedInPath ++ ext) (path m) originalStart = [])
  ∧ (∀ cap land, subsequentMoves cap land ≠ [] → shorterChain cap land ∉ result).
Proof.
  intros result subsequentMoves shorterChain.
  assert (Hnot : ∀ cap land,
            subsequentMoves cap land ≠ [] → shorterChain cap land ∉ result).
  { intros cap land Hne Hin.
    apply getCaptureMoves_leaf in Hin as (ext & _ & Hcaps & Hnil).
    unfold shorterChain, chainEnd in Hcaps, Hnil.
    cbn [to captures path becomesKing] in Hcaps, Hnil.
    apply app_inv_head in Hcaps as <-.
    by rewrite nextPieceState_eta in Hnil. }
  split; [|split; [|split]].
  - intros cap land Hjump. split.
    + intros Hne. split; [|by apply Hnot].
      intros m Hm. apply getCaptureMoves_jumps. exists cap, land.
      split; [done|]. by left.
    + intros Hnil. apply getCaptureMoves_jumps. exists cap, land.
      split; [done|]. by right.
  - intros m Hm. by apply getCaptureMoves_jumps in Hm.
  - intros m. apply getCaptureMoves_leaf.
  - exact Hnot.
Qed.

(** ** No piece is captured twice *)

Lemma getCaptureMoves_NoDup board pos piece caps cip path start m :
  NoDup caps → caps ⊆ cip →
  m ∈ getCaptureMoves board pos piece caps cip path start →
  NoDup (captures m).
Proof.
  intros Hnd Hsub Hm. revert pos piece caps cip path m Hm Hnd Hsub.
  apply (getCaptureMoves_ind board start
    (λ _ _ caps cip _ m, NoDup caps → caps ⊆ cip → NoDup (captures m))).
  - intros _ piece caps cip path cap land [_ Hfresh _ _ _] _ Hnd Hsub.
    unfold chainEnd; cbn [captures]. apply NoDup_app. split; [done|].
    split; [|apply NoDup_singleton]. intros x Hx ->%list_elem_of_singleton.
    apply Hfresh. by apply Hsub.
  - intros _ piece caps cip _ cap land m [_ Hfresh _ _ _] _ IH Hnd Hsub.
    apply IH.
    + apply NoDup_app. split; [done|].
      split; [|apply NoDup_singleton]. intros x Hx ->%list_elem_of_singleton.
      apply Hfresh. by apply Hsub.
    + intros x. rewrite !elem_of_app. intros [Hx | Hx]; [left; by apply Hsub | by right].
Qed.

(** C6. No position occurs twice in the [captures] of a move returned by
    [calculateAllowedMoves]. *)
Theorem calculateAllowedMoves_captures_NoDup board turn m :
  m ∈ calculateAllowedMoves board turn → NoDup (captures m).
Proof.
  rewrite calculateAllowedMoves_spec. case_bool_decide.
  - intros (r & c & piece & _ & _ & _ & Hm)%elem_of_pieceMoves_squares.
    eapply getCaptureMoves_NoDup; [apply NoDup_nil_2|done|exact Hm].
  - intros (r & c & piece & _ & _ & _ & Hm)%elem_of_pieceMoves_squares.
    apply getSimpleMoves_elem in Hm as [-> _]. apply NoDup_nil_2.
Qed.

(** ** Promotion in the middle of a chain *)

(** A chain searched with a king only yields moves with [becomesKing]. *)
Lemma getCaptureMoves_king board pos piece caps cip currentPath start m :
  isKing piece = true →
  m ∈ getCaptureMoves board pos piece caps cip currentPath start →
  becomesKing m = true.
Proof.
  intros Hking Hm. revert pos piece caps cip currentPath m Hm Hking.
  apply (getCaptureMoves_ind board start
    (λ _ piece _ _ _ m, isKing piece = true → becomesKing m = true)).
  - intros _ piece caps _ cpath cap land _ _ Hking.
    unfold chainEnd; cbn [becomesKing]. by rewrite nextPieceState_king.
  - intros _ piece _ _ _ _ land m _ _ IH Hking. apply IH.
    by rewrite nextPieceState_king.
Qed.

(** C4. When a man jumps onto its promotion row in the middle of a chain,
    the rest of the chain is searched from the landing square with a king:
    the continuation is the king's diagonal scan in the four directions,
    every move of the continuation is returned with [becomesKing = true],
    and if there is no continuation the chain that ends on the promotion
    row is returned with [becomesKing = true]. *)
Theorem getCaptureMoves_promotion_mid_chain
    board currentPos piece currentCaptures capturedInPath currentPath
    originalStart dr dc mid :
  let cap := {| row := row currentPos + dr; col := col currentPos + dc |} in
  let land := {| row := row currentPos + 2 * dr; col := col currentPos + 2 * dc |} in
  let king := {| color := color piece; isKing := true |} in
  let continuation :=
    getCaptureMoves board land king (currentCaptures ++ [cap])
      (capturedInPath ++ [cap]) (currentPath ++ [land]) originalStart in
  isKing piece = false →
  (dr, dc) ∈ directions →
  inBoard (row land) (col land) = true →
  cellAt board (row cap) (col cap) = Some mid →
  color mid ≠ color piece →
  cap ∉ capturedInPath →
  cellAt board (row land) (col land) = None ∨ land = originalStart →
  promotionRow (color piece) (row land) = true →
  continuation =
    ('(dr', dc') ← directions;
     kingScan board originalStart
       (λ pos' piece' caps' cip' path',
          getCaptureMoves board pos' piece' caps' cip' path' originalStart)
       (Z.to_nat BOARD_SIZE) king (currentCaptures ++ [cap])
       (capturedInPath ++ [cap]) (currentPath ++ [land]) dr' dc'
       (row land + dr') (col land + dc'))
  ∧ (∀ m, m ∈ continuation →
       m ∈ getCaptureMoves board currentPos piece currentCaptures
             capturedInPath currentPath originalStart
       ∧ becomesKing m = true)
  ∧ (continuation = [] →
       {| from := originalStart; to := land;
          captures := currentCaptures ++ [cap];
          path := currentPath ++ [land]; becomesKing := true |}
       ∈ getCaptureMoves board currentPos piece currentCaptures
           capturedInPath currentPath originalStart).
Proof.
  intros cap land king continuation Hman Hd Hin Hmid Henemy Hfresh Hopen Hpromo.
  assert (Hstep : ∀ m,
    m ∈ (if 0 <? Z.of_nat (length continuation) then continuation
         else [{| from := originalStart; to := land;
                  captures := currentCaptures ++ [cap];
                  path := currentPath ++ [land]; becomesKing := true |}]) →
    m ∈ getCaptureMoves board currentPos piece currentCaptures capturedInPath
          currentPath originalStart).
  { intros m Hm. rewrite getCaptureMoves_unfold. unfold captureStep.
    apply list_elem_of_bind. exists (dr, dc). split; [|done].
    rewrite Hman. unfold manCapture. cbv zeta.
    subst cap land. cbn [row col] in *.
    rewrite Hin, Hmid. rewrite (proj2 (colorEqb_false _ _) Henemy).
    rewrite (proj2 (alreadyCaptured_false _ _ _) Hfresh).
    replace (bool_decide _ || _) with true; last first.
    { symmetry. apply orb_true_iff. destruct Hopen as [Hopen | Hopen].
      - left. by apply bool_decide_eq_true.
      - right. by apply isStart_spec. }
    cbn [andb negb]. rewrite Hpromo. cbn [orb].
    replace (nextPieceState piece (row currentPos + 2 * dr)) with king; [exact Hm|].
    unfold nextPieceState, king. by rewrite Hpromo. }
  split; [|split].
  - unfold continuation. by rewrite getCaptureMoves_unfold.
  - intros m Hm. split.
    + apply Hstep. destruct continuation; [by apply elem_of_nil in Hm | done].
    + by apply getCaptureMoves_king in Hm.
  - intros Hnil. apply Hstep. rewrite Hnil. by apply list_elem_of_singleton.
Qed.

(** ** Pieces stay on dark squares *)

Lemma cellAt_setCell_Some board r c v r' c' p :
  cellAt (setCell board r c v) r' c' = Some p →
  (r' = r ∧ c' = c ∧ v = Some p) ∨ cellAt board r' c' = Some p.
Proof.
  unfold setCell. destruct ((0 <=? r) && (0 <=? c)) eqn:Hrc; [|by right].
  destruct (board !! Z.to_nat r) as [cells|] eqn:Hr; [|by right].
  unfold cellAt. destruct ((0 <=? r') && (0 <=? c')) eqn:Hrc'; [|done].
  destruct (decide (Z.to_nat r = Z.to_nat r')) as [Heq | Hne].
  - rewrite <- Heq, list_lookup_insert_eq by by eapply lookup_lt_Some.
    rewrite Hr. destruct (decide (Z.to_nat c = Z.to_nat c')) as [Heqc | Hnec].
    + rewrite <- Heqc. destruct (decide (Z.to_nat c < length cells)%nat).
      * rewrite list_lookup_insert_eq by done. intros ->. left.
        repeat split; try done; lia.
      * rewrite list_insert_ge by lia. by right.
    + rewrite list_lookup_insert_ne by done. by right.
  - rewrite list_lookup_insert_ne by done. by right.
Qed.

Lemma cellAt_clear_captures board (caps : list Position) r c p :
  cellAt (foldl (λ b cap, setCell b (row cap) (col cap) None) board caps) r c
    = Some p →
  cellAt board r c = Some p.
Proof.
  revert board. induction caps as [|cap caps IH]; intros board; simpl; [done|].
  intros H%IH. by apply cellAt_setCell_Some in H as [(_ & _ & [=]) | H].
Qed.

(** A piece of the board after [applyMove] either stood there before, or
    is the moved piece on the target square. *)
Lemma cellAt_applyMove_Some board move r c p :
  cellAt (applyMove board move) r c = Some p →
  cellAt board r c = Some p
  ∨ (r = row (to move) ∧ c = col (to move)
     ∧ is_Some (cellAt board (row (from move)) (col (from move)))).
Proof.
  unfold applyMove.
  destruct (cellAt board (row (from move)) (col (from move))) as [q|] eqn:Hfrom;
    [|by left].
  intros H%cellAt_clear_captures.
  apply cellAt_setCell_Some in H as [(-> & -> & _) | H]; [by right|].
  apply cellAt_setCell_Some in H as [(_ & _ & [=]) | H]. by left.
Qed.

Lemma getCaptureMoves_from_to board pos piece caps cip currentPath start m :
  m ∈ getCaptureMoves board pos piece caps cip currentPath start →
  from m = start
  ∧ inBoard (row (to m)) (col (to m)) = true
  ∧ Z.odd (row (to m) + col (to m)) = Z.odd (row pos + col pos).
Proof.
  revert pos piece caps cip currentPath m.
  apply (getCaptureMoves_ind board start
    (λ pos _ _ _ _ m,
       from m = start ∧ inBoard (row (to m)) (col (to m)) = true
       ∧ Z.odd (row (to m) + col (to m)) = Z.odd (row pos + col pos))).
  - by intros pos piece caps cip cpath cap land [].
  - intros pos piece caps cip cpath cap land m [] _ (? & ? & Hodd).
    repeat split; try done. congruence.
Qed.

(** A returned move starts on a piece of the side to move and ends on a
    square of the board of the same colour as its start. *)
Lemma calculateAllowedMoves_from_to board turn m :
  m ∈ calculateAllowedMoves board turn →
  (∃ piece, cellAt board (row (from m)) (col (from m)) = Some piece
            ∧ color piece = turn)
  ∧ inBoard (row (from m)) (col (from m)) = true
  ∧ inBoard (row (to m)) (col (to m)) = true
  ∧ Z.odd (row (to m) + col (to m)) = Z.odd (row (from m) + col (from m)).
Proof.
  rewrite calculateAllowedMoves_spec. case_bool_decide.
  - intros (r & c & piece & ? & ? & ? & Hm)%elem_of_pieceMoves_squares.
    apply getCaptureMoves_from_to in Hm as (-> & ? & ?). cbn [row col] in *.
    split; [by exists piece|done].
  - intros (r & c & piece & ? & ? & ? & Hm)%elem_of_pieceMoves_squares.
    apply getSimpleMoves_elem in Hm as (_ & -> & ? & _ & ?). cbn [row col] in *.
    split; [by exists piece|done].
Qed.

Lemma initializeBoard_lookup (i j : nat) p :
  initializeBoard !! i ≫= (.!! j) = Some (Some p) →
  Z.odd (Z.of_nat i + Z.of_nat j) = true.
Proof.
  change initializeBoard
    with (ltac:(let b := eval vm_compute in initializeBoard in exact b)).
  do 9 (destruct i as [|i]; [do 9 (destruct j as [|j]; [by cbn|]); by cbn|]).
  by cbn.
Qed.

Lemma darkSquaresOnly_initializeBoard : darkSquaresOnly initializeBoard.
Proof.
  intros r c p. unfold cellAt.
  destruct ((0 <=? r) && (0 <=? c)) eqn:Hrc; [|done].
  intros Hcell. replace r with (Z.of_nat (Z.to_nat r)) by lia.
  replace c with (Z.of_nat (Z.to_nat c)) by lia.
  apply (initializeBoard_lookup _ _ p).
  destruct (initializeBoard !! Z.to_nat r) as [cells|]; [|done]. cbn.
  destruct (cells !! Z.to_nat c); [|done]. by f_equal.
Qed.

Lemma darkSquaresOnly_applyMove board turn move :
  darkSquaresOnly board → move ∈ calculateAllowedMoves board turn →
  darkSquaresOnly (applyMove board move).
Proof.
  intros Hdark Hmove r c p Hcell.
  apply cellAt_applyMove_Some in Hcell as [Hcell | (-> & -> & _)].
  - by eapply Hdark.
  - apply calculateAllowedMoves_from_to in Hmove as ((piece & Hfrom & _) & _ & _ & ->).
    by eapply Hdark.
Qed.

(** C7. The initial board has pieces on dark squares only, and so has
    every board reached from it by applying moves that
    [calculateAllowedMoves] returns. *)
Theorem reachable_darkSquaresOnly board :
  reachable board → darkSquaresOnly board.
Proof.
  induction 1 as [|board turn move _ IH Hmove].
  - apply darkSquaresOnly_initializeBoard.
  - by eapply darkSquaresOnly_applyMove.
Qed.

(** ** Antisymmetry of the static evaluation *)

Lemma evaluateStep_opp board score rc :
  evaluateStep board WHITE (- score) rc = - evaluateStep board BLACK score rc.
Proof.
  destruct rc as [r c]. unfold evaluateStep.
  destruct (cellAt board r c) as [p|]; [|done].
  generalize (pieceValue p r c). intros value.
  destruct (color p); cbn; lia.
Qed.

Lemma evaluate_foldl_opp board l score :
  foldl (evaluateStep board WHITE) (- score) l =
  - foldl (evaluateStep board BLACK) score l.
Proof.
  revert score. induction l as [|rc l IH]; intros score; cbn [foldl]; [done|].
  by rewrite evaluateStep_opp, IH.
Qed.

(** C8. [evaluateBoard(board, WHITE) = -evaluateBoard(board, BLACK)] for
    every board. *)
Theorem evaluateBoard_antisymmetric board :
  evaluateBoard board WHITE = - evaluateBoard board BLACK.
Proof. unfold evaluateBoard. by rewrite <- evaluate_foldl_opp. Qed.

(** ** [applyMove] on board values *)

Lemma wellFormed_hasCell board r c :
  wellFormed board → inBoard r c = true → hasCell board r c.
Proof.
  intros [Hrows Hcells] [Hr Hc]%inBoard_spec. repeat split; try lia.
  destruct (lookup_lt_is_Some_2 board (Z.to_nat r)) as [cells Hcellsr]; [lia|].
  exists cells. split; [done|].
  rewrite Forall_lookup in Hcells. rewrite (Hcells _ _ Hcellsr). lia.
Qed.

Lemma setCell_eq board r c v cells :
  0 <= r → 0 <= c → board !! Z.to_nat r = Some cells →
  setCell board r c v = <[Z.to_nat r := <[Z.to_nat c := v]> cells]> board.
Proof.
  intros Hr Hc Hrow. unfold setCell. rewrite Hrow.
  by replace ((0 <=? r) && (0 <=? c)) with true by lia.
Qed.

Lemma hasCell_setCell board r c v r' c' :
  hasCell board r' c' → hasCell (setCell board r c v) r' c'.
Proof.
  intros (Hr & Hc & cells & Hrow & Hlen). unfold setCell.
  destruct ((0 <=? r) && (0 <=? c)); [|by repeat split; eauto].
  destruct (board !! Z.to_nat r) as [cells0|] eqn:Hrow0; [|by repeat split; eauto].
  repeat split; try done.
  destruct (decide (Z.to_nat r = Z.to_nat r')) as [Heq | Hne].
  - rewrite Heq in *. exists (<[Z.to_nat c := v]> cells0).
    rewrite list_lookup_insert_eq by by eapply lookup_lt_Some.
    split; [done|]. rewrite length_insert. congruence.
  - exists cells. by rewrite list_lookup_insert_ne.
Qed.

Lemma wellFormed_setCell board r c v :
  wellFormed board → wellFormed (setCell board r c v).
Proof.
  intros [Hrows Hcells]. unfold setCell.
  destruct ((0 <=? r) && (0 <=? c)); [|done].
  destruct (board !! Z.to_nat r) as [cells0|] eqn:Hrow0; [|done].
  split; [by rewrite length_insert|].
  apply Forall_insert; [done|]. rewrite length_insert.
  rewrite Forall_lookup in Hcells. by eapply Hcells.
Qed.

Lemma cellAt_setCell board r c v r' c' :
  hasCell board r c →
  cellAt (setCell board r c v) r' c'
  = if bool_decide (r' = r ∧ c' = c) then v else cellAt board r' c'.
Proof.
  intros (Hr & Hc & cells & Hrow & Hlen).
  rewrite (setCell_eq _ _ _ _ cells) by done. unfold cellAt.
  case_bool_decide as Heq.
  - destruct Heq as [-> ->]. replace ((0 <=? r) && (0 <=? c)) with true by lia.
    rewrite list_lookup_insert_eq by by eapply lookup_lt_Some.
    by rewrite list_lookup_insert_eq.
  - destruct ((0 <=? r') && (0 <=? c')) eqn:Hpos; [|done].
    destruct (decide (Z.to_nat r = Z.to_nat r')) as [Heqr | Hner].
    + rewrite <- Heqr, list_lookup_insert_eq, Hrow by by eapply lookup_lt_Some.
      rewrite list_lookup_insert_ne; [done|]. intros Heqc. apply Heq. lia.
    + by rewrite list_lookup_insert_ne.
Qed.

Lemma cellAt_clear board (caps : list Position) r c :
  Forall (λ cap, hasCell board (row cap) (col cap)) caps →
  cellAt (foldl (λ b cap, setCell b (row cap) (col cap) None) board caps) r c
  = if bool_decide ({| row := r; col := c |} ∈ caps) then None
    else cellAt board r c.
Proof.
  revert board. induction caps as [|[cr cc] caps IH]; intros board Hcaps.
  { cbn. by rewrite bool_decide_eq_false_2 by apply not_elem_of_nil. }
  apply Forall_cons in Hcaps as [Hcap Hcaps]. cbn [foldl row col] in *.
  rewrite IH; last first.
  { eapply Forall_impl; [done|]. intros cap. apply hasCell_setCell. }
  rewrite cellAt_setCell by done.
  destruct (decide (r = cr ∧ c = cc)) as [[-> ->] | Hne].
  - rewrite (bool_decide_eq_true_2 (_ ∈ _ :: _)) by left.
    rewrite (bool_decide_eq_true_2 (_ ∧ _)) by done. by case_bool_decide.
  - rewrite (bool_decide_eq_false_2 (_ ∧ _)) by done.
    rewrite (bool_decide_ext (_ ∈ _ :: _) ({| row := r; col := c |} ∈ caps)); [done|].
    rewrite elem_of_cons.
    split; [|by right]. intros [[= -> ->] | ?]; [by destruct Hne | done].
Qed.

(** The board after [applyMove], square by square. *)
Lemma cellAt_applyMove board move p r c :
  cellAt board (row (from move)) (col (from move)) = Some p →
  hasCell board (row (from move)) (col (from move)) →
  hasCell board (row (to move)) (col (to move)) →
  Forall (λ cap, hasCell board (row cap) (col cap)) (captures move) →
  cellAt (applyMove board move) r c = squareAfterMove board move p r c.
Proof.
  intros Hp Hfrom Hto Hcaps. unfold applyMove, squareAfterMove. rewrite Hp.
  rewrite cellAt_clear; last first.
  { eapply Forall_impl; [done|]. intros cap H. by do 2 apply hasCell_setCell. }
  case_bool_decide; [done|].
  rewrite cellAt_setCell by by apply hasCell_setCell.
  rewrite cellAt_setCell by done.
  destruct (to move) as [tr tc], (from move) as [fr fc]. cbn [row col].
  destruct (decide (r = tr ∧ c = tc)) as [[-> ->] | Hto'].
  - by rewrite !(bool_decide_eq_true_2 (_ ∧ _)), (bool_decide_eq_true_2 (_ = _)).
  - rewrite (bool_decide_eq_false_2 (r = tr ∧ c = tc)) by done.
    rewrite (bool_decide_eq_false_2 (_ = {| row := tr; col := tc |}))
      by (intros [= -> ->]; by apply Hto').
    destruct (decide (r = fr ∧ c = fc)) as [[-> ->] | Hfrom'].
    + by rewrite (bool_decide_eq_true_2 (_ ∧ _)), (bool_decide_eq_true_2 (_ = _)).
    + rewrite (bool_decide_eq_false_2 (r = fr ∧ c = fc)) by done.
      by rewrite (bool_decide_eq_false_2 (_ = {| row := fr; col := fc |}))
        by (intros [= -> ->]; by apply Hfrom').
Qed.

(** A move found by [calculateAllowedMoves] stays on the board. *)
Lemma getCaptureMoves_captures_inBoard board pos piece caps cip currentPath start m :
  wellFormed board → inBoard (row pos) (col pos) = true →
  Forall (λ cap, inBoard (row cap) (col cap) = true) caps →
  m ∈ getCaptureMoves board pos piece caps cip currentPath start →
  Forall (λ cap, inBoard (row cap) (col cap) = true) (captures m).
Proof.
  intros Hwf Hpos Hcaps Hm. revert pos piece caps cip currentPath m Hm Hpos Hcaps.
  assert (Hcell : ∀ r c q, cellAt board r c = Some q → inBoard r c = true).
  { intros r c q. unfold cellAt. destruct Hwf as [Hrows Hcells].
    destruct ((0 <=? r) && (0 <=? c)) eqn:Hrc; [|done].
    destruct (board !! Z.to_nat r) as [cells|] eqn:Hrow; [|done].
    destruct (cells !! Z.to_nat c) eqn:Hcol; [|done]. intros _.
    apply lookup_lt_Some in Hcol. rewrite Forall_lookup in Hcells.
    rewrite (Hcells _ _ Hrow) in Hcol. apply lookup_lt_Some in Hrow.
    apply inBoard_spec. lia. }
  apply (getCaptureMoves_ind board start
    (λ pos _ caps _ _ m,
       inBoard (row pos) (col pos) = true →
       Forall (λ cap, inBoard (row cap) (col cap) = true) caps →
       Forall (λ cap, inBoard (row cap) (col cap) = true) (captures m))).
  - intros pos piece caps cip cpath cap land [(q & Hq & _) _ _ _ _] _ _ Hcaps.
    unfold chainEnd; cbn [captures]. apply Forall_app. split; [done|].
    apply Forall_singleton. by eapply Hcell.
  - intros pos piece caps cip cpath cap land m [(q & Hq & _) _ Hland _ _] _ IH _ Hcaps.
    apply IH; [done|]. apply Forall_app. split; [done|].
    apply Forall_singleton. by eapply Hcell.
Qed.

Lemma calculateAllowedMoves_captures_inBoard board turn m :
  wellFormed board → m ∈ calculateAllowedMoves board turn →
  Forall (λ cap, inBoard (row cap) (col cap) = true) (captures m).
Proof.
  intros Hwf. rewrite calculateAllowedMoves_spec. case_bool_decide.
  - intros (r & c & piece & ? & ? & ? & Hm)%elem_of_pieceMoves_squares.
    unfold chainsFrom in Hm.
    eapply getCaptureMoves_captures_inBoard; [done| |apply Forall_nil_2|exact Hm].
    done.
  - intros (r & c & piece & ? & ? & ? & Hm)%elem_of_pieceMoves_squares.
    apply getSimpleMoves_elem in Hm as [-> _]. apply Forall_nil_2.
Qed.

Lemma wellFormed_applyMove board move :
  wellFormed board → wellFormed (applyMove board move).
Proof.
  intros Hwf. unfold applyMove. case_match; [|done].
  generalize (captures move). intros caps.
  set (b := setCell (setCell board _ _ _) _ _ _).
  assert (Hb : wellFormed b) by by do 2 apply wellFormed_setCell.
  clearbody b. revert b Hb.
  induction caps as [|cap caps IH]; intros b Hb; cbn [foldl]; [done|].
  by apply IH, wellFormed_setCell.
Qed.

Lemma wellFormed_initializeBoard : wellFormed initializeBoard.
Proof. split; [done|]. vm_compute. repeat constructor. Qed.

(** The boards of a game are 8x8 grids. *)
Lemma reachable_wellFormed board : reachable board → wellFormed board.
Proof.
  induction 1; [apply wellFormed_initializeBoard | by apply wellFormed_applyMove].
Qed.

(** The squares a chain captures hold enemy pieces, and it ends on an empty
    square or on the square it started from. *)
Lemma getCaptureMoves_captures_enemy board pos piece caps cip currentPath start m :
  Forall (λ cap, ∃ enemy, cellAt board (row cap) (col cap) = Some enemy
                          ∧ color enemy ≠ color piece) caps →
  m ∈ getCaptureMoves board pos piece caps cip currentPath start →
  Forall (λ cap, ∃ enemy, cellAt board (row cap) (col cap) = Some enemy
                          ∧ color enemy ≠ color piece) (captures m)
  ∧ (cellAt board (row (to m)) (col (to m)) = None ∨ to m = start).
Proof.
  intros Hcaps Hm. revert pos piece caps cip currentPath m Hm Hcaps.
  apply (getCaptureMoves_ind board start
    (λ _ piece caps _ _ m,
       Forall (λ cap, ∃ enemy, cellAt board (row cap) (col cap) = Some enemy
                               ∧ color enemy ≠ color piece) caps →
       Forall (λ cap, ∃ enemy, cellAt board (row cap) (col cap) = Some enemy
                               ∧ color enemy ≠ color piece) (captures m)
       ∧ (cellAt board (row (to m)) (col (to m)) = None ∨ to m = start))).
  - intros pos piece caps cip cpath cap land [Henemy _ _ Hopen _] _ Hcaps.
    split; [|done]. unfold chainEnd; cbn [captures].
    apply Forall_app. split; [done|]. by apply Forall_singleton.
  - intros pos piece caps cip cpath cap land m [Henemy _ _ _ _] _ IH Hcaps.
    apply IH. apply Forall_app. split; [done|]. by apply Forall_singleton.
Qed.

(** A move that [calculateAllowedMoves] returns does not capture the
    square it ends on. *)
Lemma calculateAllowedMoves_to_not_captured board turn m :
  m ∈ calculateAllowedMoves board turn → to m ∉ captures m.
Proof.
  rewrite calculateAllowedMoves_spec. case_bool_decide.
  - intros (r & c & piece & _ & Hpiece & Hturn & Hm)%elem_of_pieceMoves_squares.
    apply getCaptureMoves_captures_enemy in Hm as [Hcaps Hto]; [|apply Forall_nil_2].
    intros Hin. rewrite Forall_forall in Hcaps.
    destruct (Hcaps _ Hin) as (enemy & Henemy & Hcolor).
    destruct Hto as [Hto | Hto]; [congruence|].
    rewrite Hto in Henemy. cbn [row col] in Henemy. congruence.
  - intros (r & c & piece & _ & _ & _ & Hm)%elem_of_pieceMoves_squares.
    apply getSimpleMoves_elem in Hm as [-> _]. apply not_elem_of_nil.
Qed.

(** The effect of [applyMove] for a move of the engine on an 8x8 board:
    the piece of the side to move arrives on [to m], the captured squares
    are empty, and so is the square it left. *)
Lemma applyMove_allowed_move board turn m :
  wellFormed board → m ∈ calculateAllowedMoves board turn →
  ∃ p, cellAt board (row (from m)) (col (from m)) = Some p ∧ color p = turn
    ∧ cellAt (applyMove board m) (row (to m)) (col (to m))
      = Some {| color := turn; isKing := isKing p || becomesKing m |}
    ∧ (∀ cap, cap ∈ captures m → cellAt (applyMove board m) (row cap) (col cap) = None)
    ∧ (from m ≠ to m →
       cellAt (applyMove board m) (row (from m)) (col (from m)) = None).
Proof.
  intros Hwf Hm.
  pose proof (calculateAllowedMoves_to_not_captured _ _ _ Hm) as Hto.
  pose proof (calculateAllowedMoves_captures_inBoard _ _ _ Hwf Hm) as Hcaps.
  destruct (calculateAllowedMoves_from_to _ _ _ Hm)
    as ((p & Hp & Hturn) & Hfrom & Hto' & _).
  exists p. split; [done|]. split; [done|].
  assert (Hcell : ∀ r c,
    cellAt (applyMove board m) r c = squareAfterMove board m p r c).
  { intros r c. apply cellAt_applyMove; try done; try by apply wellFormed_hasCell.
    eapply Forall_impl; [done|]. intros cap. by apply wellFormed_hasCell. }
  unfold squareAfterMove in Hcell. split; [|split].
  - rewrite Hcell. destruct (to m) as [tr tc] eqn:Etm. cbn [row col].
    rewrite bool_decide_eq_false_2 by done.
    rewrite bool_decide_eq_true_2 by done. by rewrite Hturn.
  - intros [cr cc] Hcap. rewrite Hcell. cbn [row col].
    by rewrite bool_decide_eq_true_2.
  - intros Hne. rewrite Hcell. destruct (from m) as [fr fc] eqn:Efm. cbn [row col].
    case_bool_decide; [done|].
    rewrite bool_decide_eq_false_2 by done.
    by rewrite bool_decide_eq_true_2.
Qed.

(** ** More on the generated moves *)

(** The landing squares of a chain: one per capture, all on the board, the
    last one being the target of the move. *)
Lemma getCaptureMoves_path board pos piece caps cip currentPath start m :
  m ∈ getCaptureMoves board pos piece caps cip currentPath start →
  ∃ extCaptures extPath,
    captures m = caps ++ extCaptures ∧ path m = currentPath ++ extPath
    ∧ length extPath = length extCaptures
    ∧ last extPath = Some (to m)
    ∧ Forall (λ sq, inBoard (row sq) (col sq) = true) extPath.
Proof.
  revert pos piece caps cip currentPath m.
  apply (getCaptureMoves_ind board start
    (λ _ _ caps _ cpath m,
       ∃ extCaptures extPath,
         captures m = caps ++ extCaptures ∧ path m = cpath ++ extPath
         ∧ length extPath = length extCaptures
         ∧ last extPath = Some (to m)
         ∧ Forall (λ sq, inBoard (row sq) (col sq) = true) extPath)).
  - intros _ piece caps _ cpath cap land [_ _ Hin _ _] _.
    exists [cap], [land]. repeat split; try done. by apply Forall_singleton.
  - intros _ piece caps _ cpath cap land m [_ _ Hin _ _] _
      (extc & extp & -> & -> & Hlen & Hlast & Hall).
    exists (cap :: extc), (land :: extp). rewrite <- !app_assoc.
    repeat split; try done.
    + cbn. by rewrite Hlen.
    + destruct extp; [done|]. done.
    + by constructor.
Qed.

Lemma kingSlide_path board pos dr dc n r c m :
  m ∈ kingSlide n board pos dr dc r c →
  path m = [to m] ∧ becomesKing m = false
  ∧ ∃ k, 0 <= k ∧ row (to m) = r + k * dr ∧ col (to m) = c + k * dc.
Proof.
  revert r c. induction n as [|n IH]; intros r c; simpl.
  { by intros ?%elem_of_nil. }
  destruct (inBoard r c); [|by intros ?%elem_of_nil].
  destruct (cellAt board r c); [by intros ?%elem_of_nil|].
  rewrite elem_of_cons. intros [-> | Hm].
  - repeat split; try done. exists 0. cbn. lia.
  - apply IH in Hm as (? & ? & k & ? & -> & ->). repeat split; try done.
    exists (k + 1). lia.
Qed.

(** The shape of a simple move. *)
Lemma getSimpleMoves_steps board pos piece m :
  m ∈ getSimpleMoves board pos piece →
  from m = pos ∧ captures m = [] ∧ path m = [to m]
  ∧ inBoard (row (to m)) (col (to m)) = true
  ∧ cellAt board (row (to m)) (col (to m)) = None
  ∧ (isKing piece = false →
     row (to m) = row pos + (if colorEqb (color piece) WHITE then -1 else 1)
     ∧ (col (to m) = col pos - 1 ∨ col (to m) = col pos + 1)
     ∧ becomesKing m = promotionRow (color piece) (row (to m)))
  ∧ (isKing piece = true →
     becomesKing m = false
     ∧ ∃ k, 1 <= k ∧ Z.abs (row (to m) - row pos) = k
            ∧ Z.abs (col (to m) - col pos) = k).
Proof.
  intros Hm. pose proof (getSimpleMoves_elem _ _ _ _ Hm) as (Hc & Hf & Hin & He & _).
  split; [done|]. split; [done|].
  revert Hm. unfold getSimpleMoves. rewrite list_elem_of_bind.
  intros ([dr dc] & Hm & Hd).
  split; [|split; [done|split; [done|split]]].
  - destruct (isKing piece).
    + by apply kingSlide_path in Hm as [? _].
    + destruct (inBoard _ _ && _); [|by apply elem_of_nil in Hm].
      by apply list_elem_of_singleton in Hm as ->.
  - intros Hman. rewrite Hman in Hm, Hd.
    destruct (inBoard _ _ && _); [|by apply elem_of_nil in Hm].
    apply list_elem_of_singleton in Hm as ->. cbn [to row col becomesKing].
    destruct (color piece); cbn [colorEqb];
      repeat (apply elem_of_cons in Hd as [[= -> ->] | Hd]; [split; [lia|]; split; [lia|done]|]);
      by apply elem_of_nil in Hd.
  - intros Hking. rewrite Hking in Hm, Hd.
    apply directions_unit in Hd as [Hdr Hdc].
    apply kingSlide_path in Hm as (_ & ? & k & Hk & -> & ->). split; [done|].
    exists (k + 1). split; [lia|]. split; destruct Hdr, Hdc; subst; lia.
Qed.


(** X14. The simple moves of a piece: no captures, a path that consists of
    the target, an empty target on the board; a man steps one row towards
    the far side and one column aside and becomes a king exactly on its
    promotion row; a king slides along a diagonal and the move does not set
    [becomesKing]. *)
Theorem getSimpleMoves_shape board pos piece m :
  m ∈ getSimpleMoves board pos piece →
  from m = pos ∧ captures m = [] ∧ path m = [to m]
  ∧ inBoard (row (to m)) (col (to m)) = true
  ∧ cellAt board (row (to m)) (col (to m)) = None
  ∧ (isKing piece = false →
     row (to m) = row pos + (if colorEqb (color piece) WHITE then -1 else 1)
     ∧ (col (to m) = col pos - 1 ∨ col (to m) = col pos + 1)
     ∧ becomesKing m = promotionRow (color piece) (row (to m)))
  ∧ (isKing piece = true →
     becomesKing m = false
     ∧ ∃ k, 1 <= k ∧ Z.abs (row (to m) - row pos) = k
            ∧ Z.abs (col (to m) - col pos) = k).
Proof. apply getSimpleMoves_steps. Qed.

Lemma getSimpleMoves_shape_witness :
  from openingMove = {| row := 5; col := 0 |} ∧ captures openingMove = []
  ∧ path openingMove = [to openingMove]
  ∧ inBoard (row (to openingMove)) (col (to openingMove)) = true
  ∧ cellAt initializeBoard (row (to openingMove)) (col (to openingMove)) = None
  ∧ (isKing whiteMan = false →
     row (to openingMove) = 5 + (if colorEqb (color whiteMan) WHITE then -1 else 1)
     ∧ (col (to openingMove) = 0 - 1 ∨ col (to openingMove) = 0 + 1)
     ∧ becomesKing openingMove = promotionRow (color whiteMan) (row (to openingMove)))
  ∧ (isKing whiteMan = true →
     becomesKing openingMove = false
     ∧ ∃ k, 1 <= k ∧ Z.abs (row (to openingMove) - 5) = k
            ∧ Z.abs (col (to openingMove) - 0) = k).
Proof.
  apply (getSimpleMoves_shape initializeBoard {| row := 5; col := 0 |} whiteMan
           openingMove).
  vm_compute. apply list_elem_of_here.
Defined.

(** X15. Every move that [calculateAllowedMoves] returns is well formed:
    it starts on a piece of the side to move, its path has one landing
    square per capture (one square for a simple move), all on the board and
    ending with the target, the target is empty or the start square, and
    every captured square holds a piece of the other side. *)
Theorem calculateAllowedMoves_well_formed board turn m :
  m ∈ calculateAllowedMoves board turn →
  (∃ piece, cellAt board (row (from m)) (col (from m)) = Some piece
            ∧ color piece = turn)
  ∧ length (path m) = Nat.max 1 (length (captures m))
  ∧ last (path m) = Some (to m)
  ∧ Forall (λ sq, inBoard (row sq) (col sq) = true) (path m)
  ∧ (cellAt board (row (to m)) (col (to m)) = None ∨ to m = from m)
  ∧ Forall (λ cap, ∃ enemy, cellAt board (row cap) (col cap) = Some enemy
                            ∧ color enemy ≠ turn) (captures m).
Proof.
  intros Hm. pose proof (calculateAllowedMoves_from_to _ _ _ Hm) as (Hfrom & _ & Hto & _).
  split; [done|]. revert Hm. rewrite calculateAllowedMoves_spec. case_bool_decide.
  - intros (r & c & piece & ? & ? & <- & Hm)%elem_of_pieceMoves_squares.
    unfold chainsFrom in Hm.
    pose proof (getCaptureMoves_path _ _ _ _ _ _ _ _ Hm)
      as (extc & extp & Hc & Hp & Hlen & Hlast & Hall).
    pose proof (getCaptureMoves_captures_nonempty _ _ _ _ _ _ _ _ Hm) as Hne.
    pose proof (getCaptureMoves_from_to _ _ _ _ _ _ _ _ Hm) as (Hstart & _).
    destruct (getCaptureMoves_captures_enemy _ _ _ _ _ _ _ _ (Forall_nil_2 _) Hm)
      as [Henemy Hopen].
    cbn in Hc, Hp. rewrite Hc, Hp in *. rewrite Hstart.
    split; [|split; [done|split; [done|split; [done|done]]]].
    rewrite Hlen. destruct extc; [done|]. cbn. lia.
  - intros (r & c & piece & ? & ? & <- & Hm)%elem_of_pieceMoves_squares.
    apply getSimpleMoves_steps in Hm as (_ & -> & -> & Hin & Hempty & _).
    split; [done|]. split; [done|]. split; [by apply Forall_singleton|].
    split; [by left|apply Forall_nil_2].
Qed.

Lemma calculateAllowedMoves_well_formed_witness :
  (∃ piece, cellAt doubleCaptureBoard (row (from doubleCaptureMove))
              (col (from doubleCaptureMove)) = Some piece
            ∧ color piece = WHITE)
  ∧ length (path doubleCaptureMove) = Nat.max 1 (length (captures doubleCaptureMove))
  ∧ last (path doubleCaptureMove) = Some (to doubleCaptureMove)
  ∧ Forall (λ sq, inBoard (row sq) (col sq) = true) (path doubleCaptureMove)
  ∧ (cellAt doubleCaptureBoard (row (to doubleCaptureMove))
       (col (to doubleCaptureMove)) = None
     ∨ to doubleCaptureMove = from doubleCaptureMove)
  ∧ Forall (λ cap, ∃ enemy, cellAt doubleCaptureBoard (row cap) (col cap) = Some enemy
                            ∧ color enemy ≠ WHITE) (captures doubleCaptureMove).
Proof.
  apply (calculateAllowedMoves_well_formed doubleCaptureBoard WHITE doubleCaptureMove).
  vm_compute. apply list_elem_of_here.
Defined.

(** *** A capture that is possible is found *)

Lemma continueOrStop_nonempty start recur next caps cip currentPath r c lr lc k :
  continueOrStop start recur next caps cip currentPath r c lr lc k ≠ [].
Proof. unfold continueOrStop. by destruct (recur _ _ _ _ _). Qed.

Lemma hasAvailableCapture_intro board turn r c piece :
  inBoard r c = true → cellAt board r c = Some piece → color piece = turn →
  captureStep board {| row := r; col := c |}
    (λ pos' piece' caps' cip' path',
       getCaptureMoves board pos' piece' caps' cip' path' {| row := r; col := c |})
    {| row := r; col := c |} piece [] [] [] ≠ [] →
  hasAvailableCapture board turn.
Proof.
  intros Hin Hcell Hturn Hne. exists r, c, piece. repeat split; try done.
  by rewrite getCaptureMoves_unfold.
Qed.

Lemma bind_nonempty {A B} (f : A → list B) (l : list A) x :
  x ∈ l → f x ≠ [] → l ≫= f ≠ [].
Proof.
  intros Hx Hf Hnil. destruct (f x) as [|y ys] eqn:Hfx; [done|].
  assert (Hy : y ∈ l ≫= f).
  { apply list_elem_of_bind. exists x. split; [|done]. rewrite Hfx. left. }
  rewrite Hnil in Hy. by apply elem_of_nil in Hy.
Qed.

Lemma calculateAllowedMoves_when_capture board turn :
  hasAvailableCapture board turn →
  calculateAllowedMoves board turn ≠ []
  ∧ ∀ m, m ∈ calculateAllowedMoves board turn → captures m ≠ [].
Proof.
  intros Hcap%captureMovesOf_nonempty. rewrite calculateAllowedMoves_spec.
  rewrite bool_decide_eq_true_2 by done. split; [done|].
  intros m (r & c & piece & _ & _ & _ & Hm)%elem_of_pieceMoves_squares.
  by eapply getCaptureMoves_captures_nonempty.
Qed.

(** X16. A man that stands next to an enemy piece with an empty square of
    the board right behind it, in any of the four directions, has a
    capture: the side must capture, and [calculateAllowedMoves] returns
    capture moves only. *)
Theorem man_capture_is_found board turn r c piece dr dc enemy :
  inBoard r c = true →
  cellAt board r c = Some piece → color piece = turn → isKing piece = false →
  (dr, dc) ∈ directions →
  cellAt board (r + dr) (c + dc) = Some enemy → color enemy ≠ turn →
  inBoard (r + 2 * dr) (c + 2 * dc) = true →
  cellAt board (r + 2 * dr) (c + 2 * dc) = None →
  hasAvailableCapture board turn
  ∧ calculateAllowedMoves board turn ≠ []
  ∧ ∀ m, m ∈ calculateAllowedMoves board turn → captures m ≠ [].
Proof.
  intros Hin Hcell Hturn Hman Hd Henemy Hcolor Hland Hempty.
  assert (Hcap : hasAvailableCapture board turn).
  { apply (hasAvailableCapture_intro board turn r c piece Hin Hcell Hturn).
    unfold captureStep. eapply bind_nonempty; [exact Hd|].
    rewrite Hman. unfold manCapture. cbn [row col].
    rewrite Hland, Henemy, Hempty.
    rewrite (proj2 (colorEqb_false _ _)) by congruence.
    cbn. apply continueOrStop_nonempty. }
  split; [done|]. by apply calculateAllowedMoves_when_capture.
Qed.

Lemma man_capture_is_found_witness :
  hasAvailableCapture doubleCaptureBoard WHITE
  ∧ calculateAllowedMoves doubleCaptureBoard WHITE ≠ []
  ∧ ∀ m, m ∈ calculateAllowedMoves doubleCaptureBoard WHITE → captures m ≠ [].
Proof.
  apply (man_capture_is_found doubleCaptureBoard WHITE 5 4 whiteMan (-1) (-1)
           blackMan); try reflexivity.
  - vm_compute. apply list_elem_of_here.
  - discriminate.
Defined.

(** The scan of a king finds an enemy piece that stands behind [j] empty
    squares with an empty square behind it. *)
Lemma kingScan_finds board start recur piece caps cip currentPath dr dc
    (j : nat) r c enemy :
  (dr, dc) ∈ directions →
  (∀ i : nat, (i < j)%nat →
     inBoard (r + Z.of_nat i * dr) (c + Z.of_nat i * dc) = true
     ∧ cellAt board (r + Z.of_nat i * dr) (c + Z.of_nat i * dc) = None) →
  inBoard (r + Z.of_nat j * dr) (c + Z.of_nat j * dc) = true →
  cellAt board (r + Z.of_nat j * dr) (c + Z.of_nat j * dc) = Some enemy →
  color enemy ≠ color piece →
  alreadyCaptured cip (r + Z.of_nat j * dr) (c + Z.of_nat j * dc) = false →
  inBoard (r + Z.of_nat (j + 1)%nat * dr) (c + Z.of_nat (j + 1)%nat * dc) = true →
  cellAt board (r + Z.of_nat (j + 1)%nat * dr) (c + Z.of_nat (j + 1)%nat * dc) = None →
  kingScan board start recur (Z.to_nat BOARD_SIZE) piece caps cip currentPath
    dr dc r c ≠ [].
Proof.
  intros Hd. revert r c.
  induction j as [|j IH]; intros r c Hempty Hin Henemy Hcolor Hfresh Hland Hopen.
  - replace (r + Z.of_nat 0%nat * dr) with r in * by lia.
    replace (c + Z.of_nat 0%nat * dc) with c in * by lia.
    replace (r + Z.of_nat (0 + 1)%nat * dr) with (r + dr) in * by lia.
    replace (c + Z.of_nat (0 + 1)%nat * dc) with (c + dc) in * by lia.
    rewrite (kingScan_steps _ _ _ _ _ _ _ dr dc _ (S (Z.to_nat BOARD_SIZE)))
      by first [by apply directions_unit in Hd as [? _]
               |apply stepsLeft_BOARD_SIZE; lia].
    cbn [kingScan].
    rewrite Hin, Henemy, Hfresh, (proj2 (colorEqb_false _ _) Hcolor).
    cbn [negb orb].
    rewrite (kingLandings_steps _ _ _ _ _ _ _ dr dc _ _ _ (S (Z.to_nat BOARD_SIZE)))
      by first [by apply directions_unit in Hd as [? _]
               |apply stepsLeft_BOARD_SIZE; lia].
    cbn [kingLandings].
    rewrite Hland, Hopen.
    rewrite (bool_decide_eq_false_2 (None ≠ None)) by (intros H; by apply H).
    cbn [andb]. intros Hnil. apply app_eq_nil in Hnil as [Hnil _].
    by apply continueOrStop_nonempty in Hnil.
  - destruct (Hempty 0%nat) as [Hin0 Hcell0]; [lia|].
    replace (r + Z.of_nat 0%nat * dr) with r in * by lia.
    replace (c + Z.of_nat 0%nat * dc) with c in * by lia.
    rewrite (kingScan_steps _ _ _ _ _ _ _ dr dc _ (S (Z.to_nat BOARD_SIZE)))
      by first [by apply directions_unit in Hd as [? _]
               |apply stepsLeft_BOARD_SIZE; lia].
    cbn [kingScan].
    rewrite Hin0, Hcell0.
    { apply (IH (r + dr) (c + dc)).
      * intros i Hi. destruct (Hempty (S i)) as [? ?]; [lia|].
        by replace (r + dr + Z.of_nat i * dr) with (r + Z.of_nat (S i) * dr) by lia;
           replace (c + dc + Z.of_nat i * dc) with (c + Z.of_nat (S i) * dc) by lia.
      * by replace (r + dr + Z.of_nat j * dr) with (r + Z.of_nat (S j) * dr) by lia;
           replace (c + dc + Z.of_nat j * dc) with (c + Z.of_nat (S j) * dc) by lia.
      * by replace (r + dr + Z.of_nat j * dr) with (r + Z.of_nat (S j) * dr) by lia;
           replace (c + dc + Z.of_nat j * dc) with (c + Z.of_nat (S j) * dc) by lia.
      * done.
      * by replace (r + dr + Z.of_nat j * dr) with (r + Z.of_nat (S j) * dr) by lia;
           replace (c + dc + Z.of_nat j * dc) with (c + Z.of_nat (S j) * dc) by lia.
      * by replace (r + dr + Z.of_nat (j + 1)%nat * dr) with (r + Z.of_nat (S j + 1)%nat * dr) by lia;
           replace (c + dc + Z.of_nat (j + 1)%nat * dc) with (c + Z.of_nat (S j + 1)%nat * dc) by lia.
      * by replace (r + dr + Z.of_nat (j + 1)%nat * dr) with (r + Z.of_nat (S j + 1)%nat * dr) by lia;
           replace (c + dc + Z.of_nat (j + 1)%nat * dc) with (c + Z.of_nat (S j + 1)%nat * dc) by lia.
    }
Qed.

Lemma kingScan_capture board turn r c piece dr dc (k : nat) enemy :
  inBoard r c = true →
  cellAt board r c = Some piece → color piece = turn → isKing piece = true →
  (dr, dc) ∈ directions →
  (∀ i : nat, (1 ≤ i ≤ k)%nat → cellAt board (r + Z.of_nat i * dr) (c + Z.of_nat i * dc) = None) →
  cellAt board (r + Z.of_nat (k + 1)%nat * dr) (c + Z.of_nat (k + 1)%nat * dc) = Some enemy →
  color enemy ≠ turn →
  inBoard (r + Z.of_nat (k + 2)%nat * dr) (c + Z.of_nat (k + 2)%nat * dc) = true →
  cellAt board (r + Z.of_nat (k + 2)%nat * dr) (c + Z.of_nat (k + 2)%nat * dc) = None →
  hasAvailableCapture board turn
  ∧ calculateAllowedMoves board turn ≠ []
  ∧ ∀ m, m ∈ calculateAllowedMoves board turn → captures m ≠ [].
Proof.
  intros Hin Hcell Hturn Hking Hd Hempty Henemy Hcolor Hland Hopen.
  assert (Hcap : hasAvailableCapture board turn).
  { apply (hasAvailableCapture_intro board turn r c piece Hin Hcell Hturn).
    unfold captureStep. eapply bind_nonempty; [exact Hd|].
    rewrite Hking. cbn [row col].
    pose proof (directions_unit _ _ Hd) as [Hdr Hdc].
    apply inBoard_spec in Hin, Hland.
    assert (Hbetween : ∀ i : nat, (i ≤ k + 2)%nat →
              inBoard (r + Z.of_nat i * dr) (c + Z.of_nat i * dc) = true).
    { intros i Hi. apply inBoard_spec. destruct Hdr, Hdc; subst; lia. }
    apply (kingScan_finds board _ _ piece [] [] [] dr dc k (r + dr) (c + dc) enemy Hd).
    - intros i Hi. split.
      + replace (r + dr + Z.of_nat i * dr) with (r + Z.of_nat (S i) * dr) by lia.
        replace (c + dc + Z.of_nat i * dc) with (c + Z.of_nat (S i) * dc) by lia.
        apply Hbetween. lia.
      + replace (r + dr + Z.of_nat i * dr) with (r + Z.of_nat (S i) * dr) by lia.
        replace (c + dc + Z.of_nat i * dc) with (c + Z.of_nat (S i) * dc) by lia.
        apply Hempty. lia.
    - replace (r + dr + Z.of_nat k * dr) with (r + Z.of_nat (k + 1)%nat * dr) by lia.
      replace (c + dc + Z.of_nat k * dc) with (c + Z.of_nat (k + 1)%nat * dc) by lia.
      apply Hbetween. lia.
    - by replace (r + dr + Z.of_nat k * dr) with (r + Z.of_nat (k + 1)%nat * dr) by lia;
         replace (c + dc + Z.of_nat k * dc) with (c + Z.of_nat (k + 1)%nat * dc) by lia.
    - congruence.
    - done.
    - replace (r + dr + Z.of_nat (k + 1)%nat * dr) with (r + Z.of_nat (k + 2)%nat * dr) by lia.
      replace (c + dc + Z.of_nat (k + 1)%nat * dc) with (c + Z.of_nat (k + 2)%nat * dc) by lia.
      apply Hbetween. lia.
    - by replace (r + dr + Z.of_nat (k + 1)%nat * dr) with (r + Z.of_nat (k + 2)%nat * dr) by lia;
         replace (c + dc + Z.of_nat (k + 1)%nat * dc) with (c + Z.of_nat (k + 2)%nat * dc) by lia. }
  split; [done|]. by apply calculateAllowedMoves_when_capture.
Qed.

(** X17. A king that sees, along a diagonal, an enemy piece behind [k]
    empty squares with an empty square of the board behind it has a
    capture, at any distance: the side must capture. *)
Theorem king_capture_is_found board turn r c piece dr dc k enemy :
  inBoard r c = true →
  cellAt board r c = Some piece → color piece = turn → isKing piece = true →
  (dr, dc) ∈ directions →
  0 <= k →
  (∀ i, 1 <= i <= k → cellAt board (r + i * dr) (c + i * dc) = None) →
  cellAt board (r + (k + 1) * dr) (c + (k + 1) * dc) = Some enemy →
  color enemy ≠ turn →
  inBoard (r + (k + 2) * dr) (c + (k + 2) * dc) = true →
  cellAt board (r + (k + 2) * dr) (c + (k + 2) * dc) = None →
  hasAvailableCapture board turn
  ∧ calculateAllowedMoves board turn ≠ []
  ∧ ∀ m, m ∈ calculateAllowedMoves board turn → captures m ≠ [].
Proof.
  intros Hin Hcell Hturn Hking Hd Hk Hempty Henemy Hcolor Hland Hopen.
  apply (kingScan_capture board turn r c piece dr dc (Z.to_nat k) enemy);
    try done.
  - intros i Hi. apply Hempty. lia.
  - by replace (Z.of_nat (Z.to_nat k + 1)) with (k + 1) by lia.
  - by replace (Z.of_nat (Z.to_nat k + 2)) with (k + 2) by lia.
  - by replace (Z.of_nat (Z.to_nat k + 2)) with (k + 2) by lia.
Qed.

Lemma king_capture_is_found_witness :
  hasAvailableCapture
    (setCell (setCell emptyBoard 7 0 (Some {| color := WHITE; isKing := true |}))
       3 4 (Some blackMan)) WHITE
  ∧ calculateAllowedMoves
      (setCell (setCell emptyBoard 7 0 (Some {| color := WHITE; isKing := true |}))
         3 4 (Some blackMan)) WHITE ≠ []
  ∧ ∀ m, m ∈ calculateAllowedMoves
               (setCell (setCell emptyBoard 7 0
                           (Some {| color := WHITE; isKing := true |}))
                  3 4 (Some blackMan)) WHITE → captures m ≠ [].
Proof.
  apply (king_capture_is_found _ WHITE 7 0 {| color := WHITE; isKing := true |}
           (-1) 1 3 blackMan); try reflexivity.
  - vm_compute. apply list_elem_of_further, list_elem_of_here.
  - lia.
  - intros i Hi. assert (i = 1 ∨ i = 2 ∨ i = 3) as [-> | [-> | ->]] by lia;
      reflexivity.
  - discriminate.
Defined.

(** ** What a legal move does to the board *)

(** A chain that ends on the promotion row of its piece crowns it. *)
Lemma getCaptureMoves_crowns board pos piece caps cip currentPath start m :
  m ∈ getCaptureMoves board pos piece caps cip currentPath start →
  promotionRow (color piece) (row (to m)) = true → becomesKing m = true.
Proof.
  revert pos piece caps cip currentPath m.
  apply (getCaptureMoves_ind board start
    (λ _ piece _ _ _ m,
       promotionRow (color piece) (row (to m)) = true → becomesKing m = true)).
  - intros _ piece caps _ cpath cap land _ _. unfold chainEnd.
    cbn [to becomesKing]. rewrite isKing_nextPieceState. by intros ->.
  - intros _ piece _ _ _ _ land m _ _ IH. exact IH.
Qed.

(** What is known of a move that [calculateAllowedMoves] returns. *)
Lemma calculateAllowedMoves_facts board turn m :
  wellFormed board → m ∈ calculateAllowedMoves board turn →
  ∃ p, cellAt board (row (from m)) (col (from m)) = Some p ∧ color p = turn
    ∧ inBoard (row (from m)) (col (from m)) = true
    ∧ inBoard (row (to m)) (col (to m)) = true
    ∧ (cellAt board (row (to m)) (col (to m)) = None ∨ to m = from m)
    ∧ NoDup (captures m)
    ∧ Forall (λ cap, inBoard (row cap) (col cap) = true
                     ∧ ∃ enemy, cellAt board (row cap) (col cap) = Some enemy
                                ∧ color enemy ≠ turn) (captures m)
    ∧ (promotionRow turn (row (to m)) = true → isKing p || becomesKing m = true)
    ∧ ∀ r c, cellAt (applyMove board m) r c = squareAfterMove board m p r c.
Proof.
  intros Hwf Hm.
  pose proof (calculateAllowedMoves_captures_inBoard _ _ _ Hwf Hm) as Hcaps.
  destruct (calculateAllowedMoves_from_to _ _ _ Hm)
    as ((p & Hp & Hturn) & Hfrom & Hto & _).
  exists p. do 4 (split; [done|]).
  assert (Hcell : ∀ r c,
    cellAt (applyMove board m) r c = squareAfterMove board m p r c).
  { intros r c. apply cellAt_applyMove; try done; try by apply wellFormed_hasCell.
    eapply Forall_impl; [done|]. intros cap. by apply wellFormed_hasCell. }
  revert Hm. rewrite calculateAllowedMoves_spec. case_bool_decide.
  - intros (r & c & piece & Hin & Hpiece & Hturn' & Hm)%elem_of_pieceMoves_squares.
    unfold chainsFrom in Hm.
    pose proof (getCaptureMoves_from_to _ _ _ _ _ _ _ _ Hm) as (Hstart & _ & _).
    rewrite Hstart in Hp. cbn [row col] in Hp.
    assert (piece = p) as -> by congruence.
    pose proof (getCaptureMoves_captures_enemy _ _ _ _ _ _ _ _ (Forall_nil_2 _) Hm)
      as [Henemy Hopen].
    split; [by rewrite Hstart|].
    split; [by eapply getCaptureMoves_NoDup; [apply NoDup_nil_2|done|exact Hm]|].
    split.
    { rewrite Forall_forall in Hcaps, Henemy. apply Forall_forall.
      intros cap Hcap. split; [by apply Hcaps|].
      destruct (Henemy _ Hcap) as (enemy & ? & ?). exists enemy. split; [done|].
      congruence. }
    split; [|done]. intros Hrow.
    rewrite (getCaptureMoves_crowns _ _ _ _ _ _ _ _ Hm); [apply orb_true_r|].
    by rewrite Hturn.
  - intros (r & c & piece & Hin & Hpiece & Hturn' & Hm)%elem_of_pieceMoves_squares.
    pose proof (getSimpleMoves_steps _ _ _ _ Hm)
      as (Hstart & Hnocap & _ & _ & Hempty & Hman & _).
    rewrite Hstart in Hp. cbn [row col] in Hp.
    assert (piece = p) as -> by congruence.
    split; [by left|]. rewrite Hnocap.
    split; [apply NoDup_nil_2|]. split; [apply Forall_nil_2|].
    split; [|done]. intros Hrow. destruct (isKing p) eqn:Hking; [done|].
    destruct (Hman eq_refl) as (_ & _ & ->). cbn [orb]. by rewrite Hturn.
Qed.

(** X18. A move returned by [calculateAllowedMoves], applied with
    [applyMove] to a board that is an 8x8 grid, puts the moved piece on
    [to], crowned if it was a king or the move says so, empties [from] and
    the captured squares, and leaves every other square as it was. *)
Theorem applyMove_legal_move board turn m :
  wellFormed board → m ∈ calculateAllowedMoves board turn →
  ∃ p, cellAt board (row (from m)) (col (from m)) = Some p ∧ color p = turn
    ∧ ∀ r c,
        cellAt (applyMove board m) r c =
        if bool_decide ({| row := r; col := c |} = to m) then
          Some {| color := turn; isKing := isKing p || becomesKing m |}
        else if bool_decide ({| row := r; col := c |} = from m
                             ∨ {| row := r; col := c |} ∈ captures m) then None
        else cellAt board r c.
Proof.
  intros Hwf Hm.
  destruct (calculateAllowedMoves_facts _ _ _ Hwf Hm)
    as (p & Hp & Hturn & _ & _ & Hopen & _ & Hcaps & _ & Hcell).
  exists p. split; [done|]. split; [done|]. intros r c.
  rewrite Hcell. unfold squareAfterMove.
  assert (Hto : to m ∉ captures m).
  { intros Hin. rewrite Forall_forall in Hcaps.
    destruct (Hcaps _ Hin) as (_ & enemy & Henemy & Hcolor).
    destruct Hopen as [Hnone | Heq]; [congruence|].
    rewrite Heq in Henemy. congruence. }
  destruct (decide ({| row := r; col := c |} = to m)) as [Heq | Hne].
  - rewrite (bool_decide_eq_true_2 (_ = to m)) by done.
    rewrite bool_decide_eq_false_2 by (by rewrite Heq). by rewrite Hturn.
  - rewrite (bool_decide_eq_false_2 (_ = to m)) by done.
    repeat case_bool_decide; try done; tauto.
Qed.

Lemma applyMove_legal_move_witness :
  ∃ p, cellAt doubleCaptureBoard (row (from doubleCaptureMove))
         (col (from doubleCaptureMove)) = Some p ∧ color p = WHITE
    ∧ ∀ r c,
        cellAt (applyMove doubleCaptureBoard doubleCaptureMove) r c =
        if bool_decide ({| row := r; col := c |} = to doubleCaptureMove) then
          Some {| color := WHITE;
                  isKing := isKing p || becomesKing doubleCaptureMove |}
        else if bool_decide ({| row := r; col := c |} = from doubleCaptureMove
                             ∨ {| row := r; col := c |} ∈ captures doubleCaptureMove)
        then None
        else cellAt doubleCaptureBoard r c.
Proof.
  apply (applyMove_legal_move doubleCaptureBoard WHITE doubleCaptureMove).
  - split; [reflexivity|]. vm_compute. repeat constructor.
  - vm_compute. apply list_elem_of_here.
Defined.

(** ** Men and the promotion row *)

Lemma initializeBoard_men (i j : nat) p :
  initializeBoard !! i ≫= (.!! j) = Some (Some p) →
  promotionRow (color p) (Z.of_nat i) = false.
Proof.
  change initializeBoard
    with (ltac:(let b := eval vm_compute in initializeBoard in exact b)).
  do 9 (destruct i as [|i];
    [do 9 (destruct j as [|j]; [cbn; by (discriminate || intros [= <-])|]);
     discriminate|]).
  discriminate.
Qed.

Lemma noManOnPromotionRow_initializeBoard : noManOnPromotionRow initializeBoard.
Proof.
  intros r c p Hcell _. revert Hcell. unfold cellAt.
  destruct ((0 <=? r) && (0 <=? c)) eqn:Hrc; [|done].
  intros Hcell. replace r with (Z.of_nat (Z.to_nat r)) by lia.
  apply (initializeBoard_men _ (Z.to_nat c)).
  destruct (initializeBoard !! Z.to_nat r) as [cells|]; [|done]. cbn.
  destruct (cells !! Z.to_nat c); [|done]. by f_equal.
Qed.

Lemma noManOnPromotionRow_applyMove board turn m :
  wellFormed board → noManOnPromotionRow board →
  m ∈ calculateAllowedMoves board turn →
  noManOnPromotionRow (applyMove board m).
Proof.
  intros Hwf Hinv Hm r c q.
  destruct (calculateAllowedMoves_facts _ _ _ Hwf Hm)
    as (p & Hp & Hturn & _ & _ & _ & _ & _ & Hcrown & Hcell).
  rewrite Hcell. unfold squareAfterMove.
  case_bool_decide; [done|]. case_bool_decide as Hto.
  - intros [= <-]. cbn [isKing color]. intros Hman. rewrite <- Hto in Hcrown.
    cbn [row] in Hcrown. rewrite Hturn.
    destruct (promotionRow turn r); [|done]. rewrite Hcrown in Hman; done.
  - case_bool_decide; [done|]. apply Hinv.
Qed.

(** X19. On the initial board and on every board reached from it by moves
    that [calculateAllowedMoves] returns, no man stands on the row where it
    is crowned (row 0 for white, row 7 for black): a man that ends its move
    there has become a king. *)
Theorem reachable_noManOnPromotionRow board :
  reachable board → noManOnPromotionRow board.
Proof.
  induction 1 as [|board turn move Hreach IH Hmove].
  - apply noManOnPromotionRow_initializeBoard.
  - eapply noManOnPromotionRow_applyMove; [by apply reachable_wellFormed|done..].
Qed.

Lemma reachable_noManOnPromotionRow_witness :
  noManOnPromotionRow (applyMove initializeBoard openingMove).
Proof.
  apply reachable_noManOnPromotionRow.
  apply (reachable_move initializeBoard WHITE openingMove).
  - apply reachable_init.
  - vm_compute. apply list_elem_of_here.
Defined.

(** ** Material *)

Lemma NoDup_squares : NoDup squares.
Proof.
  unfold squares, BOARD_SIZE. apply NoDup_bind.
  - intros r1 r2 rc _ _ (c1 & -> & _)%list_elem_of_fmap (c2 & [= -> _] & _)%list_elem_of_fmap.
    done.
  - intros r _. apply NoDup_fmap_2; [by intros ?? [= ->]|]. apply NoDup_seqZ.
  - apply NoDup_seqZ.
Qed.

(** The four counters of the loop of [performMove]. *)
Lemma countPieces_spec board :
  countPieces board =
  (countWhere (isOf WHITE) board squares, countWhere (isKingOf WHITE) board squares,
   countWhere (isOf BLACK) board squares, countWhere (isKingOf BLACK) board squares).
Proof.
  unfold countPieces.
  assert (H : ∀ l a b c d,
    foldl (λ '(whiteCount, whiteKings, blackCount, blackKings) '(r, c),
      match cellAt board r c with
      | Some p =>
          if colorEqb (color p) WHITE then
            (whiteCount + 1, if isKing p then whiteKings + 1 else whiteKings,
             blackCount, blackKings)
          else
            (whiteCount, whiteKings,
             blackCount + 1, if isKing p then blackKings + 1 else blackKings)
      | None => (whiteCount, whiteKings, blackCount, blackKings)
      end) (a, b, c, d) l =
    (a + countWhere (isOf WHITE) board l, b + countWhere (isKingOf WHITE) board l,
     c + countWhere (isOf BLACK) board l, d + countWhere (isKingOf BLACK) board l)).
  { induction l as [|[r c0] l IH]; intros a b c d.
    { cbn. by rewrite !Z.add_0_r. }
    cbn [foldl countWhere foldr fst snd].
    fold (countWhere (isOf WHITE) board l). fold (countWhere (isKingOf WHITE) board l).
    fold (countWhere (isOf BLACK) board l). fold (countWhere (isKingOf BLACK) board l).
    destruct (cellAt board r c0) as [[[] []]|]; cbn [color isKing colorEqb];
      rewrite IH; unfold indicator, isOf, isKingOf;
      cbn [color isKing colorEqb andb]; repeat apply (f_equal2 pair); lia. }
  by rewrite H.
Qed.

(** Assigning one square changes a count by what the square gains. *)
Lemma countWhere_setCell f board r c v l :
  hasCell board r c → NoDup l →
  countWhere f (setCell board r c v) l =
  countWhere f board l
  + (if bool_decide ((r, c) ∈ l)
     then indicator f v - indicator f (cellAt board r c) else 0).
Proof.
  intros Hcell. induction l as [|[r' c'] l IH]; intros Hnd.
  { cbn. done. }
  apply NoDup_cons in Hnd as [Hnotin Hnd]. cbn [countWhere foldr fst snd].
  fold (countWhere f (setCell board r c v) l). fold (countWhere f board l).
  rewrite IH by done. rewrite cellAt_setCell by done.
  destruct (decide (r' = r ∧ c' = c)) as [[-> ->] | Hne].
  - rewrite (bool_decide_eq_true_2 (_ ∧ _)) by done.
    rewrite (bool_decide_eq_false_2 (_ ∈ l)) by done.
    rewrite bool_decide_eq_true_2 by apply list_elem_of_here. lia.
  - rewrite (bool_decide_eq_false_2 (_ ∧ _)) by done.
    destruct (decide ((r, c) ∈ l)) as [Hin | Hnin].
    + rewrite (bool_decide_eq_true_2 (_ ∈ l)) by done.
      rewrite bool_decide_eq_true_2 by (by apply list_elem_of_further). lia.
    + rewrite (bool_decide_eq_false_2 (_ ∈ l)) by done.
      rewrite bool_decide_eq_false_2; [lia|].
      rewrite elem_of_cons. intros [[= -> ->] | ?]; [by apply Hne|done].
Qed.

Lemma countWhere_setCell_squares f board r c v :
  wellFormed board → inBoard r c = true →
  countWhere f (setCell board r c v) squares =
  countWhere f board squares + indicator f v - indicator f (cellAt board r c).
Proof.
  intros Hwf Hin. rewrite countWhere_setCell;
    [|by apply wellFormed_hasCell|apply NoDup_squares].
  rewrite bool_decide_eq_true_2 by (by apply elem_of_squares). lia.
Qed.

(** Emptying distinct squares removes what stood on them. *)
Lemma countWhere_clear f board (caps : list Position) :
  wellFormed board → NoDup caps →
  Forall (λ cap, inBoard (row cap) (col cap) = true) caps →
  countWhere f (foldl (λ b cap, setCell b (row cap) (col cap) None) board caps)
    squares
  = countWhere f board squares - countAt f board caps.
Proof.
  revert board. induction caps as [|[cr cc] caps IH]; intros board Hwf Hnd Hin.
  { cbn. lia. }
  apply NoDup_cons in Hnd as [Hnotin Hnd]. apply Forall_cons in Hin as [Hin0 Hin].
  cbn [foldl row col countAt foldr] in *. fold (countAt f board caps).
  rewrite IH; [|by apply wellFormed_setCell|done..].
  rewrite countWhere_setCell_squares by done. cbn [indicator].
  assert (countAt f (setCell board cr cc None) caps = countAt f board caps) as ->; [|lia].
  clear IH Hnd. induction caps as [|[r c] caps IH]; [done|].
  apply Forall_cons in Hin as [_ Hin]. cbn [countAt foldr row col].
  fold (countAt f (setCell board cr cc None) caps). fold (countAt f board caps).
  rewrite IH; [|by intros ?; apply Hnotin, list_elem_of_further|done].
  rewrite cellAt_setCell by (by apply wellFormed_hasCell).
  rewrite bool_decide_eq_false_2; [done|].
  intros [-> ->]. apply Hnotin, list_elem_of_here.
Qed.

(** The count of a legal move: the moved piece is counted as it arrives,
    the captured pieces are not counted any more. *)
Lemma countWhere_applyMove f board turn m :
  wellFormed board → m ∈ calculateAllowedMoves board turn →
  ∃ p, cellAt board (row (from m)) (col (from m)) = Some p ∧ color p = turn
    ∧ countWhere f (applyMove board m) squares =
      countWhere f board squares
      - indicator f (Some p)
      + indicator f (Some {| color := color p; isKing := isKing p || becomesKing m |})
      - countAt f board (captures m).
Proof.
  intros Hwf Hm.
  destruct (calculateAllowedMoves_facts _ _ _ Hwf Hm)
    as (p & Hp & Hturn & Hfrom & Hto & Hopen & Hnd & Hcaps & _ & _).
  exists p. split; [done|]. split; [done|].
  unfold applyMove. rewrite Hp.
  assert (Hin : Forall (λ cap, inBoard (row cap) (col cap) = true) (captures m)).
  { eapply Forall_impl; [done|]. by intros cap [? _]. }
  rewrite countWhere_clear; [|by do 2 apply wellFormed_setCell|done..].
  rewrite !countWhere_setCell_squares; [|done|done|by apply wellFormed_setCell|done].
  rewrite Hp.
  rewrite (cellAt_setCell board) by (by apply wellFormed_hasCell).
  assert ((if bool_decide (row (to m) = row (from m) ∧ col (to m) = col (from m))
           then None else cellAt board (row (to m)) (col (to m))) = None) as ->.
  { case_bool_decide as Heq; [done|]. destruct Hopen as [? | Hsame]; [done|].
    destruct Heq. by rewrite Hsame. }
  cbn [indicator].
  set (b2 := setCell (setCell _ _ _ _) _ _ _).
  assert (countAt f b2 (captures m) = countAt f board (captures m)) as ->; [|lia].
  subst b2. induction Hcaps as [|cap caps [Hcap (enemy & Henemy & Hcolor)] _ IH];
    [done|].
  apply NoDup_cons in Hnd as [_ Hnd]. apply Forall_cons in Hin as [_ Hin].
  cbn [countAt foldr].
  fold (countAt f (setCell (setCell board (row (from m)) (col (from m)) None)
                     (row (to m)) (col (to m))
                     (Some {| color := color p; isKing := isKing p || becomesKing m |}))
          caps).
  fold (countAt f board caps). rewrite IH by done. f_equal. f_equal.
  rewrite cellAt_setCell
    by (by apply hasCell_setCell, wellFormed_hasCell).
  rewrite cellAt_setCell by (by apply wellFormed_hasCell).
  rewrite bool_decide_eq_false_2; [rewrite bool_decide_eq_false_2; [done|]|].
  - intros [Hr Hc]. rewrite Hr, Hc in Henemy. congruence.
  - intros [Hr Hc]. rewrite Hr, Hc in Henemy.
    destruct Hopen as [? | Hsame]; [congruence|]. rewrite Hsame in Henemy. congruence.
Qed.

Lemma countAt_enemies f board turn (caps : list Position) :
  Forall (λ cap, inBoard (row cap) (col cap) = true
                 ∧ ∃ enemy, cellAt board (row cap) (col cap) = Some enemy
                            ∧ color enemy ≠ turn) caps →
  (∀ p, color p ≠ turn → f p = true) →
  countAt f board caps = Z.of_nat (length caps).
Proof.
  intros Hcaps Hf. induction Hcaps as [|cap caps (_ & enemy & Henemy & Hcolor) _ IH];
    [done|].
  cbn [countAt foldr length]. fold (countAt f board caps).
  rewrite IH, Henemy. cbn. rewrite Hf by done. lia.
Qed.

Lemma countAt_own f board turn (caps : list Position) :
  Forall (λ cap, inBoard (row cap) (col cap) = true
                 ∧ ∃ enemy, cellAt board (row cap) (col cap) = Some enemy
                            ∧ color enemy ≠ turn) caps →
  (∀ p, color p ≠ turn → f p = false) →
  countAt f board caps = 0.
Proof.
  intros Hcaps Hf. induction Hcaps as [|cap caps (_ & enemy & Henemy & Hcolor) _ IH];
    [done|].
  cbn [countAt foldr length]. fold (countAt f board caps).
  rewrite IH, Henemy. cbn. by rewrite Hf.
Qed.

Lemma applyMove_material_counts board turn m :
  wellFormed board → m ∈ calculateAllowedMoves board turn →
  match turn with
  | WHITE =>
      countWhere (isOf WHITE) (applyMove board m) squares
      = countWhere (isOf WHITE) board squares
      ∧ countWhere (isKingOf WHITE) board squares
        <= countWhere (isKingOf WHITE) (applyMove board m) squares
      ∧ countWhere (isOf BLACK) (applyMove board m) squares
        = countWhere (isOf BLACK) board squares - Z.of_nat (length (captures m))
  | BLACK =>
      countWhere (isOf BLACK) (applyMove board m) squares
      = countWhere (isOf BLACK) board squares
      ∧ countWhere (isKingOf BLACK) board squares
        <= countWhere (isKingOf BLACK) (applyMove board m) squares
      ∧ countWhere (isOf WHITE) (applyMove board m) squares
        = countWhere (isOf WHITE) board squares - Z.of_nat (length (captures m))
  end.
Proof.
  intros Hwf Hm.
  destruct (calculateAllowedMoves_facts _ _ _ Hwf Hm)
    as (_ & _ & _ & _ & _ & _ & _ & Hcaps & _ & _).
  destruct (countWhere_applyMove (isOf WHITE) _ _ _ Hwf Hm) as (p & Hp & Hturn & Hw).
  destruct (countWhere_applyMove (isOf BLACK) _ _ _ Hwf Hm) as (p1 & Hp1 & _ & Hb).
  destruct (countWhere_applyMove (isKingOf WHITE) _ _ _ Hwf Hm) as (p2 & Hp2 & _ & Hwk).
  destruct (countWhere_applyMove (isKingOf BLACK) _ _ _ Hwf Hm) as (p3 & Hp3 & _ & Hbk).
  assert (p1 = p) as -> by congruence. assert (p2 = p) as -> by congruence.
  assert (p3 = p) as -> by congruence.
  rewrite Hw, Hb, Hwk, Hbk. clear Hw Hb Hwk Hbk.
  destruct turn.
  - rewrite (countAt_own (isOf WHITE) _ WHITE), (countAt_own (isKingOf WHITE) _ WHITE),
      (countAt_enemies (isOf BLACK) _ WHITE); try done.
    + unfold indicator, isOf, isKingOf. cbn [color isKing]. rewrite Hturn. cbn.
      destruct (isKing p), (becomesKing m); cbn; lia.
    + intros [[] ?]; cbn; done.
    + intros [[] ?]; cbn; done.
    + intros [[] ?]; cbn; done.
  - rewrite (countAt_own (isOf BLACK) _ BLACK), (countAt_own (isKingOf BLACK) _ BLACK),
      (countAt_enemies (isOf WHITE) _ BLACK); try done.
    + unfold indicator, isOf, isKingOf. cbn [color isKing]. rewrite Hturn. cbn.
      destruct (isKing p), (becomesKing m); cbn; lia.
    + intros [[] ?]; cbn; done.
    + intros [[] ?]; cbn; done.
    + intros [[] ?]; cbn; done.
Qed.

(** X20. The piece counts of [performMove], taken before and after a move
    that [calculateAllowedMoves] returns for [turn]: the side that moves
    keeps its number of pieces and loses no king, the other side loses
    exactly one piece per captured square. *)
Theorem applyMove_material board turn m :
  wellFormed board → m ∈ calculateAllowedMoves board turn →
  let '(whiteCount, whiteKings, blackCount, blackKings) := countPieces board in
  let '(whiteCount', whiteKings', blackCount', blackKings') :=
    countPieces (applyMove board m) in
  match turn with
  | WHITE => whiteCount' = whiteCount ∧ whiteKings <= whiteKings'
             ∧ blackCount' = blackCount - Z.of_nat (length (captures m))
  | BLACK => blackCount' = blackCount ∧ blackKings <= blackKings'
             ∧ whiteCount' = whiteCount - Z.of_nat (length (captures m))
  end.
Proof.
  intros Hwf Hm. rewrite !countPieces_spec.
  exact (applyMove_material_counts board turn m Hwf Hm).
Qed.

Lemma applyMove_material_witness :
  let '(whiteCount, whiteKings, blackCount, blackKings) :=
    countPieces doubleCaptureBoard in
  let '(whiteCount', whiteKings', blackCount', blackKings') :=
    countPieces (applyMove doubleCaptureBoard doubleCaptureMove) in
  whiteCount' = whiteCount ∧ whiteKings <= whiteKings'
  ∧ blackCount' = blackCount - Z.of_nat (length (captures doubleCaptureMove)).
Proof.
  apply (applyMove_material doubleCaptureBoard WHITE doubleCaptureMove).
  - split; [reflexivity|]. vm_compute. repeat constructor.
  - vm_compute. apply list_elem_of_here.
Defined.

(** X21. On every board of a game each side has at most twelve pieces. *)
Theorem reachable_at_most_twelve board :
  reachable board →
  let '(whiteCount, _, blackCount, _) := countPieces board in
  0 <= whiteCount <= 12 ∧ 0 <= blackCount <= 12.
Proof.
  assert (Hpos : ∀ f b l, 0 <= countWhere f b l).
  { intros f b l. induction l as [|rc l IH]; [done|]. cbn [countWhere foldr].
    fold (countWhere f b l). unfold indicator.
    destruct (cellAt b rc.1 rc.2) as [q|]; [destruct (f q)|]; lia. }
  intros Hreach.
  enough (countWhere (isOf WHITE) board squares <= 12
          ∧ countWhere (isOf BLACK) board squares <= 12) as [? ?].
  { rewrite countPieces_spec.
    pose proof (Hpos (isOf WHITE) board squares).
    pose proof (Hpos (isOf BLACK) board squares). lia. }
  induction Hreach as [|board turn move Hreach IH Hmove].
  - by vm_compute.
  - pose proof (applyMove_material_counts board turn move
                  (reachable_wellFormed _ Hreach) Hmove) as H.
    destruct turn; lia.
Qed.

Lemma reachable_at_most_twelve_witness :
  let '(whiteCount, _, blackCount, _) :=
    countPieces (applyMove initializeBoard openingMove) in
  0 <= whiteCount <= 12 ∧ 0 <= blackCount <= 12.
Proof.
  apply (reachable_at_most_twelve (applyMove initializeBoard openingMove)).
  apply (reachable_move initializeBoard WHITE openingMove).
  - apply reachable_init.
  - vm_compute. apply list_elem_of_here.
Defined.

(** ** The search of the bot *)

Lemma insertByCaptures_perm m l : insertByCaptures m l ≡ₚ m :: l.
Proof.
  induction l as [|x l IH]; [done|]. cbn [insertByCaptures].
  destruct (_ <? _)%nat; [|done]. rewrite IH. apply Permutation_swap.
Qed.

Lemma sortByCaptures_perm l : sortByCaptures l ≡ₚ l.
Proof.
  induction l as [|m l IH]; [done|]. cbn [sortByCaptures foldr].
  fold (sortByCaptures l). by rewrite insertByCaptures_perm, IH.
Qed.

Lemma sortByCaptures_elem m l : m ∈ sortByCaptures l ↔ m ∈ l.
Proof. by rewrite sortByCaptures_perm. Qed.

Lemma sortByCaptures_nonempty l : l ≠ [] → sortByCaptures l ≠ [].
Proof.
  intros Hl Hnil. apply Hl, Permutation_nil_r. rewrite <- Hnil.
  symmetry. apply sortByCaptures_perm.
Qed.

Lemma isCaptureAvailable_nonempty l : isCaptureAvailable l = true → l ≠ [].
Proof. by destruct l. Qed.

Lemma length_zero_nil {A} (l : list A) : (Z.of_nat (length l) =? 0) = true → l = [].
Proof. destruct l; [done|]. intros H%Z.eqb_eq. cbn [length] in H. lia. Qed.

Lemma length_nonzero_nonempty {A} (l : list A) :
  (Z.of_nat (length l) =? 0) = false → l ≠ [].
Proof. by destruct l. Qed.

(** *** The range of the static evaluation *)

Lemma pieceValue_range p r c : 0 <= r <= 7 → 100 <= pieceValue p r c <= 815.
Proof.
  intros Hr. unfold pieceValue, SCORES.KING, SCORES.PIECE, SCORES.CENTER,
    SCORES.ADVANCE, SCORES.BACK_ROW.
  destruct p as [[] []]; cbn [color isKing colorEqb negb andb];
    destruct ((c >=? 2) && (c <=? 5) && (r >=? 2) && (r <=? 5));
    try destruct (r =? 7); try destruct (r =? 0); cbn [andb]; lia.
Qed.

Lemma evaluateStep_range board perspectiveColor score r c :
  0 <= r <= 7 →
  score - 815 <= evaluateStep board perspectiveColor score (r, c) <= score + 815.
Proof.
  intros Hr. unfold evaluateStep. destruct (cellAt board r c) as [p|]; [|lia].
  pose proof (pieceValue_range p r c Hr). destruct (colorEqb _ _); lia.
Qed.

Lemma evaluate_foldl_range board perspectiveColor (l : list (Z * Z)) score :
  Forall (λ rc, 0 <= rc.1 <= 7) l →
  score - 815 * Z.of_nat (length l)
  <= foldl (evaluateStep board perspectiveColor) score l
  <= score + 815 * Z.of_nat (length l).
Proof.
  intros Hl. revert score.
  induction Hl as [|[r c] l Hr _ IH]; intros score; cbn [foldl length]; [lia|].
  pose proof (evaluateStep_range board perspectiveColor score r c Hr).
  specialize (IH (evaluateStep board perspectiveColor score (r, c))). lia.
Qed.

Lemma evaluateBoard_range board perspectiveColor :
  - 52160 <= evaluateBoard board perspectiveColor <= 52160.
Proof.
  unfold evaluateBoard.
  pose proof (evaluate_foldl_range board perspectiveColor squares 0) as H.
  change (Z.of_nat (length squares)) with 64 in H. 
  assert (Forall (λ rc : Z * Z, 0 <= rc.1 <= 7) squares) as Hsq; [|specialize (H Hsq); lia].
  apply Forall_forall. intros [r c] Hrc%elem_of_squares%inBoard_spec.
  unfold BOARD_SIZE in Hrc. cbn. lia.
Qed.

Module BotPlainFacts.
Import BotPlain.

(** *** The range of the search values *)

Lemma maximize_range child board moves maxEval alpha beta lo hi :
  (∀ b a be, lo <= child b a be <= hi) → maxEval <= hi →
  moves ≠ [] ∨ lo <= maxEval →
  lo <= maximize child board moves maxEval alpha beta <= hi.
Proof.
  intros Hchild. revert maxEval alpha.
  induction moves as [|move rest IH]; intros maxEval alpha Hhi Hlo; cbn [maximize].
  { destruct Hlo; [done|lia]. }
  pose proof (Hchild (applyMove board move) alpha beta).
  destruct (beta <=? _); [lia|]. apply IH; [lia|right; lia].
Qed.

Lemma minimize_range child board moves minEval alpha beta lo hi :
  (∀ b a be, lo <= child b a be <= hi) → lo <= minEval →
  moves ≠ [] ∨ minEval <= hi →
  lo <= minimize child board moves minEval alpha beta <= hi.
Proof.
  intros Hchild. revert minEval beta.
  induction moves as [|move rest IH]; intros minEval beta Hlo Hhi; cbn [minimize].
  { destruct Hhi; [done|lia]. }
  pose proof (Hchild (applyMove board move) alpha beta).
  destruct (_ <=? alpha); [lia|]. apply IH; [lia|right; lia].
Qed.

Lemma quiescence_range qDepth board alpha beta isMaximizing botColor :
  - SCORES.WIN <= quiescence qDepth board alpha beta isMaximizing botColor
  <= SCORES.WIN.
Proof.
  revert board alpha beta isMaximizing.
  induction qDepth as [|q IH]; intros board alpha beta isMaximizing;
    cbn [quiescence]; pose proof (evaluateBoard_range board botColor);
    unfold SCORES.WIN in *; [lia|].
  destruct (isCaptureAvailable _) eqn:Hcap; cbn [negb]; [|lia].
  apply isCaptureAvailable_nonempty, sortByCaptures_nonempty in Hcap.
  destruct isMaximizing.
  - apply maximize_range; [intros; apply IH|unfold INFINITY; lia|by left].
  - apply minimize_range; [intros; apply IH|unfold INFINITY; lia|by left].
Qed.

Lemma minimax_range depth board alpha beta isMaximizing botColor :
  Z.of_nat depth <= 200000 →
  - SCORES.WIN <= minimax depth board alpha beta isMaximizing botColor
  <= SCORES.WIN.
Proof.
  revert board alpha beta isMaximizing.
  induction depth as [|d IH]; intros board alpha beta isMaximizing Hd.
  { apply quiescence_range. }
  cbn [minimax]. destruct (_ =? 0) eqn:Hlen.
  { unfold SCORES.WIN. destruct isMaximizing; lia. }
  apply length_nonzero_nonempty, sortByCaptures_nonempty in Hlen.
  destruct isMaximizing.
  - apply maximize_range;
      [intros; apply IH; lia|unfold INFINITY, SCORES.WIN; lia|by left].
  - apply minimize_range;
      [intros; apply IH; lia|unfold INFINITY, SCORES.WIN; lia|by left].
Qed.

Lemma moveValue_range board botColor move :
  - SCORES.WIN <= moveValue board botColor move <= SCORES.WIN.
Proof. apply minimax_range. unfold MAX_DEPTH. lia. Qed.

(** *** The root loop *)

Lemma rootLoop_spec board botColor moves bestMove bestValue :
  ∃ bestMove' bestValue',
    foldl (rootStep board botColor) (bestMove, bestValue) moves
    = (bestMove', bestValue')
    ∧ bestValue <= bestValue'
    ∧ (∀ m, m ∈ moves → moveValue board botColor m <= bestValue')
    ∧ ((bestMove' = bestMove ∧ bestValue' = bestValue)
       ∨ ∃ m, bestMove' = Some m ∧ m ∈ moves
              ∧ moveValue board botColor m = bestValue').
Proof.
  revert bestMove bestValue.
  induction moves as [|move rest IH]; intros bestMove bestValue.
  { exists bestMove, bestValue. split; [done|]. split; [lia|].
    split; [by intros m ?%elem_of_nil|by left]. }
  cbn [foldl]. unfold rootStep at 2.
  destruct (moveValue board botColor move >? bestValue) eqn:Hgt.
  - destruct (IH (Some move) (moveValue board botColor move))
      as (bm & bv & -> & Hle & Hall & Hbest).
    exists bm, bv. split; [done|]. split; [lia|]. split.
    + intros m [-> | Hm]%elem_of_cons; [done|by apply Hall].
    + right. destruct Hbest as [[-> ->] | (m & -> & Hm & Hv)].
      * exists move. split; [done|]. split; [apply list_elem_of_here|done].
      * exists m. split; [done|]. split; [by apply list_elem_of_further|done].
  - destruct (IH bestMove bestValue) as (bm & bv & -> & Hle & Hall & Hbest).
    exists bm, bv. split; [done|]. split; [done|]. split.
    + intros m [-> | Hm]%elem_of_cons; [lia|by apply Hall].
    + destruct Hbest as [[-> ->] | (m & -> & Hm & Hv)]; [by left|right].
      exists m. split; [done|]. split; [by apply list_elem_of_further|done].
Qed.

(** X23. [getSmartBotMove] answers [null] exactly when the bot has no
    legal move, and otherwise a move that [calculateAllowedMoves] returns
    for the bot, whatever order the random comparator leaves the moves
    in. *)
Theorem getSmartBotMove_legal shuffle board botColor :
  (∀ l, shuffle l ≡ₚ l) →
  match getSmartBotMove shuffle board botColor with
  | None => calculateAllowedMoves board botColor = []
  | Some move => move ∈ calculateAllowedMoves board botColor
  end.
Proof.
  intros Hshuffle. unfold getSmartBotMove.
  destruct (_ =? 0) eqn:Hlen0; [by apply length_zero_nil|].
  apply length_nonzero_nonempty in Hlen0.
  destruct (_ =? 1).
  { destruct (calculateAllowedMoves board botColor); [done|]. apply list_elem_of_here. }
  destruct (rootLoop_spec board botColor
              (sortByCaptures (shuffle (calculateAllowedMoves board botColor)))
              None (- INFINITY)) as (bm & bv & -> & _ & _ & Hbest).
  assert (Hin : ∀ m, m ∈ sortByCaptures (shuffle (calculateAllowedMoves board botColor))
                     → m ∈ calculateAllowedMoves board botColor).
  { intros m. by rewrite sortByCaptures_elem, Hshuffle. }
  destruct Hbest as [[-> _] | (m & -> & Hm & _)]; [|by apply Hin].
  destruct (sortByCaptures _) as [|m l] eqn:Hsorted.
  - apply (f_equal length) in Hsorted.
    rewrite sortByCaptures_perm, Hshuffle in Hsorted.
    by destruct (calculateAllowedMoves board botColor).
  - apply Hin, list_elem_of_here.
Qed.

Lemma getSmartBotMove_legal_witness :
  match getSmartBotMove (λ l, l) doubleCaptureBoard WHITE with
  | None => calculateAllowedMoves doubleCaptureBoard WHITE = []
  | Some move => move ∈ calculateAllowedMoves doubleCaptureBoard WHITE
  end.
Proof. apply (getSmartBotMove_legal (λ l, l)). reflexivity. Defined.

(** X24. The move that [getSmartBotMove] returns has the greatest search
    value ([minimax] to depth [MAX_DEPTH - 1] for the opponent's reply)
    among all legal moves of the bot: the loop always finds a best move,
    the fallback [validMoves[0]] after it is never used. *)
Theorem getSmartBotMove_best shuffle board botColor move :
  (∀ l, shuffle l ≡ₚ l) →
  getSmartBotMove shuffle board botColor = Some move →
  ∀ other, other ∈ calculateAllowedMoves board botColor →
    moveValue board botColor other <= moveValue board botColor move.
Proof.
  intros Hshuffle. unfold getSmartBotMove.
  destruct (_ =? 0) eqn:Hlen0; [done|].
  destruct (_ =? 1) eqn:Hlen1.
  { destruct (calculateAllowedMoves board botColor) as [|m [|m' l]];
      [done| |apply Z.eqb_eq in Hlen1; cbn [length] in Hlen1; lia].
    intros [= ->] other ->%list_elem_of_singleton. lia. }
  destruct (rootLoop_spec board botColor
              (sortByCaptures (shuffle (calculateAllowedMoves board botColor)))
              None (- INFINITY)) as (bm & bv & -> & _ & Hall & Hbest).
  assert (Hin : ∀ m, m ∈ calculateAllowedMoves board botColor →
                     m ∈ sortByCaptures (shuffle (calculateAllowedMoves board botColor))).
  { intros m. by rewrite sortByCaptures_elem, Hshuffle. }
  destruct Hbest as [[-> ->] | (m & -> & Hm & Hv)].
  - apply length_nonzero_nonempty in Hlen0.
    destruct (calculateAllowedMoves board botColor) as [|m l] eqn:Hmoves; [done|].
    pose proof (Hall m (Hin m (list_elem_of_here _ _))) as Hle.
    pose proof (moveValue_range board botColor m) as Hrange.
    unfold INFINITY, SCORES.WIN in *. lia.
  - intros [= ->] other Hother. rewrite Hv. by apply Hall, Hin.
Qed.

Lemma getSmartBotMove_best_witness :
  getSmartBotMove (λ l, l) initializeBoard WHITE = Some openingMove
  ∧ ∀ other, other ∈ calculateAllowedMoves initializeBoard WHITE →
      moveValue initializeBoard WHITE other
      <= moveValue initializeBoard WHITE openingMove.
Proof.
  split; [vm_compute; reflexivity|].
  apply (getSmartBotMove_best (λ l, l) initializeBoard WHITE openingMove).
  - reflexivity.
  - vm_compute. reflexivity.
Defined.

(** *** Cutting branches does not change the value *)

Lemma foldr_max_base base v (l : list Z) :
  foldr Z.max (Z.max base v) l = Z.max v (foldr Z.max base l).
Proof. induction l as [|x l IH]; cbn [foldr]; [lia|]. rewrite IH. lia. Qed.

Lemma foldr_min_base base v (l : list Z) :
  foldr Z.min (Z.min base v) l = Z.min v (foldr Z.min base l).
Proof. induction l as [|x l IH]; cbn [foldr]; [lia|]. rewrite IH. lia. Qed.

Lemma foldr_max_perm base (l l' : list Z) :
  l ≡ₚ l' → foldr Z.max base l = foldr Z.max base l'.
Proof.
  induction 1 as [|x l l' _ IH|x y l|l l' l'' _ IH1 _ IH2]; cbn [foldr];
    [done|rewrite IH; done|lia|congruence].
Qed.

Lemma foldr_min_perm base (l l' : list Z) :
  l ≡ₚ l' → foldr Z.min base l = foldr Z.min base l'.
Proof.
  induction 1 as [|x l l' _ IH|x y l|l l' l'' _ IH1 _ IH2]; cbn [foldr];
    [done|rewrite IH; done|lia|congruence].
Qed.

Lemma windowed_exact alpha beta v : windowed alpha beta v v.
Proof. unfold windowed. lia. Qed.

(** The loop of a maximizing node, entered with running maximum [maxEval]
    of the results so far and [best] of the values so far. *)
Lemma maximize_windowed child exact board moves maxEval a alpha beta best :
  (∀ move a', alpha <= a' → a' < beta →
     windowed a' beta (exact (applyMove board move))
       (child (applyMove board move) a' beta)) →
  a = Z.max alpha maxEval → a < beta →
  (maxEval <= alpha → best <= maxEval) → (alpha < maxEval → maxEval = best) →
  windowed alpha beta
    (foldr Z.max best ((λ move, exact (applyMove board move)) <$> moves))
    (maximize child board moves maxEval a beta).
Proof.
  intros Hchild. revert maxEval a best.
  induction moves as [|move rest IH]; intros maxEval a best Ha Hab Hlow Hin;
    cbn [maximize fmap list_fmap foldr].
  { unfold windowed. lia. }
  destruct (Hchild move a) as (Hr1 & Hr2 & Hr3); [lia|done|].
  set (r := child (applyMove board move) a beta) in *.
  set (v := exact (applyMove board move)) in *.
  destruct (Z.leb_spec beta (Z.max a r)) as [Hcut | Hgo].
  - generalize (foldr Z.max best ((λ move, exact (applyMove board move)) <$> rest)).
    intros others. unfold windowed. lia.
  - specialize (IH (Z.max maxEval r) (Z.max a r) (Z.max best v)).
    rewrite foldr_max_base in IH. apply IH; lia.
Qed.

Lemma minimize_windowed child exact board moves minEval b alpha beta best :
  (∀ move b', alpha < b' → b' <= beta →
     windowed alpha b' (exact (applyMove board move))
       (child (applyMove board move) alpha b')) →
  b = Z.min beta minEval → alpha < b →
  (beta <= minEval → minEval <= best) → (minEval < beta → minEval = best) →
  windowed alpha beta
    (foldr Z.min best ((λ move, exact (applyMove board move)) <$> moves))
    (minimize child board moves minEval alpha b).
Proof.
  intros Hchild. revert minEval b best.
  induction moves as [|move rest IH]; intros minEval b best Hb Hab Hhigh Hin;
    cbn [minimize fmap list_fmap foldr].
  { unfold windowed. lia. }
  destruct (Hchild move b) as (Hr1 & Hr2 & Hr3); [done|lia|].
  set (r := child (applyMove board move) alpha b) in *.
  set (v := exact (applyMove board move)) in *.
  destruct (Z.leb_spec (Z.min b r) alpha) as [Hcut | Hgo].
  - generalize (foldr Z.min best ((λ move, exact (applyMove board move)) <$> rest)).
    intros others. unfold windowed. lia.
  - specialize (IH (Z.min minEval r) (Z.min b r) (Z.min best v)).
    rewrite foldr_min_base in IH. apply IH; lia.
Qed.

Lemma exact_max_sorted (f : Move → Z) base moves :
  foldr Z.max base (f <$> sortByCaptures moves) = foldr Z.max base (f <$> moves).
Proof. apply foldr_max_perm, fmap_Permutation, sortByCaptures_perm. Qed.

Lemma exact_min_sorted (f : Move → Z) base moves :
  foldr Z.min base (f <$> sortByCaptures moves) = foldr Z.min base (f <$> moves).
Proof. apply foldr_min_perm, fmap_Permutation, sortByCaptures_perm. Qed.

Lemma quiescence_windowed qDepth board alpha beta isMaximizing botColor :
  - INFINITY <= alpha → alpha < beta → beta <= INFINITY →
  windowed alpha beta (exhaustiveQuiescence qDepth board isMaximizing botColor)
    (quiescence qDepth board alpha beta isMaximizing botColor).
Proof.
  revert board alpha beta isMaximizing.
  induction qDepth as [|q IH]; intros board alpha beta isMaximizing Hlo Hab Hhi;
    cbn [quiescence exhaustiveQuiescence]; [apply windowed_exact|].
  destruct (isCaptureAvailable _); cbn [negb]; [|apply windowed_exact].
  destruct isMaximizing.
  - rewrite <- (exact_max_sorted
      (λ move, exhaustiveQuiescence q (applyMove board move) false botColor)).
    apply (maximize_windowed _ (λ b, exhaustiveQuiescence q b false botColor));
      try lia.
    intros move a' ? ?. apply IH; lia.
  - rewrite <- (exact_min_sorted
      (λ move, exhaustiveQuiescence q (applyMove board move) true botColor)).
    apply (minimize_windowed _ (λ b, exhaustiveQuiescence q b true botColor));
      try lia.
    intros move b' ? ?. apply IH; lia.
Qed.

Lemma minimax_windowed depth board alpha beta isMaximizing botColor :
  - INFINITY <= alpha → alpha < beta → beta <= INFINITY →
  windowed alpha beta (exhaustiveMinimax depth board isMaximizing botColor)
    (minimax depth board alpha beta isMaximizing botColor).
Proof.
  revert board alpha beta isMaximizing.
  induction depth as [|d IH]; intros board alpha beta isMaximizing Hlo Hab Hhi.
  { by apply quiescence_windowed. }
  cbn [minimax exhaustiveMinimax].
  destruct (_ =? 0); [apply windowed_exact|].
  destruct isMaximizing.
  - rewrite <- (exact_max_sorted
      (λ move, exhaustiveMinimax d (applyMove board move) false botColor)).
    apply (maximize_windowed _ (λ b, exhaustiveMinimax d b false botColor));
      try lia.
    intros move a' ? ?. apply IH; lia.
  - rewrite <- (exact_min_sorted
      (λ move, exhaustiveMinimax d (applyMove board move) true botColor)).
    apply (minimize_windowed _ (λ b, exhaustiveMinimax d b true botColor));
      try lia.
    intros move b' ? ?. apply IH; lia.
Qed.

(** X25. The cuts of the alpha-beta loops never change the result of a
    search started with the full window: [minimax], with its quiescence
    search at the leaves, returns the value of the exhaustive search of
    the same depth, which takes the maximum or minimum over all moves. *)
Theorem minimax_alpha_beta_exact depth board isMaximizing botColor :
  Z.of_nat depth <= 200000 →
  minimax depth board (- INFINITY) INFINITY isMaximizing botColor
  = exhaustiveMinimax depth board isMaximizing botColor.
Proof.
  intros Hdepth.
  pose proof (minimax_range depth board (- INFINITY) INFINITY isMaximizing botColor
                Hdepth) as Hrange.
  destruct (minimax_windowed depth board (- INFINITY) INFINITY isMaximizing botColor)
    as (_ & _ & Hexact); unfold INFINITY, SCORES.WIN in *; lia.
Qed.

Lemma minimax_alpha_beta_exact_witness :
  minimax 2 initializeBoard (- INFINITY) INFINITY true WHITE
  = exhaustiveMinimax 2 initializeBoard true WHITE.
Proof. apply (minimax_alpha_beta_exact 2). cbn. lia. Defined.

End BotPlainFacts.

(** The first move of the sorted list captures at least as many pieces as
    any other. *)
Lemma sortByCaptures_head moves first :
  head (sortByCaptures moves) = Some first →
  Forall (λ move, (length (captures move) ≤ length (captures first))%nat) moves.
Proof.
  revert first. induction moves as [|m l IH]; intros first; [done|].
  cbn [sortByCaptures foldr]. fold (sortByCaptures l).
  destruct (sortByCaptures l) as [|x rest] eqn:Hsorted.
  - assert (l = []) as ->.
    { apply Permutation_nil_r. rewrite <- Hsorted. symmetry. apply sortByCaptures_perm. }
    cbn. intros [= ->]. by apply Forall_singleton.
  - specialize (IH x eq_refl). cbn [insertByCaptures].
    destruct (length (captures m) <? length (captures x))%nat eqn:Hlt.
    + cbn. intros [= <-]. apply Nat.ltb_lt in Hlt. constructor; [lia|done].
    + cbn. intros [= <-]. apply Nat.ltb_ge in Hlt. constructor; [lia|].
      eapply Forall_impl; [done|]. cbn. intros; lia.
Qed.

Module BotTimedFacts.
Import BotTimed.

Section ClockFacts.
Variable now : nat → Z.

(** *** Whatever the clock does *)

Lemma rootLoop_elem board botColor moves bestMove bestValue s result s' :
  rootLoop now board botColor moves bestMove bestValue s = (result, s') →
  result = bestMove ∨ ∃ move, result = Some move ∧ move ∈ moves.
Proof.
  revert bestMove bestValue s.
  induction moves as [|move rest IH]; intros bestMove bestValue s.
  { intros [= <- _]. by left. }
  cbn [rootLoop]. unfold bind at 1.
  destruct (timedOut now s) as [[] s1]; [intros [= <- _]; by left|].
  unfold bind at 1. destruct (minimax now _ _ _ _ _ _ s1) as [moveValue s2].
  destruct (moveValue >? bestValue); intros Hrest; apply IH in Hrest.
  - right. destruct Hrest as [-> | (m & -> & Hm)].
    + exists move. split; [done|apply list_elem_of_here].
    + exists m. split; [done|by apply list_elem_of_further].
  - destruct Hrest as [-> | (m & -> & Hm)]; [by left|right].
    exists m. split; [done|by apply list_elem_of_further].
Qed.

(** X26. With the time limit too, and whatever the clock shows,
    [getSmartBotMove] answers [null] exactly when the bot has no legal
    move and otherwise a move that [calculateAllowedMoves] returns for
    the bot. *)
Theorem getSmartBotMove_timed_legal shuffle board botColor s :
  (∀ l, shuffle l ≡ₚ l) →
  match (getSmartBotMove now shuffle board botColor s).1 with
  | None => calculateAllowedMoves board botColor = []
  | Some move => move ∈ calculateAllowedMoves board botColor
  end.
Proof.
  intros Hshuffle. unfold getSmartBotMove.
  destruct (_ =? 0) eqn:Hlen0; [by apply length_zero_nil|].
  apply length_nonzero_nonempty in Hlen0.
  destruct (_ =? 1).
  { cbn. destruct (calculateAllowedMoves board botColor); [done|].
    apply list_elem_of_here. }
  unfold bind at 1. destruct (startClock now s) as [[] s1].
  unfold bind at 1.
  destruct (rootLoop now _ _ _ _ _ s1) as [bestMove s2] eqn:Hloop.
  apply rootLoop_elem in Hloop. cbn [fst ret] in *.
  assert (Hin : ∀ m, m ∈ sortByCaptures (shuffle (calculateAllowedMoves board botColor))
                     → m ∈ calculateAllowedMoves board botColor).
  { intros m. by rewrite sortByCaptures_elem, Hshuffle. }
  destruct Hloop as [-> | (m & -> & Hm)]; [|by apply Hin].
  destruct (sortByCaptures _) as [|m l] eqn:Hsorted.
  - apply (f_equal length) in Hsorted.
    rewrite sortByCaptures_perm, Hshuffle in Hsorted.
    by destruct (calculateAllowedMoves board botColor).
  - apply Hin, list_elem_of_here.
Qed.

(** X27. When the time is up at the first check of the root loop, the
    bot still answers: with the first move of the sorted list, a legal
    move that captures at least as many pieces as any other. *)
Theorem getSmartBotMove_out_of_time shuffle board botColor s :
  (∀ l, shuffle l ≡ₚ l) →
  (2 ≤ length (calculateAllowedMoves board botColor))%nat →
  now (S (reads s)) - now (reads s) > TIMEOUT_MS →
  ∃ move,
    (getSmartBotMove now shuffle board botColor s).1 = Some move
    ∧ head (sortByCaptures (shuffle (calculateAllowedMoves board botColor)))
      = Some move
    ∧ move ∈ calculateAllowedMoves board botColor
    ∧ ∀ other, other ∈ calculateAllowedMoves board botColor →
        (length (captures other) ≤ length (captures move))%nat.
Proof.
  intros Hshuffle Hlen Hlate. unfold getSmartBotMove.
  destruct (_ =? 0) eqn:Hlen0; [apply Z.eqb_eq in Hlen0; lia|].
  destruct (_ =? 1) eqn:Hlen1; [apply Z.eqb_eq in Hlen1; lia|].
  destruct (sortByCaptures (shuffle (calculateAllowedMoves board botColor)))
    as [|first rest] eqn:Hsorted.
  { apply (f_equal length) in Hsorted.
    rewrite sortByCaptures_perm, Hshuffle in Hsorted. cbn in Hsorted. lia. }
  exists first. split; [|split; [done|]].
  - unfold bind, startClock, bind, dateNow. cbn [rootLoop].
    unfold bind, timedOut, bind, dateNow. cbn [reads searchStartTime].
    replace (_ >? _) with true by lia. done.
  - assert (Hhead : head (sortByCaptures (shuffle (calculateAllowedMoves board botColor)))
                    = Some first) by by rewrite Hsorted.
    apply sortByCaptures_head in Hhead. rewrite Forall_forall in Hhead.
    split.
    + rewrite <- Hshuffle, <- sortByCaptures_elem, Hsorted. apply list_elem_of_here.
    + intros other Hother. apply Hhead. by rewrite Hshuffle.
Qed.

(** *** When the time does not run out *)

Lemma timedOut_inTime : returnsInTime now (timedOut now) false.
Proof.
  intros s Hs. eexists. unfold timedOut, bind, dateNow. cbn [searchStartTime].
  split.
  - f_equal. pose proof (Hs (reads s) (le_n _)). lia.
  - intros n Hn. cbn [reads searchStartTime] in *. apply Hs. lia.
Qed.

Lemma maximize_inTime child value board moves maxEval alpha beta :
  (∀ b a be, returnsInTime now (child b a be) (value b a be)) →
  returnsInTime now (maximize child board moves maxEval alpha beta)
    (BotPlain.maximize value board moves maxEval alpha beta).
Proof.
  intros Hchild. revert maxEval alpha.
  induction moves as [|move rest IH]; intros maxEval alpha s Hs;
    cbn [maximize BotPlain.maximize].
  { by exists s. }
  unfold bind.
  destruct (Hchild (applyMove board move) alpha beta s Hs) as (s1 & -> & Hs1).
  destruct (beta <=? _); [by exists s1|]. by apply IH.
Qed.

Lemma minimize_inTime child value board moves minEval alpha beta :
  (∀ b a be, returnsInTime now (child b a be) (value b a be)) →
  returnsInTime now (minimize child board moves minEval alpha beta)
    (BotPlain.minimize value board moves minEval alpha beta).
Proof.
  intros Hchild. revert minEval beta.
  induction moves as [|move rest IH]; intros minEval beta s Hs;
    cbn [minimize BotPlain.minimize].
  { by exists s. }
  unfold bind.
  destruct (Hchild (applyMove board move) alpha beta s Hs) as (s1 & -> & Hs1).
  destruct (_ <=? alpha); [by exists s1|]. by apply IH.
Qed.

(** Without a timeout the quiescence search of this version returns what
    the one without a time limit returns. *)
Lemma quiescence_inTime qDepth board alpha beta isMaximizing botColor :
  returnsInTime now (quiescence now qDepth board alpha beta isMaximizing botColor)
    (BotPlain.quiescence qDepth board alpha beta isMaximizing botColor).
Proof.
  revert board alpha beta isMaximizing.
  induction qDepth as [|q IH]; intros board alpha beta isMaximizing s Hs;
    cbn [quiescence BotPlain.quiescence]; unfold bind at 1;
    destruct (timedOut_inTime s Hs) as (s1 & -> & Hs1); [by exists s1|].
  destruct (negb _); [by exists s1|].
  destruct isMaximizing.
  - apply maximize_inTime; [|done]. intros b a be. apply IH.
  - apply minimize_inTime; [|done]. intros b a be. apply IH.
Qed.

Lemma minimax_inTime depth board alpha beta isMaximizing botColor :
  returnsInTime now (minimax now depth board alpha beta isMaximizing botColor)
    (minimaxInTime depth board alpha beta isMaximizing botColor).
Proof.
  revert board alpha beta isMaximizing.
  induction depth as [|d IH]; intros board alpha beta isMaximizing s Hs;
    cbn [minimax minimaxInTime]; unfold bind at 1;
    destruct (timedOut_inTime s Hs) as (s1 & -> & Hs1).
  { by apply quiescence_inTime. }
  destruct (_ =? 0); [by exists s1|].
  destruct isMaximizing.
  - apply maximize_inTime; [|done]. intros b a be. apply IH.
  - apply minimize_inTime; [|done]. intros b a be. apply IH.
Qed.

End ClockFacts.

Lemma minimaxInTime_range depth board alpha beta isMaximizing botColor :
  Z.of_nat depth <= 200000 →
  - SCORES.WIN <= minimaxInTime depth board alpha beta isMaximizing botColor
  <= SCORES.WIN.
Proof.
  revert board alpha beta isMaximizing.
  induction depth as [|d IH]; intros board alpha beta isMaximizing Hd.
  { apply BotPlainFacts.quiescence_range. }
  cbn [minimaxInTime]. destruct (_ =? 0) eqn:Hlen.
  { unfold SCORES.WIN. destruct isMaximizing; lia. }
  apply length_nonzero_nonempty, sortByCaptures_nonempty in Hlen.
  destruct isMaximizing.
  - apply BotPlainFacts.maximize_range;
      [intros; apply IH; lia|unfold INFINITY, SCORES.WIN; lia|by left].
  - apply BotPlainFacts.minimize_range;
      [intros; apply IH; lia|unfold INFINITY, SCORES.WIN; lia|by left].
Qed.

Lemma minimaxInTime_windowed depth board alpha beta isMaximizing botColor :
  - INFINITY <= alpha → alpha < beta → beta <= INFINITY →
  BotPlain.windowed alpha beta (exhaustiveMinimax depth board isMaximizing botColor)
    (minimaxInTime depth board alpha beta isMaximizing botColor).
Proof.
  revert board alpha beta isMaximizing.
  induction depth as [|d IH]; intros board alpha beta isMaximizing Hlo Hab Hhi.
  { by apply BotPlainFacts.quiescence_windowed. }
  cbn [minimaxInTime exhaustiveMinimax].
  destruct (_ =? 0); [apply BotPlainFacts.windowed_exact|].
  destruct isMaximizing.
  - rewrite <- (BotPlainFacts.exact_max_sorted
      (λ move, exhaustiveMinimax d (applyMove board move) false botColor)).
    apply (BotPlainFacts.maximize_windowed _
             (λ b, exhaustiveMinimax d b false botColor)); try lia.
    intros move a' ? ?. apply IH; lia.
  - rewrite <- (BotPlainFacts.exact_min_sorted
      (λ move, exhaustiveMinimax d (applyMove board move) true botColor)).
    apply (BotPlainFacts.minimize_windowed _
             (λ b, exhaustiveMinimax d b true botColor)); try lia.
    intros move b' ? ?. apply IH; lia.
Qed.

Lemma minimax_inTime_exhaustive now depth board isMaximizing botColor :
  Z.of_nat depth <= 200000 →
  returnsInTime now
    (minimax now depth board (- INFINITY) INFINITY isMaximizing botColor)
    (exhaustiveMinimax depth board isMaximizing botColor).
Proof.
  intros Hdepth s Hs.
  destruct (minimax_inTime now depth board (- INFINITY) INFINITY isMaximizing
              botColor s Hs) as (s' & Hrun & Hs').
  exists s'. split; [|done]. rewrite Hrun. f_equal.
  pose proof (minimaxInTime_range depth board (- INFINITY) INFINITY isMaximizing
                botColor Hdepth) as Hrange.
  destruct (minimaxInTime_windowed depth board (- INFINITY) INFINITY isMaximizing
              botColor) as (_ & _ & Hexact); unfold INFINITY, SCORES.WIN in *; lia.
Qed.

Lemma exhaustiveMinimax_range depth board isMaximizing botColor :
  Z.of_nat depth <= 200000 →
  - SCORES.WIN <= exhaustiveMinimax depth board isMaximizing botColor <= SCORES.WIN.
Proof.
  intros Hdepth.
  pose proof (minimaxInTime_range depth board (- INFINITY) INFINITY isMaximizing
                botColor Hdepth) as Hrange.
  destruct (minimaxInTime_windowed depth board (- INFINITY) INFINITY isMaximizing
              botColor) as (_ & _ & Hexact); unfold INFINITY, SCORES.WIN in *; lia.
Qed.

(** The root loop when the clock does not interrupt it. *)
Lemma rootLoop_inTime now board botColor moves bestMove bestValue s :
  inTime now s →
  ∃ bestMove' bestValue' s',
    rootLoop now board botColor moves bestMove bestValue s = (bestMove', s')
    ∧ bestValue <= bestValue'
    ∧ (∀ m, m ∈ moves →
         exhaustiveMinimax (MAX_DEPTH - 1) (applyMove board m) false botColor
         <= bestValue')
    ∧ ((bestMove' = bestMove ∧ bestValue' = bestValue)
       ∨ ∃ m, bestMove' = Some m ∧ m ∈ moves
              ∧ exhaustiveMinimax (MAX_DEPTH - 1) (applyMove board m) false botColor
                = bestValue').
Proof.
  revert bestMove bestValue s.
  induction moves as [|move rest IH]; intros bestMove bestValue s Hs.
  { exists bestMove, bestValue, s. split; [done|]. split; [lia|].
    split; [by intros m ?%elem_of_nil|by left]. }
  cbn [rootLoop]. unfold bind at 1.
  destruct (timedOut_inTime now s Hs) as (s1 & -> & Hs1). unfold bind at 1.
  destruct (minimax_inTime_exhaustive now (MAX_DEPTH - 1) (applyMove board move)
              false botColor) with (s := s1) as (s2 & -> & Hs2);
    [unfold MAX_DEPTH; cbn; lia|done|].
  set (value := exhaustiveMinimax (MAX_DEPTH - 1) (applyMove board move) false
                  botColor).
  destruct (value >? bestValue) eqn:Hgt.
  - destruct (IH (Some move) value s2 Hs2) as (bm & bv & s3 & -> & Hle & Hall & Hbest).
    exists bm, bv, s3. split; [done|]. split; [lia|]. split.
    + intros m [-> | Hm]%elem_of_cons; [done|by apply Hall].
    + right. destruct Hbest as [[-> ->] | (m & -> & Hm & Hv)].
      * exists move. split; [done|]. split; [apply list_elem_of_here|done].
      * exists m. split; [done|]. split; [by apply list_elem_of_further|done].
  - destruct (IH bestMove bestValue s2 Hs2) as (bm & bv & s3 & -> & Hle & Hall & Hbest).
    exists bm, bv, s3. split; [done|]. split; [done|]. split.
    + intros m [-> | Hm]%elem_of_cons; [fold value; lia|by apply Hall].
    + destruct Hbest as [[-> ->] | (m & -> & Hm & Hv)]; [by left|right].
      exists m. split; [done|]. split; [by apply list_elem_of_further|done].
Qed.

(** X28. A search that the clock does not interrupt is exact: started
    with the full window in a state from which no reading of the clock is
    more than [TIMEOUT_MS] after [searchStartTime], [minimax] returns the
    value of the exhaustive search of the same depth, and leaves such a
    state. *)
Theorem minimax_in_time_exact now depth board isMaximizing botColor s :
  Z.of_nat depth <= 200000 →
  inTime now s →
  ∃ s', minimax now depth board (- INFINITY) INFINITY isMaximizing botColor s
        = (exhaustiveMinimax depth board isMaximizing botColor, s')
        ∧ inTime now s'.
Proof. intros Hdepth Hs. by apply minimax_inTime_exhaustive. Qed.

(** X29. When no reading of the clock during the run is more than
    [TIMEOUT_MS] after the first one, the move that [getSmartBotMove]
    returns is a best one: no legal move of the bot leads to a position
    of greater exhaustive search value. *)
Theorem getSmartBotMove_in_time_best now shuffle board botColor s move :
  (∀ l, shuffle l ≡ₚ l) →
  (∀ n, (reads s ≤ n)%nat → now n - now (reads s) <= TIMEOUT_MS) →
  (getSmartBotMove now shuffle board botColor s).1 = Some move →
  ∀ other, other ∈ calculateAllowedMoves board botColor →
    exhaustiveMinimax (MAX_DEPTH - 1) (applyMove board other) false botColor
    <= exhaustiveMinimax (MAX_DEPTH - 1) (applyMove board move) false botColor.
Proof.
  intros Hshuffle Hclock. unfold getSmartBotMove.
  destruct (_ =? 0) eqn:Hlen0; [done|].
  destruct (_ =? 1) eqn:Hlen1.
  { destruct (calculateAllowedMoves board botColor) as [|m [|m' l]];
      [done| |apply Z.eqb_eq in Hlen1; cbn [length] in Hlen1; lia].
    cbn. intros [= ->] other ->%list_elem_of_singleton. lia. }
  unfold bind at 1, startClock, bind, dateNow.
  set (s1 := {| reads := _; searchStartTime := _ |}).
  assert (Hs1 : inTime now s1).
  { intros n Hn. subst s1. cbn [reads searchStartTime] in *. apply Hclock. lia. }
  destruct (rootLoop_inTime now board botColor
              (sortByCaptures (shuffle (calculateAllowedMoves board botColor)))
              None (- INFINITY) s1 Hs1) as (bm & bv & s2 & -> & _ & Hall & Hbest).
  assert (Hin : ∀ m, m ∈ calculateAllowedMoves board botColor →
                     m ∈ sortByCaptures (shuffle (calculateAllowedMoves board botColor))).
  { intros m. by rewrite sortByCaptures_elem, Hshuffle. }
  cbn [fst ret].
  destruct Hbest as [[-> ->] | (m & -> & Hm & Hv)].
  - apply length_nonzero_nonempty in Hlen0.
    destruct (calculateAllowedMoves board botColor) as [|m l] eqn:Hmoves; [done|].
    pose proof (Hall m (Hin m (list_elem_of_here _ _))) as Hle.
    assert (Hdepth : Z.of_nat (MAX_DEPTH - 1) <= 200000) by (cbn; lia).
    pose proof (exhaustiveMinimax_range (MAX_DEPTH - 1) (applyMove board m) false
                  botColor Hdepth) as Hrange.
    unfold INFINITY, SCORES.WIN in *. exfalso. lia.
  - intros [= ->] other Hother. rewrite Hv. by apply Hall, Hin.
Qed.

Lemma getSmartBotMove_timed_legal_witness :
  match (getSmartBotMove (λ n, Z.of_nat n) (λ l, l) initializeBoard WHITE
           {| reads := 0; searchStartTime := 0 |}).1 with
  | None => calculateAllowedMoves initializeBoard WHITE = []
  | Some move => move ∈ calculateAllowedMoves initializeBoard WHITE
  end.
Proof.
  apply (getSmartBotMove_timed_legal (λ n, Z.of_nat n) (λ l, l) initializeBoard WHITE
           {| reads := 0; searchStartTime := 0 |}).
  reflexivity.
Defined.

Lemma getSmartBotMove_out_of_time_witness :
  ∃ move,
    (getSmartBotMove (λ n, 1000 * Z.of_nat n) (λ l, l) initializeBoard WHITE
       {| reads := 0; searchStartTime := 0 |}).1 = Some move
    ∧ head (sortByCaptures (calculateAllowedMoves initializeBoard WHITE)) = Some move
    ∧ move ∈ calculateAllowedMoves initializeBoard WHITE
    ∧ ∀ other, other ∈ calculateAllowedMoves initializeBoard WHITE →
        (length (captures other) ≤ length (captures move))%nat.
Proof.
  apply (getSmartBotMove_out_of_time (λ n, 1000 * Z.of_nat n) (λ l, l)
           initializeBoard WHITE {| reads := 0; searchStartTime := 0 |}).
  - reflexivity.
  - vm_compute. lia.
  - reflexivity.
Defined.

Lemma minimax_in_time_exact_witness :
  ∃ s', minimax (λ _, 0) 2 initializeBoard (- INFINITY) INFINITY true WHITE
          {| reads := 0; searchStartTime := 0 |}
        = (exhaustiveMinimax 2 initializeBoard true WHITE, s')
        ∧ inTime (λ _, 0) s'.
Proof.
  apply (minimax_in_time_exact (λ _, 0) 2 initializeBoard true WHITE
           {| reads := 0; searchStartTime := 0 |}).
  - simpl. lia.
  - intros n _. simpl. unfold TIMEOUT_MS. lia.
Defined.

Lemma getSmartBotMove_in_time_best_witness :
  (getSmartBotMove (λ _, 0) (λ l, l) initializeBoard WHITE
     {| reads := 0; searchStartTime := 0 |}).1 = Some openingMove
  ∧ ∀ other, other ∈ calculateAllowedMoves initializeBoard WHITE →
      exhaustiveMinimax (MAX_DEPTH - 1) (applyMove initializeBoard other) false WHITE
      <= exhaustiveMinimax (MAX_DEPTH - 1) (applyMove initializeBoard openingMove)
           false WHITE.
Proof.
  split; [vm_compute; reflexivity|].
  apply (getSmartBotMove_in_time_best (λ _, 0) (λ l, l) initializeBoard WHITE
           {| reads := 0; searchStartTime := 0 |} openingMove).
  - reflexivity.
  - intros n _. simpl. unfold TIMEOUT_MS. lia.
  - vm_compute. reflexivity.
Defined.

End BotTimedFacts.

(** ** Game store operations *)

(** C2. A [performMove] whose snapshot carries a version other than the
    one of the stored record is rejected with the error of the version
    check, and the store, hence every field of the stored record, is
    unchanged. *)
Theorem performMove_stale_version
    (db : gmap string GameData) gameId gameData freshData move nextTurn now ts :
  db !! gameId = Some freshData →
  version freshData ≠ version gameData →
  performMove db gameId gameData move nextTurn now ts
  = (Rejected "Game state has changed, reload recommended", db).
Proof.
  intros Hdoc Hversion. unfold performMove.
  destruct (if Z.of_nat _ =? 0 then _ else _) as [status1 winner1].
  destruct (countPieces _) as [[[whiteCount whiteKings] blackCount] blackKings].
  unfold runTransaction. rewrite Hdoc.
  by rewrite (proj2 (Z.eqb_neq _ _) Hversion).
Qed.

(** What [resolveTakeback] does when the takeback is declined, or
    accepted without a previous state: the record is stored again with its
    request cleared and nothing else changed. *)
Lemma resolveTakeback_declined (db : gmap string GameData) gameId accepted data :
  db !! gameId = Some data →
  accepted = false ∨ previousState data = None →
  resolveTakeback db gameId accepted
  = (Resolved tt, <[gameId := clearTakebackRequest data]> db).
Proof.
  intros Hdoc Hcase. unfold resolveTakeback, runTransaction. rewrite Hdoc.
  destruct accepted; cbn [negb]; [|done].
  destruct Hcase as [? | ->]; done.
Qed.

(** The later revision of [resolveTakeback] does what the specification
    says of a declined takeback: the request is cleared, the version goes
    up by one, and board, turn and half-move clock stay. *)
Lemma later_resolveTakeback_declined (db : gmap string GameData) gameId accepted data :
  db !! gameId = Some data →
  accepted = false ∨ previousState data = None →
  ∃ data',
    LaterRevision.resolveTakeback db gameId accepted
      = (Resolved tt, <[gameId := data']> db)
    ∧ takebackRequest data' = None ∧ version data' = version data + 1
    ∧ board data' = board data ∧ turn data' = turn data
    ∧ halfMoveClock data' = halfMoveClock data.
Proof.
  intros Hdoc Hcase. exists (LaterRevision.clearTakebackRequest data).
  split; [|done]. unfold LaterRevision.resolveTakeback, runTransaction.
  rewrite Hdoc. destruct accepted; cbn [negb]; [|done].
  destruct Hcase as [? | ->]; done.
Qed.

(** The fields that a declined takeback leaves as they were, the version
    among them. *)
Lemma clearTakebackRequest_fields data :
  takebackRequest (clearTakebackRequest data) = None
  ∧ version (clearTakebackRequest data) = version data
  ∧ board (clearTakebackRequest data) = board data
  ∧ turn (clearTakebackRequest data) = turn data
  ∧ halfMoveClock (clearTakebackRequest data) = halfMoveClock data.
Proof. done. Qed.

(** C10. With both player slots empty [joinGame] is rejected with "Game is
    full" and the store is unchanged; and a joiner who is not a participant
    is seated (the operation resolves) only if exactly one slot is empty. *)
Theorem joinGame_needs_exactly_one_empty_slot
    (db : gmap string GameData) gameId playerId data :
  db !! gameId = Some data →
  (white (players data) = None → black (players data) = None →
   joinGame db gameId playerId = (Rejected "Game is full", db))
  ∧ (∀ db',
       white (players data) ≠ Some playerId →
       black (players data) ≠ Some playerId →
       joinGame db gameId playerId = (Resolved tt, db') →
       (white (players data) = None ∧ black (players data) ≠ None
        ∧ (white <$> (players <$> db' !! gameId)) = Some (Some playerId))
       ∨ (black (players data) = None ∧ white (players data) ≠ None
          ∧ (black <$> (players <$> db' !! gameId)) = Some (Some playerId))).
Proof.
  intros Hdoc. unfold joinGame, runTransaction. rewrite Hdoc. split.
  - intros -> ->. done.
  - intros db' Hw Hb.
    rewrite (bool_decide_eq_false_2 _ Hw), (bool_decide_eq_false_2 _ Hb).
    cbn [orb].
    destruct (black (players data)) as [b|], (white (players data)) as [w|];
      cbn; intros [= <-]; rewrite lookup_insert_eq; cbn; naive_solver.
Qed.

(** ** More on the game store *)

Lemma seatFor_spec preferredColor color playerId :
  seatFor preferredColor color playerId
  = if bool_decide (preferredColor = color) then Some playerId else None.
Proof. unfold seatFor. by destruct preferredColor, color. Qed.

(** X1. A game created by one player and joined by another is ACTIVE at
    version 1, with the creator on the colour asked for, the joiner on the
    other, and the board it was created with. *)
Theorem createGame_then_joinGame
    (db : gmap string GameData) gameId creator joiner preferredColor
    isRandomColor initialBoard nowExpire nowCreated :
  creator ≠ joiner →
  ∃ data,
    joinGame (createGame db gameId creator preferredColor isRandomColor
                initialBoard nowExpire nowCreated).2 gameId joiner
    = (Resolved tt,
       <[gameId := data]>
         (createGame db gameId creator preferredColor isRandomColor
            initialBoard nowExpire nowCreated).2)
    ∧ status data = ACTIVE ∧ version data = 1
    ∧ players data
      = match preferredColor with
        | WHITE => {| white := Some creator; black := Some joiner |}
        | BLACK => {| white := Some joiner; black := Some creator |}
        end
    ∧ board data = default initializeBoard initialBoard
    ∧ turn data = WHITE.
Proof.
  intros Hne. unfold createGame, joinGame, runTransaction. cbn [snd].
  rewrite lookup_insert_eq. cbn [players white black].
  destruct preferredColor; cbn [seatFor colorEqb].
  - rewrite (bool_decide_eq_false_2 (Some creator = Some joiner)) by congruence.
    rewrite (bool_decide_eq_false_2 (None = Some joiner)) by done.
    rewrite (bool_decide_eq_true_2 (None = None)) by done.
    rewrite (bool_decide_eq_true_2 (Some creator ≠ None)) by done.
    cbn [orb andb]. eexists. split; [reflexivity|]. by destruct initialBoard.
  - rewrite (bool_decide_eq_false_2 (Some creator = Some joiner)) by congruence.
    rewrite (bool_decide_eq_false_2 (None = Some joiner)) by done.
    rewrite (bool_decide_eq_false_2 (Some creator = None)) by done.
    rewrite (bool_decide_eq_true_2 (None = None)) by done.
    rewrite (bool_decide_eq_false_2 (None ≠ None)) by (intros H; by apply H).
    rewrite (bool_decide_eq_true_2 (Some creator ≠ None)) by done.
    cbn [orb andb]. eexists. split; [reflexivity|]. by destruct initialBoard.
Qed.

Lemma createGame_then_joinGame_witness :
  ∃ data,
    joinGame (createGame ∅ "g" "alice" BLACK false None 0 0).2 "g" "bob"
    = (Resolved tt, <["g"%string := data]>
                      (createGame ∅ "g" "alice" BLACK false None 0 0).2)
    ∧ status data = ACTIVE ∧ version data = 1
    ∧ players data = {| white := Some "bob"%string; black := Some "alice"%string |}
    ∧ board data = initializeBoard
    ∧ turn data = WHITE.
Proof.
  apply (createGame_then_joinGame ∅ "g" "alice" "bob" BLACK false None 0 0).
  discriminate.
Defined.

(** X2. [joinGame] is idempotent: once it has resolved for a player, the
    same call resolves again and leaves the store as it is. *)
Theorem joinGame_idempotent (db db1 : gmap string GameData) gameId playerId :
  joinGame db gameId playerId = (Resolved tt, db1) →
  joinGame db1 gameId playerId = (Resolved tt, db1).
Proof.
  unfold joinGame, runTransaction.
  destruct (db !! gameId) as [data|] eqn:Hdoc; [|done].
  destruct (bool_decide (white (players data) = Some playerId)
            || bool_decide (black (players data) = Some playerId)) eqn:Hin.
  { intros [= <-]. by rewrite Hdoc, Hin. }
  destruct (bool_decide (black (players data) = None)
            && bool_decide (white (players data) ≠ None)) eqn:Hb.
  { intros [= <-]. rewrite lookup_insert_eq. cbn [players white black].
    rewrite (bool_decide_eq_true_2 (Some playerId = Some playerId)) by done.
    by rewrite orb_true_r. }
  destruct (bool_decide (white (players data) = None)
            && bool_decide (black (players data) ≠ None)) eqn:Hw; [|done].
  intros [= <-]. rewrite lookup_insert_eq. cbn [players white black].
  by rewrite (bool_decide_eq_true_2 (Some playerId = Some playerId)) by done.
Qed.

Lemma joinGame_idempotent_witness :
  joinGame (joinGame {["g"%string := gameWaitingForBlack]} "g" "bob").2 "g" "bob"
  = (Resolved tt, (joinGame {["g"%string := gameWaitingForBlack]} "g" "bob").2).
Proof.
  apply (joinGame_idempotent {["g"%string := gameWaitingForBlack]}).
  reflexivity.
Defined.

(** X3. On a game with both seats taken [joinGame] never changes the store:
    it resolves for the two participants and is rejected with "Game is
    full" for everybody else; on an id without a game it is rejected with
    "Game not found". *)
Theorem joinGame_full_or_missing (db : gmap string GameData) gameId playerId :
  (db !! gameId = None →
   joinGame db gameId playerId = (Rejected "Game not found", db))
  ∧ (∀ data a b,
       db !! gameId = Some data →
       white (players data) = Some a → black (players data) = Some b →
       joinGame db gameId playerId
       = (if bool_decide (playerId = a ∨ playerId = b) then Resolved tt
          else Rejected "Game is full", db)).
Proof.
  unfold joinGame, runTransaction. split.
  - by intros ->.
  - intros data a b Hdoc Hw Hb. rewrite Hdoc, Hw, Hb.
    rewrite (bool_decide_eq_false_2 (Some b = None)) by done.
    rewrite (bool_decide_eq_false_2 (Some a = None)) by done. cbn [andb].
    destruct (decide (playerId = a ∨ playerId = b)) as [Hp | Hp].
    + rewrite (bool_decide_eq_true_2 (_ ∨ _)) by done. destruct Hp as [-> | ->].
      * by rewrite (bool_decide_eq_true_2 (Some a = Some a)).
      * rewrite (bool_decide_eq_true_2 (Some b = Some b)) by done.
        by rewrite orb_true_r.
    + rewrite (bool_decide_eq_false_2 (_ ∨ _)) by done.
      rewrite (bool_decide_eq_false_2 (Some a = Some playerId)) by naive_solver.
      by rewrite (bool_decide_eq_false_2 (Some b = Some playerId)) by naive_solver.
Qed.

(** A [performMove] that does not find the game at the caller's version
    leaves the store as it is. *)
Lemma performMove_no_commit
    (db : gmap string GameData) gameId gameData move nextTurn now ts :
  (∀ freshData, db !! gameId = Some freshData →
                version freshData ≠ version gameData) →
  (performMove db gameId gameData move nextTurn now ts).2 = db.
Proof.
  intros Hstale. unfold performMove.
  destruct (if Z.of_nat _ =? 0 then _ else _) as [status1 winner1].
  destruct (countPieces _) as [[[whiteCount whiteKings] blackCount] blackKings].
  unfold runTransaction. destruct (db !! gameId) as [freshData|]; [|done].
  specialize (Hstale freshData eq_refl).
  by rewrite (proj2 (Z.eqb_neq _ _) Hstale).
Qed.

(** The record that a committed [performMove] stores. *)
Lemma performMove_commit
    (db : gmap string GameData) gameId gameData freshData move nextTurn now ts :
  db !! gameId = Some freshData →
  version freshData = version gameData →
  ∃ data',
    performMove db gameId gameData move nextTurn now ts
    = (Resolved tt, <[gameId := data']> db)
    ∧ board data' = applyMove (board gameData) move
    ∧ turn data' = nextTurn
    ∧ players data' = players freshData
    ∧ version data' = version freshData + 1
    ∧ previousState data'
      = Some {| previous_board := board freshData;
                previous_turn := turn freshData;
                previous_halfMoveClock := halfMoveClock freshData;
                previous_lastMove := lastMove freshData |}
    ∧ takebackRequest data' = None
    ∧ lastMove data'
      = Some {| lastMove_from := from move; lastMove_to := to move;
                lastMove_path := Some (path move); lastMove_ts := ts |}
    ∧ halfMoveClock data'
      = (if match cellAt (board gameData) (row (from move)) (col (from move)) with
            | Some p => negb (isKing p)
            | None => false
            end || (0 <? Z.of_nat (length (captures move)))
         then 0 else halfMoveClock freshData + 1)
    ∧ (winner data'
       = if Z.of_nat (length (calculateAllowedMoves
                                (applyMove (board gameData) move) nextTurn)) =? 0
         then Some (turn gameData) else None)
    ∧ (winner data' ≠ None → status data' = FINISHED)
    ∧ (60 <= halfMoveClock data' → status data' = FINISHED ∨ status data' = DRAW)
    ∧ rematchId data' = rematchId freshData
    ∧ createdAt data' = createdAt freshData
    ∧ metadata data' = metadata freshData
    ∧ expireAt data' = now + oneDayMs.
Proof.
  intros Hdoc Hversion. unfold performMove.
  generalize (applyMove (board gameData) move). intros newBoard.
  generalize (calculateAllowedMoves newBoard nextTurn). intros nextPlayerMoves.
  generalize (match cellAt (board gameData) (row (from move)) (col (from move)) with
              | Some p => negb (isKing p)
              | None => false
              end || (0 <? Z.of_nat (length (captures move)))).
  intros resetClock.
  destruct (countPieces newBoard) as [[[whiteCount whiteKings] blackCount] blackKings].
  destruct (Z.of_nat (length nextPlayerMoves) =? 0) eqn:Hmoves;
    unfold runTransaction; rewrite Hdoc, Hversion, Z.eqb_refl; cbn [negb];
    (eexists; split; [reflexivity|]);
    cbn [board turn players version previousState takebackRequest lastMove
         halfMoveClock winner status rematchId createdAt metadata expireAt];
    rewrite <- ?andb_assoc;
    generalize ((whiteCount =? 1) && ((whiteKings =? 1) && ((blackCount =? 1)
                && (blackKings =? 1)))); intros kingsOnly;
    repeat split; try reflexivity;
    intros H; destruct (status gameData), kingsOnly, resetClock;
    repeat (case_bool_decide; cbn [andb] in * ); repeat case_match;
    try lia; try congruence; auto.
Qed.

(** X4. For a move whose squares lie on the 8x8 board of the caller's
    snapshot (so that the reads of the board and [applyMove], which come
    before the transaction, go through), [performMove] is rejected with
    "Game missing" when the id has no game, and its only check on an
    existing game is the version: a call with the stored version commits
    the move, whether it is legal or not, storing [applyMove] of the
    caller's board, the caller's [nextTurn] and the next version. *)
Theorem performMove_checks_only_the_version
    (db : gmap string GameData) gameId gameData move nextTurn now ts :
  wellFormed (board gameData) →
  inBoard (row (from move)) (col (from move)) = true →
  inBoard (row (to move)) (col (to move)) = true →
  Forall (λ cap, inBoard (row cap) (col cap) = true) (captures move) →
  (db !! gameId = None →
   performMove db gameId gameData move nextTurn now ts
   = (Rejected "Game missing", db))
  ∧ (∀ freshData,
       db !! gameId = Some freshData →
       version freshData = version gameData →
       ∃ data',
         performMove db gameId gameData move nextTurn now ts
         = (Resolved tt, <[gameId := data']> db)
         ∧ board data' = applyMove (board gameData) move
         ∧ turn data' = nextTurn
         ∧ version data' = version freshData + 1
         ∧ players data' = players freshData).
Proof.
  intros _ _ _ _. split.
  - intros Hdoc. unfold performMove.
    destruct (if Z.of_nat _ =? 0 then _ else _) as [status1 winner1].
    destruct (countPieces _) as [[[whiteCount whiteKings] blackCount] blackKings].
    unfold runTransaction. by rewrite Hdoc.
  - intros freshData Hdoc Hversion.
    destruct (performMove_commit db gameId gameData freshData move nextTurn now ts
                Hdoc Hversion) as (data' & -> & ? & ? & ? & ? & _).
    by exists data'.
Qed.

Lemma performMove_checks_only_the_version_witness :
  (({["g"%string := gameWithRequest None]} : gmap string GameData) !! "g"%string
   = None →
   performMove {["g"%string := gameWithRequest None]} "g" (gameWithRequest None)
     openingMove BLACK 100 101
   = (Rejected "Game missing", {["g"%string := gameWithRequest None]}))
  ∧ (∀ freshData,
       ({["g"%string := gameWithRequest None]} : gmap string GameData) !! "g"%string
       = Some freshData →
       version freshData = version (gameWithRequest None) →
       ∃ data',
         performMove {["g"%string := gameWithRequest None]} "g"
           (gameWithRequest None) openingMove BLACK 100 101
         = (Resolved tt, <["g"%string := data']> {["g"%string := gameWithRequest None]})
         ∧ board data' = applyMove (board (gameWithRequest None)) openingMove
         ∧ turn data' = BLACK
         ∧ version data' = version freshData + 1
         ∧ players data' = players freshData).
Proof.
  apply (performMove_checks_only_the_version {["g"%string := gameWithRequest None]}
           "g" (gameWithRequest None) openingMove BLACK 100 101).
  - split; [reflexivity|]. vm_compute. repeat constructor.
  - reflexivity.
  - reflexivity.
  - constructor.
Defined.

(** X5. A committed move followed by an accepted takeback restores the
    board, the turn, the half-move clock and the last move of the stored
    record, clears the previous state and the request, and leaves the
    version two above; the status and the winner that the move stored are
    not restored. *)
Theorem performMove_then_accepted_takeback
    (db : gmap string GameData) gameId gameData freshData move nextTurn now ts :
  db !! gameId = Some freshData →
  version freshData = version gameData →
  ∃ moved restored,
    performMove db gameId gameData move nextTurn now ts
    = (Resolved tt, <[gameId := moved]> db)
    ∧ resolveTakeback (<[gameId := moved]> db) gameId true
      = (Resolved tt, <[gameId := restored]> db)
    ∧ board restored = board freshData
    ∧ turn restored = turn freshData
    ∧ halfMoveClock restored = halfMoveClock freshData
    ∧ lastMove restored = lastMove freshData
    ∧ players restored = players freshData
    ∧ version restored = version freshData + 2
    ∧ previousState restored = None
    ∧ takebackRequest restored = None
    ∧ status restored = status moved
    ∧ winner restored = winner moved.
Proof.
  intros Hdoc Hversion.
  destruct (performMove_commit db gameId gameData freshData move nextTurn now ts
              Hdoc Hversion)
    as (moved & -> & _ & _ & Hplayers & Hv & Hprev & _).
  exists moved. eexists. split; [done|].
  unfold resolveTakeback, runTransaction. rewrite lookup_insert_eq. cbn [negb].
  rewrite Hprev, insert_insert_eq. split; [reflexivity|].
  cbn [board turn players version previousState takebackRequest lastMove
       halfMoveClock winner status previous_board previous_turn
       previous_halfMoveClock previous_lastMove].
  repeat split; try done. lia.
Qed.

Lemma performMove_then_accepted_takeback_witness :
  ∃ moved restored,
    performMove {["g"%string := gameWithRequest None]} "g" (gameWithRequest None)
      openingMove BLACK 0 0
    = (Resolved tt, <["g"%string := moved]> {["g"%string := gameWithRequest None]})
    ∧ resolveTakeback (<["g"%string := moved]> {["g"%string := gameWithRequest None]})
        "g" true
      = (Resolved tt, <["g"%string := restored]> {["g"%string := gameWithRequest None]})
    ∧ board restored = board (gameWithRequest None)
    ∧ turn restored = turn (gameWithRequest None)
    ∧ halfMoveClock restored = halfMoveClock (gameWithRequest None)
    ∧ lastMove restored = lastMove (gameWithRequest None)
    ∧ players restored = players (gameWithRequest None)
    ∧ version restored = version (gameWithRequest None) + 2
    ∧ previousState restored = None
    ∧ takebackRequest restored = None
    ∧ status restored = status moved
    ∧ winner restored = winner moved.
Proof.
  apply (performMove_then_accepted_takeback {["g"%string := gameWithRequest None]}
           "g" (gameWithRequest None) (gameWithRequest None) openingMove BLACK 0 0).
  - apply lookup_singleton_eq.
  - reflexivity.
Defined.

(** X6. After [resolveTakeback] with [accepted = true], any further
    [resolveTakeback], accepted or not, resolves and leaves the store as it
    is: one level of undo only. *)
Theorem resolveTakeback_accepted_then_noop
    (db : gmap string GameData) gameId accepted :
  resolveTakeback (resolveTakeback db gameId true).2 gameId accepted
  = (Resolved tt, (resolveTakeback db gameId true).2).
Proof.
  unfold resolveTakeback at 2 3, runTransaction.
  destruct (db !! gameId) as [data|] eqn:Hdoc; cbn [negb snd].
  - assert (Hnoop : ∀ data1,
      previousState data1 = None → takebackRequest data1 = None →
      resolveTakeback (<[gameId := data1]> db) gameId accepted
      = (Resolved tt, <[gameId := data1]> db)).
    { intros data1 Hprev Hreq. unfold resolveTakeback, runTransaction.
      rewrite lookup_insert_eq, Hprev.
      assert (clearTakebackRequest data1 = data1) as ->.
      { destruct data1. cbn in Hreq. subst. reflexivity. }
      rewrite insert_insert_eq. by destruct accepted. }
    destruct (previousState data) eqn:Hprev; cbn [snd]; by apply Hnoop.
  - cbn [snd]. unfold resolveTakeback, runTransaction. by rewrite Hdoc.
Qed.

(** X7. Requesting a takeback and declining it brings the store back to
    what it was, when no request was pending: the two operations change
    nothing but [takebackRequest]. *)
Theorem requestTakeback_then_declined
    (db : gmap string GameData) gameId playerId now data :
  db !! gameId = Some data →
  takebackRequest data = None →
  ∃ requested,
    requestTakeback db gameId playerId now = (Resolved tt, <[gameId := requested]> db)
    ∧ takebackRequest requested
      = Some {| requesterId := playerId; requestedAt := now |}
    ∧ version requested = version data
    ∧ resolveTakeback (<[gameId := requested]> db) gameId false = (Resolved tt, db).
Proof.
  intros Hdoc Hreq. unfold requestTakeback, updateDoc. rewrite Hdoc.
  eexists. split; [reflexivity|]. split; [reflexivity|]. split; [reflexivity|].
  unfold resolveTakeback, runTransaction. rewrite lookup_insert_eq. cbn [negb].
  rewrite insert_insert_eq. f_equal. apply insert_id. rewrite Hdoc. f_equal.
  destruct data. cbn in Hreq. subst. reflexivity.
Qed.

Lemma requestTakeback_then_declined_witness :
  ∃ requested,
    requestTakeback {["g"%string := gameWaitingForBlack]} "g" "alice" 7
    = (Resolved tt, <["g"%string := requested]> {["g"%string := gameWaitingForBlack]})
    ∧ takebackRequest requested
      = Some {| requesterId := "alice"%string; requestedAt := 7 |}
    ∧ version requested = version gameWaitingForBlack
    ∧ resolveTakeback (<["g"%string := requested]> {["g"%string := gameWaitingForBlack]})
        "g" false
      = (Resolved tt, {["g"%string := gameWaitingForBlack]}).
Proof.
  apply (requestTakeback_then_declined {["g"%string := gameWaitingForBlack]}
           "g" "alice" 7 gameWaitingForBlack).
  - apply lookup_singleton_eq.
  - reflexivity.
Defined.

(** X8. The half-move clock of a committed move: 0 when the move captures
    or moves a man, else one more than the stored clock; and once it
    reaches 60 the stored status is FINISHED or DRAW. *)
Theorem performMove_halfMoveClock
    (db : gmap string GameData) gameId gameData freshData move nextTurn now ts :
  db !! gameId = Some freshData →
  version freshData = version gameData →
  ∃ data',
    (performMove db gameId gameData move nextTurn now ts).2 !! gameId = Some data'
    ∧ (captures move ≠ [] → halfMoveClock data' = 0)
    ∧ (∀ p, cellAt (board gameData) (row (from move)) (col (from move)) = Some p →
            isKing p = false → halfMoveClock data' = 0)
    ∧ (∀ p, cellAt (board gameData) (row (from move)) (col (from move)) = Some p →
            isKing p = true → captures move = [] →
            halfMoveClock data' = halfMoveClock freshData + 1)
    ∧ (60 <= halfMoveClock data' → status data' = FINISHED ∨ status data' = DRAW).
Proof.
  intros Hdoc Hversion.
  destruct (performMove_commit db gameId gameData freshData move nextTurn now ts
              Hdoc Hversion)
    as (data' & -> & _ & _ & _ & _ & _ & _ & _ & Hclock & _ & _ & Hdraw & _).
  exists data'. cbn [snd]. rewrite lookup_insert_eq. split; [done|].
  rewrite Hclock in *. split; [|split; [|split]].
  - intros Hcap. destruct (captures move); [done|]. cbn. by rewrite orb_true_r.
  - by intros p -> ->.
  - by intros p -> -> ->.
  - done.
Qed.

Lemma performMove_halfMoveClock_witness :
  ∃ data',
    (performMove {["g"%string := gameWithRequest None]} "g" (gameWithRequest None)
       openingMove BLACK 0 0).2 !! "g"%string = Some data'
    ∧ (captures openingMove ≠ [] → halfMoveClock data' = 0)
    ∧ (∀ p, cellAt (board (gameWithRequest None)) 5 0 = Some p →
            isKing p = false → halfMoveClock data' = 0)
    ∧ (∀ p, cellAt (board (gameWithRequest None)) 5 0 = Some p →
            isKing p = true → captures openingMove = [] →
            halfMoveClock data' = halfMoveClock (gameWithRequest None) + 1)
    ∧ (60 <= halfMoveClock data' → status data' = FINISHED ∨ status data' = DRAW).
Proof.
  apply (performMove_halfMoveClock {["g"%string := gameWithRequest None]} "g"
           (gameWithRequest None) (gameWithRequest None) openingMove BLACK 0 0).
  - apply lookup_singleton_eq.
  - reflexivity.
Defined.

(** X9. A committed move stores a winner exactly when the side that moves
    next has no legal move on the new board; the winner is then the side to
    move of the caller's snapshot, and the status is FINISHED. *)
Theorem performMove_win_detection
    (db : gmap string GameData) gameId gameData freshData move nextTurn now ts :
  db !! gameId = Some freshData →
  version freshData = version gameData →
  ∃ data',
    (performMove db gameId gameData move nextTurn now ts).2 !! gameId = Some data'
    ∧ (calculateAllowedMoves (applyMove (board gameData) move) nextTurn = [] →
       winner data' = Some (turn gameData) ∧ status data' = FINISHED)
    ∧ (calculateAllowedMoves (applyMove (board gameData) move) nextTurn ≠ [] →
       winner data' = None).
Proof.
  intros Hdoc Hversion.
  destruct (performMove_commit db gameId gameData freshData move nextTurn now ts
              Hdoc Hversion)
    as (data' & -> & _ & _ & _ & _ & _ & _ & _ & _ & Hwin & Hfin & _).
  exists data'. cbn [snd]. rewrite lookup_insert_eq. split; [done|].
  destruct (calculateAllowedMoves _ _) as [|m l]; cbn in Hwin.
  - split; [|done]. intros _. split; [done|]. apply Hfin. by rewrite Hwin.
  - split; [done|]. intros _. rewrite Hwin. by destruct (length l).
Qed.

Lemma performMove_win_detection_witness :
  ∃ data',
    (performMove {["g"%string := gameWithRequest None]} "g" (gameWithRequest None)
       openingMove BLACK 0 0).2 !! "g"%string = Some data'
    ∧ (calculateAllowedMoves
         (applyMove (board (gameWithRequest None)) openingMove) BLACK = [] →
       winner data' = Some (turn (gameWithRequest None)) ∧ status data' = FINISHED)
    ∧ (calculateAllowedMoves
         (applyMove (board (gameWithRequest None)) openingMove) BLACK ≠ [] →
       winner data' = None).
Proof.
  apply (performMove_win_detection {["g"%string := gameWithRequest None]} "g"
           (gameWithRequest None) (gameWithRequest None) openingMove BLACK 0 0).
  - apply lookup_singleton_eq.
  - reflexivity.
Defined.

(** X10. [resignGame] always resolves.  For a participant it stores
    FINISHED with the other colour as winner and the next version (WHITE
    wins when the player holds both seats); for anybody else, and for an id
    without a game, it leaves the store as it is. *)
Theorem resignGame_outcome (db : gmap string GameData) gameId playerId :
  (resignGame db gameId playerId).1 = Resolved tt
  ∧ (db !! gameId = None → (resignGame db gameId playerId).2 = db)
  ∧ (∀ data,
       db !! gameId = Some data →
       (black (players data) = Some playerId →
        (resignGame db gameId playerId).2
        = <[gameId := finishWith WHITE data]> db)
       ∧ (white (players data) = Some playerId →
          black (players data) ≠ Some playerId →
          (resignGame db gameId playerId).2
          = <[gameId := finishWith BLACK data]> db)
       ∧ (white (players data) ≠ Some playerId →
          black (players data) ≠ Some playerId →
          (resignGame db gameId playerId).2 = db)).
Proof.
  unfold resignGame, runTransaction.
  destruct (db !! gameId) as [data|] eqn:Hdoc.
  - repeat case_bool_decide; cbn; (split; [done|]); (split; [done|]);
      intros ? [= <-]; naive_solver.
  - cbn. split; [done|]. split; [done|]. done.
Qed.

(** X11. The first [proposeRematch] on a game without a rematch creates the new
    game, WAITING at version 0 on the initial board with the proposer on
    the colour opposite to the old one, and links it from the old game;
    every later [proposeRematch] on the old game, by whomever, returns the
    same id and leaves the store as it is. *)
Theorem proposeRematch_converges
    (db : gmap string GameData) oldGameId myPlayerId myOldColor isRandom
    newGameId nowExpire nowCreated data :
  db !! oldGameId = Some data →
  rematchId data = None →
  newGameId ≠ oldGameId →
  newGameId ≠ ""%string →
  ∃ db1 created,
    proposeRematch db oldGameId myPlayerId myOldColor isRandom newGameId
      nowExpire nowCreated = (Resolved newGameId, db1)
    ∧ db1 !! newGameId = Some created
    ∧ status created = WAITING ∧ version created = 0
    ∧ board created = initializeBoard
    ∧ players created
      = match myOldColor with
        | WHITE => {| white := None; black := Some myPlayerId |}
        | BLACK => {| white := Some myPlayerId; black := None |}
        end
    ∧ (rematchId <$> db1 !! oldGameId) = Some (Some newGameId)
    ∧ ∀ otherPlayerId otherOldColor otherRandom otherNewId otherExpire otherCreated,
        proposeRematch db1 oldGameId otherPlayerId otherOldColor otherRandom
          otherNewId otherExpire otherCreated = (Resolved newGameId, db1).
Proof.
  intros Hdoc Hnone Hne Hid. unfold proposeRematch at 1, runTransaction.
  rewrite Hdoc, Hnone. unfold createGame. cbn [snd].
  eexists. eexists. split; [reflexivity|].
  split. { rewrite lookup_alter_ne by done. apply lookup_insert_eq. }
  split; [reflexivity|]. split; [reflexivity|]. split; [reflexivity|].
  split. { by destruct myOldColor. }
  split. { rewrite lookup_alter_eq, lookup_insert_ne, Hdoc by done. reflexivity. }
  intros. unfold proposeRematch, runTransaction.
  rewrite lookup_alter_eq, lookup_insert_ne, Hdoc by done. cbn [fmap option_fmap option_map rematchId].
  by rewrite bool_decide_eq_true_2.
Qed.

Lemma proposeRematch_converges_witness :
  ∃ db1 created,
    proposeRematch {["g"%string := gameWithRequest None]} "g" "alice" WHITE false
      "h" 0 0 = (Resolved "h"%string, db1)
    ∧ db1 !! "h"%string = Some created
    ∧ status created = WAITING ∧ version created = 0
    ∧ board created = initializeBoard
    ∧ players created = {| white := None; black := Some "alice"%string |}
    ∧ (rematchId <$> db1 !! "g"%string) = Some (Some "h"%string)
    ∧ ∀ otherPlayerId otherOldColor otherRandom otherNewId otherExpire otherCreated,
        proposeRematch db1 "g" otherPlayerId otherOldColor otherRandom
          otherNewId otherExpire otherCreated = (Resolved "h"%string, db1).
Proof.
  apply (proposeRematch_converges {["g"%string := gameWithRequest None]} "g"
           "alice" WHITE false "h" 0 0 (gameWithRequest None)).
  - apply lookup_singleton_eq.
  - reflexivity.
  - discriminate.
  - discriminate.
Defined.

(** *** What no operation does *)

Lemma gameKept_refl d : gameKept d d.
Proof. repeat split; auto; lia. Qed.

Lemma gameKept_trans d1 d2 d3 : gameKept d1 d2 → gameKept d2 d3 → gameKept d1 d3.
Proof.
  intros (? & ? & ? & ?) (? & ? & ? & ?). repeat split; auto; try lia; congruence.
Qed.

(** The stores [db'] in which every game of [db] is kept. *)
Lemma kept_same (db : gmap string GameData) g d :
  db !! g = Some d → ∃ d', db !! g = Some d' ∧ gameKept d d'.
Proof. intros. exists d. split; [done|apply gameKept_refl]. Qed.

Lemma kept_insert (db : gmap string GameData) g0 d0 d0' g d :
  db !! g0 = Some d0 → gameKept d0 d0' → db !! g = Some d →
  ∃ d', <[g0 := d0']> db !! g = Some d' ∧ gameKept d d'.
Proof.
  intros H0 Hkept Hg. destruct (decide (g0 = g)) as [<- | Hne].
  - rewrite lookup_insert_eq. exists d0'. split; [done|]. congruence.
  - rewrite lookup_insert_ne by done. by apply kept_same.
Qed.

Lemma kept_insert_new (db : gmap string GameData) g0 d0' g d :
  db !! g0 = None → db !! g = Some d →
  ∃ d', <[g0 := d0']> db !! g = Some d' ∧ gameKept d d'.
Proof.
  intros H0 Hg. rewrite lookup_insert_ne by congruence. by apply kept_same.
Qed.

Lemma storeStep_kept (db db' : gmap string GameData) g d :
  storeStep db db' → db !! g = Some d →
  ∃ d', db' !! g = Some d' ∧ gameKept d d'.
Proof.
  intros Hstep Hg. destruct Hstep as
    [g0 p c r ib n1 n2 Hnew | g0 p | g0 snap m nt now ts | g0 p now | g0 a
    | g0 p | g0 w | g0 p c r gn n1 n2 Hnew].
  - unfold createGame. cbn [snd]. by apply kept_insert_new.
  - unfold joinGame, runTransaction.
    destruct (db !! g0) as [d0|] eqn:H0; cbn [snd]; [|by apply kept_same].
    destruct (bool_decide _ || bool_decide _); cbn [snd]; [by apply kept_same|].
    destruct (bool_decide (black (players d0) = None) && _) eqn:Hb; cbn [snd].
    { apply andb_true_iff in Hb as [Hb _]. apply bool_decide_eq_true in Hb.
      eapply kept_insert; [done| |done]. repeat split; cbn; try lia; try done.
      intros p'. by rewrite Hb. }
    destruct (bool_decide (white (players d0) = None) && _) eqn:Hw; cbn [snd];
      [|by apply kept_same].
    apply andb_true_iff in Hw as [Hw _]. apply bool_decide_eq_true in Hw.
    eapply kept_insert; [done| |done]. repeat split; cbn; try lia; try done.
    intros p'. by rewrite Hw.
  - destruct (db !! g0) as [d0|] eqn:H0.
    + destruct (decide (version d0 = version snap)) as [Hv | Hv].
      * destruct (performMove_commit db g0 snap d0 m nt now ts H0 Hv)
          as (d0' & -> & _ & _ & Hplayers & Hversion & _ & _ & _ & _ & _ & _ & _
              & _ & Hcreated & _).
        cbn [snd]. eapply kept_insert; [done| |done].
        repeat split; try lia; try done; rewrite Hplayers; auto.
      * rewrite performMove_no_commit; [by apply kept_same|].
        intros fd Hfd. rewrite H0 in Hfd. by injection Hfd as <-.
    + rewrite performMove_no_commit; [by apply kept_same|].
      intros fd Hfd. by rewrite H0 in Hfd.
  - unfold requestTakeback, updateDoc.
    destruct (db !! g0) as [d0|] eqn:H0; cbn [snd]; [|by apply kept_same].
    eapply kept_insert; [done| |done]. repeat split; cbn; auto; lia.
  - unfold resolveTakeback, runTransaction.
    destruct (db !! g0) as [d0|] eqn:H0; cbn [snd]; [|by apply kept_same].
    destruct a; cbn [negb snd].
    + destruct (previousState d0); cbn [snd];
        (eapply kept_insert; [done| |done]); repeat split; cbn; auto; lia.
    + eapply kept_insert; [done| |done]. repeat split; cbn; auto; lia.
  - unfold resignGame, runTransaction.
    destruct (db !! g0) as [d0|] eqn:H0; cbn [snd]; [|by apply kept_same].
    repeat case_bool_decide; cbn [snd]; try by apply kept_same.
    all: eapply kept_insert; [done| |done]; repeat split; cbn; auto; lia.
  - unfold declareWinner, updateDoc.
    destruct (db !! g0) as [d0|] eqn:H0; cbn [snd]; [|by apply kept_same].
    eapply kept_insert; [done| |done]. repeat split; cbn; auto; lia.
  - unfold proposeRematch, runTransaction.
    destruct (db !! g0) as [d0|] eqn:H0; cbn [snd]; [|by apply kept_same].
    assert (Hcreate : ∀ f : GameData → GameData,
      (∀ x, gameKept x (f x)) →
      ∃ d', alter f g0 (createGame db gn p (otherColor c) r None n1 n2).2 !! g
            = Some d' ∧ gameKept d d').
    { intros f Hf. unfold createGame. cbn [snd].
      destruct (decide (g0 = g)) as [<- | Hne].
      - rewrite lookup_alter_eq, lookup_insert_ne by congruence.
        rewrite Hg. cbn. eauto.
      - rewrite lookup_alter_ne, lookup_insert_ne by congruence. by apply kept_same. }
    destruct (rematchId d0) as [existing|].
    + case_bool_decide; cbn [snd]; [by apply kept_same|].
      apply Hcreate. intros x. repeat split; cbn; auto; lia.
    + cbn [snd]. apply Hcreate. intros x. repeat split; cbn; auto; lia.
Qed.

(** X12. No sequence of operations deletes a game, lowers its version,
    changes its creation time or gives a taken seat to another player,
    provided the ids drawn for new games are not in use. *)
Theorem storeSteps_keep_games (db db' : gmap string GameData) gameId data :
  storeSteps db db' →
  db !! gameId = Some data →
  ∃ data',
    db' !! gameId = Some data'
    ∧ version data <= version data'
    ∧ createdAt data' = createdAt data
    ∧ (∀ p, white (players data) = Some p → white (players data') = Some p)
    ∧ (∀ p, black (players data) = Some p → black (players data') = Some p).
Proof.
  intros Hsteps Hdoc. change (∃ data', db' !! gameId = Some data' ∧ gameKept data data').
  induction Hsteps as [|db1 db2 _ IH Hstep].
  - by apply kept_same.
  - destruct IH as (d1 & Hd1 & Hkept1).
    destruct (storeStep_kept _ _ _ _ Hstep Hd1) as (d2 & Hd2 & Hkept2).
    exists d2. split; [done|]. by eapply gameKept_trans.
Qed.

Lemma storeSteps_keep_games_witness :
  ∃ data',
    (resignGame (joinGame {["g"%string := gameWaitingForBlack]} "g" "bob").2
       "g" "alice").2 !! "g"%string = Some data'
    ∧ version gameWaitingForBlack <= version data'
    ∧ createdAt data' = createdAt gameWaitingForBlack
    ∧ (∀ p, white (players gameWaitingForBlack) = Some p →
            white (players data') = Some p)
    ∧ (∀ p, black (players gameWaitingForBlack) = Some p →
            black (players data') = Some p).
Proof.
  apply (storeSteps_keep_games {["g"%string := gameWaitingForBlack]}).
  - eapply steps_step; [eapply steps_step; [apply steps_refl|]|].
    + apply step_joinGame.
    + apply step_resignGame.
  - apply lookup_singleton_eq.
Defined.

(** X13. The later revision of [resolveTakeback] raises the version by
    one and clears the request on each of its three paths (declined,
    accepted with a previous state, accepted without one), keeping the
    players, the status and the winner; on an id without a game it
    resolves and changes nothing. *)
Theorem later_resolveTakeback_bumps_version
    (db : gmap string GameData) gameId accepted :
  match db !! gameId with
  | None => LaterRevision.resolveTakeback db gameId accepted = (Resolved tt, db)
  | Some data =>
      ∃ data',
        LaterRevision.resolveTakeback db gameId accepted
        = (Resolved tt, <[gameId := data']> db)
        ∧ version data' = version data + 1
        ∧ takebackRequest data' = None
        ∧ players data' = players data
        ∧ status data' = status data
        ∧ winner data' = winner data
        ∧ (accepted = false ∨ previousState data = None →
           board data' = board data ∧ turn data' = turn data
           ∧ halfMoveClock data' = halfMoveClock data)
  end.
Proof.
  unfold LaterRevision.resolveTakeback, runTransaction.
  destruct (db !! gameId) as [data|] eqn:Hdoc; [|done].
  destruct accepted; cbn [negb].
  - destruct (previousState data) as [previous|] eqn:Hprev.
    + eexists. split; [reflexivity|]. repeat (split; [reflexivity|]).
      by intros [? | ?].
    + eexists. split; [reflexivity|]. by repeat (split; [reflexivity|]).
  - eexists. split; [reflexivity|]. by repeat (split; [reflexivity|]).
Qed.

(** ** [applyMove] does not mutate its input *)

Module HeapFacts.
Import Heap.

Lemma fresh_lookup (h : heap) : h !! fresh (dom h) = None.
Proof. apply not_elem_of_dom, is_fresh. Qed.

Lemma alloc_subseteq (h : heap) o : h ⊆ <[fresh (dom h) := o]> h.
Proof. apply insert_subseteq, fresh_lookup. Qed.

Lemma readCell_mono (h h' : heap) v c :
  h ⊆ h' → readCell h v = Some c → readCell h' v = Some c.
Proof.
  intros Hsub. destruct v as [|l]; cbn; [done|].
  destruct (h !! l) as [[|p]|] eqn:E; try done.
  by rewrite (lookup_weaken _ _ _ _ E Hsub).
Qed.

Lemma readCells_mono (h h' : heap) cells cs :
  h ⊆ h' →
  Forall2 (λ v c, readCell h v = Some c) cells cs →
  Forall2 (λ v c, readCell h' v = Some c) cells cs.
Proof.
  intros Hsub H. eapply Forall2_impl; [done|]. intros v c. by apply readCell_mono.
Qed.

Lemma rowDenotes_mono (h h' : heap) l cs :
  h ⊆ h' → rowDenotes h l cs → rowDenotes h' l cs.
Proof.
  intros Hsub (cells & E & Hcells). exists cells. split.
  - by eapply lookup_weaken.
  - by eapply readCells_mono.
Qed.

Lemma readRow_rowDenotes (h : heap) v cs :
  readRow h v = Some cs ↔ ∃ l, v = VRef l ∧ rowDenotes h l cs.
Proof.
  unfold rowDenotes. destruct v as [|l]; cbn.
  { split; [done|]. by intros (? & ? & _). }
  split.
  - destruct (h !! l) as [[cells|]|] eqn:E; try done. intros Hm.
    exists l. split; [done|]. exists cells. split; [done|]. by apply mapM_Some.
  - intros (? & [= <-] & cells & -> & Hcells). by apply mapM_Some.
Qed.

Lemma readBoard_inv (h : heap) v B :
  readBoard h v = Some B ↔
  ∃ l rows, v = VRef l ∧ h !! l = Some (OArray rows)
            ∧ Forall2 (λ v cs, readRow h v = Some cs) rows B.
Proof.
  destruct v as [|l]; cbn.
  { split; [done|]. by intros (? & ? & ? & _). }
  split.
  - destruct (h !! l) as [[rows|]|] eqn:E; try done. intros Hm.
    exists l, rows. repeat split; try done. by apply mapM_Some.
  - intros (? & rows & [= <-] & -> & Hrows). by apply mapM_Some.
Qed.

Lemma readBoard_mono (h h' : heap) v B :
  h ⊆ h' → readBoard h v = Some B → readBoard h' v = Some B.
Proof.
  intros Hsub (l & rows & -> & E & Hrows)%readBoard_inv. apply readBoard_inv.
  exists l, rows. repeat split; try done; [by eapply lookup_weaken|].
  eapply Forall2_impl; [done|]. intros v cs (l' & -> & Hrow)%readRow_rowDenotes.
  apply readRow_rowDenotes. exists l'. split; [done|]. by eapply rowDenotes_mono.
Qed.

(** *** [cloneBoard] *)

Lemma cloneCell_spec (h : heap) v c :
  readCell h v = Some c →
  ∃ v' h', cloneCell v h = Some (v', h') ∧ h ⊆ h' ∧ readCell h' v' = Some c.
Proof.
  destruct v as [|l]; cbn.
  - intros [= <-]. by exists VNull, h.
  - destruct (h !! l) as [[|p]|] eqn:E; try done. intros [= <-].
    exists (VRef (fresh (dom h))), (<[fresh (dom h) := OPiece p]> h).
    split; [|split].
    + unfold bind, readPiece. by rewrite E.
    + apply alloc_subseteq.
    + cbn. by rewrite lookup_insert_eq.
Qed.

Lemma cloneCells_spec (h : heap) cells cs :
  Forall2 (λ v c, readCell h v = Some c) cells cs →
  ∃ cells' h',
    arrayMap cloneCell cells h = Some (cells', h') ∧ h ⊆ h'
    ∧ Forall2 (λ v c, readCell h' v = Some c) cells' cs.
Proof.
  intros H. revert h H.
  induction cells as [|v cells IH] in cs |- *; intros h H;
    inversion H as [|? c ? cs' Hv Hcells]; subst.
  - by exists [], h.
  - destruct (cloneCell_spec h v c Hv) as (v' & h1 & Hc & Hsub1 & Hr1).
    destruct (IH cs' h1) as (cells' & h2 & Hcs & Hsub2 & Hr2).
    { by eapply readCells_mono. }
    exists (v' :: cells'), h2. split; [|split].
    + cbn. unfold bind. by rewrite Hc, Hcs.
    + by etrans.
    + constructor; [by eapply readCell_mono | done].
Qed.

Lemma cloneRow_spec (h : heap) v cs :
  readRow h v = Some cs →
  ∃ l h', cloneRow v h = Some (VRef l, h') ∧ h ⊆ h' ∧ h !! l = None
          ∧ rowDenotes h' l cs.
Proof.
  intros (l0 & -> & cells & E & Hcells)%readRow_rowDenotes.
  destruct (cloneCells_spec h cells cs Hcells) as (cells' & h1 & Hc & Hsub & Hr).
  exists (fresh (dom h1)), (<[fresh (dom h1) := OArray cells']> h1).
  split; [|split; [|split]].
  - unfold cloneRow, bind, readArray. by rewrite E, Hc.
  - etrans; [done|]. apply alloc_subseteq.
  - pose proof (fresh_lookup h1) as Hfresh.
    destruct (h !! fresh (dom h1)) as [o|] eqn:Ho; [|done].
    by rewrite (lookup_weaken _ _ _ _ Ho Hsub) in Hfresh.
  - exists cells'. split; [by rewrite lookup_insert_eq|].
    eapply readCells_mono; [|done]. apply alloc_subseteq.
Qed.

Lemma cloneRows_spec (h : heap) rows B :
  Forall2 (λ v cs, readRow h v = Some cs) rows B →
  ∃ ls h',
    arrayMap cloneRow rows h = Some (VRef <$> ls, h') ∧ h ⊆ h'
    ∧ NoDup ls ∧ Forall (λ l, h !! l = None ∧ is_Some (h' !! l)) ls
    ∧ Forall2 (rowDenotes h') ls B.
Proof.
  intros H. revert h H.
  induction rows as [|v rows IH] in B |- *; intros h H;
    inversion H as [|? cs ? B' Hv Hrows]; subst.
  - exists [], h. repeat split; try done; constructor.
  - destruct (cloneRow_spec h v cs Hv) as (l1 & h1 & Hc & Hsub1 & Hnew1 & Hr1).
    destruct (IH B' h1) as (ls & h2 & Hcs & Hsub2 & Hnd & Hnew & Hr2).
    { eapply Forall2_impl; [done|]. intros v' cs' (l' & -> & Hrow)%readRow_rowDenotes.
      apply readRow_rowDenotes. exists l'. split; [done|]. by eapply rowDenotes_mono. }
    assert (Hl1 : is_Some (h1 !! l1)) by (destruct Hr1 as (? & -> & _); eauto).
    exists (l1 :: ls), h2. repeat split.
    + cbn. unfold bind. by rewrite Hc, Hcs.
    + by etrans.
    + apply NoDup_cons. split; [|done]. intros Hin.
      rewrite Forall_forall in Hnew. destruct (Hnew _ Hin) as [Hnone _].
      rewrite Hnone in Hl1. by destruct Hl1.
    + constructor.
      * split; [done|]. destruct Hl1 as [o Ho].
        exists o. by eapply lookup_weaken.
      * eapply Forall_impl; [done|]. intros l [Hnone Hsome]. split; [|done].
        destruct (h !! l) as [o|] eqn:Ho; [|done].
        by rewrite (lookup_weaken _ _ _ _ Ho Hsub1) in Hnone.
    + constructor; [by eapply rowDenotes_mono | done].
Qed.

Lemma cloneBoard_spec (h0 : heap) b B :
  readBoard h0 b = Some B →
  ∃ lb rows h, cloneBoard b h0 = Some (VRef lb, h) ∧ ownsBoard h0 h lb rows B.
Proof.
  intros (l0 & rows0 & -> & E & Hrows)%readBoard_inv.
  destruct (cloneRows_spec h0 rows0 B Hrows) as (ls & h1 & Hc & Hsub & Hnd & Hnew & Hr).
  exists (fresh (dom h1)), ls, (<[fresh (dom h1) := OArray (VRef <$> ls)]> h1).
  split.
  { unfold cloneBoard, bind, readArray. by rewrite E, Hc. }
  pose proof (fresh_lookup h1) as Hfresh.
  split.
  - etrans; [done|]. apply alloc_subseteq.
  - by rewrite lookup_insert_eq.
  - destruct (h0 !! fresh (dom h1)) as [o|] eqn:Ho; [|done].
    by rewrite (lookup_weaken _ _ _ _ Ho Hsub) in Hfresh.
  - intros Hin. rewrite Forall_forall in Hnew. destruct (Hnew _ Hin) as [_ Hsome].
    rewrite Hfresh in Hsome. by destruct Hsome.
  - done.
  - eapply Forall_impl; [done|]. by intros l [? _].
  - eapply Forall2_impl; [done|]. intros l cs. apply rowDenotes_mono, alloc_subseteq.
Qed.

Lemma ownsBoard_readBoard h0 h lb rows B :
  ownsBoard h0 h lb rows B → readBoard h (VRef lb) = Some B.
Proof.
  intros []. apply readBoard_inv. exists lb, (VRef <$> rows).
  repeat split; try done. apply Forall2_fmap_l.
  eapply Forall2_impl; [done|]. intros l cs Hrow. apply readRow_rowDenotes. eauto.
Qed.

Lemma ownsBoard_alloc h0 h lb rows B o :
  ownsBoard h0 h lb rows B → ownsBoard h0 (<[fresh (dom h) := o]> h) lb rows B.
Proof.
  intros []. pose proof (alloc_subseteq h o) as Hsub. split; try done.
  - by etrans.
  - by eapply lookup_weaken.
  - eapply Forall2_impl; [done|]. intros l cs. by apply rowDenotes_mono.
Qed.

(** *** The assignments *)

Lemma ownsBoard_row h0 h lb rows B r cellsB :
  ownsBoard h0 h lb rows B → B !! r = Some cellsB →
  ∃ l, rows !! r = Some l ∧ rowDenotes h l cellsB.
Proof. intros [] HB. by eapply Forall2_lookup_r. Qed.

Lemma getRow_spec h0 h lb rows B r l :
  ownsBoard h0 h lb rows B → 0 <= r → rows !! Z.to_nat r = Some l →
  getIndex (VRef lb) r h = Some (VRef l, h).
Proof.
  intros [] Hr Hl. unfold getIndex, bind, readArray. rewrite owns_board0.
  replace (0 <=? r) with true by lia. by rewrite list_lookup_fmap, Hl.
Qed.

Lemma readCell_insert_array (h : heap) l elems elems' v :
  h !! l = Some (OArray elems) →
  readCell (<[l := OArray elems']> h) v = readCell h v.
Proof.
  intros E. destruct v as [|l']; cbn; [done|].
  destruct (decide (l = l')) as [<- | Hne].
  - by rewrite lookup_insert_eq, E.
  - by rewrite lookup_insert_ne.
Qed.

Lemma setIndex_spec h0 h lb rows B r c l v cv :
  ownsBoard h0 h lb rows B → hasCell B r c →
  rows !! Z.to_nat r = Some l → readCell h v = Some cv →
  ∃ h', setIndex (VRef l) c v h = Some (tt, h')
        ∧ ownsBoard h0 h' lb rows (setCell B r c cv).
Proof.
  intros Hown (Hr & Hc & cellsB & HB & Hlen) Hl Hv.
  destruct (ownsBoard_row _ _ _ _ _ _ _ Hown HB) as (l' & Hl' & cells & E & Hcells).
  assert (l' = l) as -> by congruence.
  pose proof (Forall2_length _ _ _ Hcells) as Hlen'.
  exists (<[l := OArray (<[Z.to_nat c := v]> cells)]> h). split.
  { unfold setIndex, bind, readArray. rewrite E.
    by replace ((0 <=? c) && (c <? Z.of_nat (length cells))) with true by lia. }
  destruct Hown. rewrite (setCell_eq _ _ _ _ cellsB) by done.
  assert (Hread : ∀ v', readCell (<[l := OArray (<[Z.to_nat c := v]> cells)]> h) v'
                        = readCell h v').
  { intros v'. by eapply readCell_insert_array. }
  split; try done.
  - apply insert_subseteq_r; [|done].
    rewrite Forall_forall in owns_rows_new0. apply owns_rows_new0.
    by eapply list_elem_of_lookup_2.
  - rewrite lookup_insert_ne; [done|]. intros ->.
    apply owns_board_row0. by eapply list_elem_of_lookup_2.
  - apply Forall2_same_length_lookup. split.
    { rewrite length_insert. by eapply Forall2_length. }
    intros i li y Hli Hy.
    destruct (decide (i = Z.to_nat r)) as [-> | Hne].
    + rewrite list_lookup_insert_eq in Hy by by eapply lookup_lt_Some.
      injection Hy as <-. assert (li = l) as -> by congruence.
      exists (<[Z.to_nat c := v]> cells). split; [by rewrite lookup_insert_eq|].
      apply Forall2_insert; [|by rewrite Hread].
      eapply Forall2_impl; [done|]. intros ? ? ?. by rewrite Hread.
    + rewrite list_lookup_insert_ne in Hy by done.
      destruct (Forall2_lookup_lr _ _ _ _ _ _ owns_cells0 Hli Hy) as (cells' & E' & Hcells').
      exists cells'. split.
      * rewrite lookup_insert_ne; [done|]. intros ->.
        apply Hne. by eapply NoDup_lookup.
      * eapply Forall2_impl; [done|]. intros ? ? ?. by rewrite Hread.
Qed.

Lemma setSquare_spec h0 h lb rows B r c v cv :
  ownsBoard h0 h lb rows B → hasCell B r c → readCell h v = Some cv →
  ∃ h', setSquare (VRef lb) r c v h = Some (tt, h')
        ∧ ownsBoard h0 h' lb rows (setCell B r c cv).
Proof.
  intros Hown Hcell Hv. pose proof Hcell as (Hr & Hc & cellsB & HB & Hlen).
  destruct (ownsBoard_row _ _ _ _ _ _ _ Hown HB) as (l & Hl & _).
  destruct (setIndex_spec _ _ _ _ _ r c l v cv Hown Hcell Hl Hv) as (h' & Hset & Hown').
  exists h'. split; [|done]. unfold setSquare, bind.
  by rewrite (getRow_spec _ _ _ _ _ _ _ Hown Hr Hl).
Qed.

Lemma clearCaptures_spec h0 h lb rows B (caps : list Position) :
  ownsBoard h0 h lb rows B →
  Forall (λ cap, hasCell B (row cap) (col cap)) caps →
  ∃ h', forEach (λ c, setSquare (VRef lb) (row c) (col c) VNull) caps h
        = Some (tt, h')
        ∧ ownsBoard h0 h' lb rows
            (foldl (λ b cap, setCell b (row cap) (col cap) None) B caps).
Proof.
  intros Hown Hcaps. revert h B Hown Hcaps.
  induction caps as [|cap caps IH]; intros h B Hown Hcaps.
  { by exists h. }
  apply Forall_cons in Hcaps as [Hcap Hcaps].
  destruct (setSquare_spec _ _ _ _ _ (row cap) (col cap) VNull None Hown Hcap)
    as (h1 & Hset & Hown1); [done|].
  destruct (IH h1 (setCell B (row cap) (col cap) None) Hown1) as (h2 & Hrest & Hown2).
  { eapply Forall_impl; [done|]. intros ?. apply hasCell_setCell. }
  exists h2. split; [|done]. cbn. unfold bind. by rewrite Hset.
Qed.

(** *** [applyMove] *)

(** The run of [applyMove] on the object graph returns a new board that
    denotes the value of [applyMove] on board values. *)
Lemma applyMove_refines h0 b B move :
  readBoard h0 b = Some B →
  hasCell B (row (from move)) (col (from move)) →
  hasCell B (row (to move)) (col (to move)) →
  Forall (λ cap, hasCell B (row cap) (col cap)) (captures move) →
  ∃ lb rows h,
    Heap.applyMove b move h0 = Some (VRef lb, h)
    ∧ ownsBoard h0 h lb rows (applyMoveValue B move).
Proof.
  intros Hb Hfrom Hto Hcaps.
  destruct (cloneBoard_spec h0 b B Hb) as (lb & rows & h1 & Hclone & Hown1).
  exists lb, rows.
  pose proof Hfrom as (Hfr & Hfc & cellsF & HBf & HlenF).
  destruct (ownsBoard_row _ _ _ _ _ _ _ Hown1 HBf) as (lf & Hlf & cells & Ef & HcellsF).
  destruct (lookup_lt_is_Some_2 cellsF (Z.to_nat (col (from move)))) as [cB HcB];
    [done|].
  destruct (Forall2_lookup_r _ _ _ _ _ HcellsF HcB) as (p & Hp & Hread).
  assert (HcellAt : cellAt B (row (from move)) (col (from move)) = cB).
  { unfold cellAt. replace (_ && _) with true by lia. by rewrite HBf, HcB. }
  assert (Hget : getIndex (VRef lf) (col (from move)) h1 = Some (p, h1)).
  { unfold getIndex, bind, readArray. rewrite Ef.
    replace (0 <=? col (from move)) with true by lia. by rewrite Hp. }
  unfold Heap.applyMove, applyMoveValue. unfold bind at 1. rewrite Hclone.
  unfold bind at 1. rewrite (getRow_spec _ _ _ _ _ _ _ Hown1 Hfr Hlf).
  unfold bind at 1. rewrite Hget. rewrite HcellAt.
  destruct p as [|pl]; cbn in Hread.
  { injection Hread as <-. by exists h1. }
  destruct (h1 !! pl) as [[|piece]|] eqn:Epl; try done. injection Hread as <-.
  unfold bind at 1. unfold readPiece at 1. rewrite Epl.
  destruct (setSquare_spec _ _ _ _ _ (row (from move)) (col (from move)) VNull None
              Hown1 Hfrom) as (h2 & Hset2 & Hown2); [done|].
  unfold bind at 1. rewrite Hset2.
  pose proof (hasCell_setCell B (row (from move)) (col (from move)) None _ _ Hto)
    as Hto2.
  pose proof Hto2 as (Htr & Htc & cellsT & HBt & HlenT).
  destruct (ownsBoard_row _ _ _ _ _ _ _ Hown2 HBt) as (lt & Hlt & _).
  unfold bind at 1. rewrite (getRow_spec _ _ _ _ _ _ _ Hown2 Htr Hlt).
  unfold bind at 1. unfold alloc at 1. cbv zeta.
  set (moved := fresh (dom h2)).
  set (piece' := {| color := color piece; isKing := isKing piece || becomesKing move |}).
  pose proof (ownsBoard_alloc _ _ _ _ _ (OPiece piece') Hown2) as Hown3.
  fold moved in Hown3.
  destruct (setIndex_spec _ _ _ _ _ (row (to move)) (col (to move)) lt (VRef moved)
              (Some piece') Hown3 Hto2 Hlt) as (h4 & Hset4 & Hown4).
  { cbn. by rewrite lookup_insert_eq. }
  unfold bind at 1. rewrite Hset4.
  destruct (clearCaptures_spec _ _ _ _ _ (captures move) Hown4) as (h5 & Hclear & Hown5).
  { eapply Forall_impl; [done|]. intros cap H. by do 2 apply hasCell_setCell. }
  unfold bind at 1. rewrite Hclear. by exists h5.
Qed.

(** C3. [applyMove] leaves every object of the heap it was called in as
    it was, so the input board still denotes the same value, and returns a
    board made of new arrays.  When a piece [p] stands on [move.from], the
    new board denotes the input with that piece moved from [move.from] to
    [move.to] with king flag [isKing p || move.becomesKing], the squares of
    [move.captures] emptied, and every other square unchanged; when
    [move.from] is empty it denotes the input board. *)
Theorem applyMove_moves_piece_on_a_copy (h : heap) board B move :
  readBoard h board = Some B →
  wellFormed B →
  inBoard (row (from move)) (col (from move)) = true →
  inBoard (row (to move)) (col (to move)) = true →
  Forall (λ cap, inBoard (row cap) (col cap) = true) (captures move) →
  ∃ lb rows h',
    Heap.applyMove board move h = Some (VRef lb, h')
    ∧ (∀ l o, h !! l = Some o → h' !! l = Some o)
    ∧ readBoard h' board = Some B
    ∧ h' !! lb = Some (OArray (VRef <$> rows))
    ∧ Forall (λ l, h !! l = None) (lb :: rows)
    ∧ readBoard h' (VRef lb) = Some (applyMoveValue B move)
    ∧ (∀ p, cellAt B (row (from move)) (col (from move)) = Some p →
         ∀ r c, cellAt (applyMoveValue B move) r c = squareAfterMove B move p r c)
    ∧ (cellAt B (row (from move)) (col (from move)) = None →
         applyMoveValue B move = B).
Proof.
  intros Hb Hwf Hfrom Hto Hcaps.
  assert (Hcaps' : Forall (λ cap, hasCell B (row cap) (col cap)) (captures move)).
  { eapply Forall_impl; [done|]. intros cap. by apply wellFormed_hasCell. }
  apply (wellFormed_hasCell _ _ _ Hwf) in Hfrom, Hto.
  destruct (applyMove_refines h board B move Hb Hfrom Hto Hcaps')
    as (lb & rows & h' & Hrun & Hown).
  exists lb, rows, h'. pose proof Hown as [].
  repeat split; try done.
  - intros l o Hl. by eapply lookup_weaken.
  - by eapply readBoard_mono.
  - by constructor.
  - by eapply ownsBoard_readBoard.
  - intros p Hp r c. by apply cellAt_applyMove.
  - intros Hnone. unfold applyMoveValue. by rewrite Hnone.
Qed.

Lemma applyMove_moves_piece_on_a_copy_witness :
  ∃ lb rows h',
    Heap.applyMove doubleCaptureHeap.2 doubleCaptureMove doubleCaptureHeap.1
      = Some (VRef lb, h')
    ∧ (∀ l o, doubleCaptureHeap.1 !! l = Some o → h' !! l = Some o)
    ∧ readBoard h' doubleCaptureHeap.2 = Some doubleCaptureBoard
    ∧ h' !! lb = Some (OArray (VRef <$> rows))
    ∧ Forall (λ l, doubleCaptureHeap.1 !! l = None) (lb :: rows)
    ∧ readBoard h' (VRef lb) = Some (applyMoveValue doubleCaptureBoard doubleCaptureMove)
    ∧ (∀ p, cellAt doubleCaptureBoard 5 4 = Some p →
         ∀ r c, cellAt (applyMoveValue doubleCaptureBoard doubleCaptureMove) r c
                = squareAfterMove doubleCaptureBoard doubleCaptureMove p r c)
    ∧ (cellAt doubleCaptureBoard 5 4 = None →
         applyMoveValue doubleCaptureBoard doubleCaptureMove = doubleCaptureBoard).
Proof.
  apply (applyMove_moves_piece_on_a_copy doubleCaptureHeap.1 doubleCaptureHeap.2
           doubleCaptureBoard doubleCaptureMove).
  - vm_compute. reflexivity.
  - split; [reflexivity|]. vm_compute. repeat constructor.
  - reflexivity.
  - reflexivity.
  - repeat constructor.
Defined.

(** The run on the heap of the example: the new board holds the white man
    on (1,0) and nothing else, and the input board still holds its three
    pieces. *)
Example applyMove_on_heap_example :
  match Heap.applyMove doubleCaptureHeap.2 doubleCaptureMove doubleCaptureHeap.1 with
  | Some (newBoard, h') =>
      readBoard h' newBoard = Some (setCell emptyBoard 1 0 (Some whiteMan))
      ∧ readBoard h' doubleCaptureHeap.2 = Some doubleCaptureBoard
  | None => False
  end.
Proof. by vm_compute. Qed.

(** X22. [cloneBoard] makes a deep copy: it allocates a new board that
    denotes the same value and changes no object of the heap it ran in,
    and an assignment to a square of the copy changes the copy only, the
    board it was cloned from still denoting what it did. *)
Theorem cloneBoard_deep_copy (h : heap) board B :
  readBoard h board = Some B →
  ∃ lb h1,
    cloneBoard board h = Some (VRef lb, h1)
    ∧ h !! lb = None
    ∧ (∀ l o, h !! l = Some o → h1 !! l = Some o)
    ∧ readBoard h1 (VRef lb) = Some B
    ∧ ∀ r c v cell, hasCell B r c → readCell h1 v = Some cell →
        ∃ h2, setSquare (VRef lb) r c v h1 = Some (tt, h2)
              ∧ readBoard h2 (VRef lb) = Some (setCell B r c cell)
              ∧ readBoard h2 board = Some B.
Proof.
  intros Hb.
  destruct (cloneBoard_spec h board B Hb) as (lb & rows & h1 & Hclone & Hown).
  exists lb, h1. split; [done|]. split; [by destruct Hown|].
  split; [intros l o Hl; destruct Hown; by eapply lookup_weaken|].
  split; [by eapply ownsBoard_readBoard|].
  intros r c v cell Hcell Hv.
  destruct (setSquare_spec _ _ _ _ _ r c v cell Hown Hcell Hv) as (h2 & Hset & Hown2).
  exists h2. split; [done|]. split; [by eapply ownsBoard_readBoard|].
  destruct Hown2. by eapply readBoard_mono.
Qed.

Lemma cloneBoard_deep_copy_witness :
  ∃ lb h1,
    cloneBoard doubleCaptureHeap.2 doubleCaptureHeap.1 = Some (VRef lb, h1)
    ∧ doubleCaptureHeap.1 !! lb = None
    ∧ (∀ l o, doubleCaptureHeap.1 !! l = Some o → h1 !! l = Some o)
    ∧ readBoard h1 (VRef lb) = Some doubleCaptureBoard
    ∧ ∀ r c v cell, hasCell doubleCaptureBoard r c → readCell h1 v = Some cell →
        ∃ h2, setSquare (VRef lb) r c v h1 = Some (tt, h2)
              ∧ readBoard h2 (VRef lb) = Some (setCell doubleCaptureBoard r c cell)
              ∧ readBoard h2 doubleCaptureHeap.2 = Some doubleCaptureBoard.
Proof.
  apply (cloneBoard_deep_copy doubleCaptureHeap.1 doubleCaptureHeap.2
           doubleCaptureBoard).
  vm_compute. reflexivity.
Defined.

End HeapFacts.

(** ** The properties at concrete positions *)

(** The scenarios of the specification. *)
Example opening_moves_are_simple :
  openingMove ∈ calculateAllowedMoves initializeBoard WHITE
  ∧ ¬ hasAvailableCapture initializeBoard WHITE
  ∧ cellAt (applyMove initializeBoard openingMove) 4 1 = Some whiteMan
  ∧ cellAt (applyMove initializeBoard openingMove) 5 0 = None.
Proof.
  split; [vm_compute; apply list_elem_of_here|]. split; [|done].
  rewrite <- captureMovesOf_nonempty. vm_compute. by intros H; apply H.
Qed.

Example double_capture_only_full_chain :
  calculateAllowedMoves doubleCaptureBoard WHITE = [doubleCaptureMove]
  ∧ hasAvailableCapture doubleCaptureBoard WHITE.
Proof.
  split; [by vm_compute|]. apply captureMovesOf_nonempty. by vm_compute.
Qed.

Example promotion_continues_as_king :
  calculateAllowedMoves promotionBoard WHITE = [promotionMove].
Proof. by vm_compute. Qed.

Lemma calculateAllowedMoves_captures_NoDup_witness :
  NoDup (captures doubleCaptureMove).
Proof.
  apply (calculateAllowedMoves_captures_NoDup doubleCaptureBoard WHITE
           doubleCaptureMove).
  vm_compute. apply list_elem_of_here.
Defined.

Lemma reachable_darkSquaresOnly_witness :
  darkSquaresOnly (applyMove initializeBoard openingMove).
Proof.
  apply reachable_darkSquaresOnly.
  apply (reachable_move initializeBoard WHITE openingMove).
  - apply reachable_init.
  - vm_compute. apply list_elem_of_here.
Defined.

Lemma getCaptureMoves_promotion_mid_chain_witness :
  promotionMove
  ∈ getCaptureMoves promotionBoard {| row := 2; col := 1 |} whiteMan [] [] []
      {| row := 2; col := 1 |}
  ∧ becomesKing promotionMove = true.
Proof.
  pose proof (getCaptureMoves_promotion_mid_chain promotionBoard
                {| row := 2; col := 1 |} whiteMan [] [] []
                {| row := 2; col := 1 |} (-1) 1 blackMan) as H.
  cbv zeta in H. destruct H as (_ & H & _).
  - reflexivity.
  - vm_compute. apply list_elem_of_further, list_elem_of_here.
  - reflexivity.
  - reflexivity.
  - discriminate.
  - apply not_elem_of_nil.
  - left. reflexivity.
  - reflexivity.
  - apply H. vm_compute. apply list_elem_of_here.
Defined.

Lemma performMove_stale_version_witness :
  performMove {["g"%string := gameWithRequest None]} "g" gameWithoutPlayers
    openingMove BLACK 0 0
  = (Rejected "Game state has changed, reload recommended",
     {["g"%string := gameWithRequest None]}).
Proof.
  apply (performMove_stale_version _ _ _ (gameWithRequest None)).
  - apply lookup_singleton_eq.
  - discriminate.
Defined.

Lemma joinGame_needs_exactly_one_empty_slot_witness :
  joinGame {["g"%string := gameWithoutPlayers]} "g" "carol"
  = (Rejected "Game is full", {["g"%string := gameWithoutPlayers]}).
Proof.
  apply (proj1 (joinGame_needs_exactly_one_empty_slot
                  {["g"%string := gameWithoutPlayers]} "g" "carol"
                  gameWithoutPlayers (lookup_singleton_eq _ _)));
    reflexivity.
Defined.

(** A joiner is seated when exactly one slot is empty, and a participant
    who joins again changes nothing. *)
Example joinGame_fills_the_empty_slot :
  joinGame {["g"%string := gameWithRequest None]} "g" "alice"
    = (Resolved tt, {["g"%string := gameWithRequest None]})
  ∧ ∃ db', joinGame {["g"%string := gameWaitingForBlack]} "g" "bob"
             = (Resolved tt, db')
           ∧ (black <$> (players <$> db' !! "g"%string)) = Some (Some "bob"%string)
           ∧ (status <$> db' !! "g"%string) = Some ACTIVE
           ∧ (version <$> db' !! "g"%string) = Some 1.
Proof.
  split; [reflexivity|]. eexists. split; [reflexivity|].
  by rewrite lookup_insert_eq.
Qed.

(** C9 (the code at this input). Declining a takeback, or accepting one
    when no previous state is stored, stores the record with its request
    cleared and its version as it was: the version of the stored game
    stays 5. *)
Theorem resolveTakeback_declined_keeps_version :
  (∀ previous,
     resolveTakeback {["g"%string := gameWithRequest previous]} "g" false
     = (Resolved tt,
        <["g"%string := clearTakebackRequest (gameWithRequest previous)]>
          {["g"%string := gameWithRequest previous]}))
  ∧ resolveTakeback {["g"%string := gameWithRequest None]} "g" true
    = (Resolved tt,
       <["g"%string := clearTakebackRequest (gameWithRequest None)]>
         {["g"%string := gameWithRequest None]})
  ∧ (∀ previous,
       takebackRequest (clearTakebackRequest (gameWithRequest previous)) = None
       ∧ version (clearTakebackRequest (gameWithRequest previous)) = 5
       ∧ version (gameWithRequest previous) = 5).
Proof.
  split; [|split].
  - intros previous. apply resolveTakeback_declined; [apply lookup_singleton_eq|by left].
  - apply resolveTakeback_declined; [apply lookup_singleton_eq|by right].
  - done.
Qed.

(** The double capture: the jump from (5,4) over (4,3) to (3,2) is
    followed by a further capture, so the search returns the chains from
    (3,2) and not the chain that stops there. *)
Lemma getCaptureMoves_emits_only_leaves_witness :
  acceptedJump doubleCaptureBoard {| row := 5; col := 4 |} {| row := 5; col := 4 |}
    whiteMan [] {| row := 4; col := 3 |} {| row := 3; col := 2 |}
  ∧ getCaptureMoves doubleCaptureBoard {| row := 3; col := 2 |} whiteMan
      [{| row := 4; col := 3 |}] [{| row := 4; col := 3 |}]
      [{| row := 3; col := 2 |}] {| row := 5; col := 4 |}
    = [doubleCaptureMove]
  ∧ (∀ m, m ∈ getCaptureMoves doubleCaptureBoard {| row := 3; col := 2 |} whiteMan
                [{| row := 4; col := 3 |}] [{| row := 4; col := 3 |}]
                [{| row := 3; col := 2 |}] {| row := 5; col := 4 |} →
          m ∈ getCaptureMoves doubleCaptureBoard {| row := 5; col := 4 |} whiteMan
                [] [] [] {| row := 5; col := 4 |})
  ∧ chainEnd {| row := 5; col := 4 |} whiteMan [] [] {| row := 4; col := 3 |}
      {| row := 3; col := 2 |}
    ∉ getCaptureMoves doubleCaptureBoard {| row := 5; col := 4 |} whiteMan
        [] [] [] {| row := 5; col := 4 |}.
Proof.
  assert (Hjump : acceptedJump doubleCaptureBoard {| row := 5; col := 4 |}
                    {| row := 5; col := 4 |} whiteMan []
                    {| row := 4; col := 3 |} {| row := 3; col := 2 |}).
  { left. split; [reflexivity|]. exists (-1), (-1).
    split; [apply list_elem_of_here|]. split; [reflexivity|].
    split; [reflexivity|]. split; [reflexivity|].
    split; [exists blackMan; split; [reflexivity|discriminate]|].
    split; [apply not_elem_of_nil|]. left. reflexivity. }
  split; [exact Hjump|]. split; [vm_compute; reflexivity|].
  destruct (getCaptureMoves_emits_only_leaves doubleCaptureBoard
              {| row := 5; col := 4 |} whiteMan [] [] [] {| row := 5; col := 4 |})
    as (Hleaf & _).
  destruct (Hleaf {| row := 4; col := 3 |} {| row := 3; col := 2 |} Hjump)
    as (Hlonger & _).
  apply Hlonger. vm_compute. discriminate.
Defined.
